(** * Ridge encoding, hyperparameter search and resampling statistics

    A shallow embedding of the numeric core of the repository:

    - [EEG/Encoding/hyperparameter_optimization.py]        (module [EEG])
    - [CNN/Encoding/hyperparameter_optimization_cnn.py]    (module [CNN])
    - [EEG/Stats/encoding_bootstrapping.py]                (module [Bootstrap])
    - [EEG/Stats/encoding_difference_significance_stats.py] (module [PermTest])

    Conventions of the embedding.

    - numpy and torch floating-point arrays are idealised as arrays of real
      numbers ([R]); a 2-D array is the list of its rows.  The list model
      keeps no column count for an array without rows, so statements about
      shapes assume at least one row where that matters.
    - A Python exception is the result [None]; the object a method was
      called on is unchanged when the method raises before its assignment.
    - The torch solvers ([torch.linalg.cholesky], [torch.cholesky_solve],
      [torch.linalg.solve], [torch.linalg.lstsq]) and the numpy random
      generator are library code: they are an interface the model is
      parameterised by.
    - [.cuda()], [.cpu()], [.float()] and [print] have no effect on the
      real-number values and are left out. *)

From Stdlib Require Import Reals Lra Lia ZArith Sorted.
From stdpp Require Import base option list gmap strings.

Local Open Scope R_scope.

(** ** Arrays *)

Abbreviation vec := (list R).
Abbreviation matrix := (list (list R)).
Abbreviation tensor3 := (list (list (list R))).

(** [M.shape[0]] and [M.shape[1]]. *)
Definition shape0 (M : matrix) : nat := length M.
Definition shape1 (M : matrix) : nat :=
  match M with
  | [] => 0%nat
  | r :: _ => length r
  end.

(** [np.sum] / [torch.sum] of a 1-D array. *)
Definition Rsum (v : vec) : R := foldr Rplus 0 v.

(** Column [j] of a 2-D array, [M[:, j]]. *)
Definition col (j : nat) (M : matrix) : vec := map (fun r => nth j r 0) M.

(** [M.t()]. *)
Definition transpose (M : matrix) : matrix :=
  map (fun j => col j M) (seq 0 (shape1 M)).

Definition dot (u v : vec) : R := Rsum (zip_with Rmult u v).

(** [torch.matmul(A, B)] for 2-D arrays of matching inner dimension. *)
Definition matmul (A B : matrix) : matrix :=
  map (fun r => map (fun j => dot r (col j B)) (seq 0 (shape1 B))) A.

(** [torch.vstack((A, B))]. *)
Definition vstack (A B : matrix) : matrix := A ++ B.

(** [np.eye(n)]. *)
Definition eye (n : nat) : matrix :=
  map (fun i => map (fun j => if Nat.eqb i j then 1 else 0) (seq 0 n)) (seq 0 n).

(** [M * c] for a scalar [c]. *)
Definition scale_by (M : matrix) (c : R) : matrix := map (map (fun x => x * c)) M.

(** [np.zeros((r, c))]. *)
Definition zeros (r c : nat) : matrix := replicate r (replicate c 0).

(** Elementwise binary operation on arrays of equal shape. *)
Definition elementwise (f : R -> R -> R) (A B : matrix) : matrix :=
  zip_with (zip_with f) A B.

(** [np.sum(M, axis=0)] / [torch.sum(M, axis=0)]. *)
Definition sum_axis0 (M : matrix) : vec :=
  map (fun j => Rsum (col j M)) (seq 0 (shape1 M)).

(** [torch.sum(M)]: the grand sum. *)
Definition sum_all (M : matrix) : R := Rsum (map Rsum M).

(** [np.mean(M, axis=0)]. *)
Definition mean_axis0 (M : matrix) : vec :=
  map (fun s => s / INR (shape0 M)) (sum_axis0 M).

(** [np.mean(M, axis=1)] of a 2-D array, and [np.mean] of a 1-D array. *)
Definition mean (v : vec) : R := Rsum v / INR (length v).
Definition mean_axis1 (M : matrix) : vec := map mean M.

(** A rectangular array of shape [(r, c)]. *)
Definition has_shape (r c : nat) (M : matrix) : Prop :=
  length M = r /\ Forall (fun row => length row = c) M.

(** ** The regression class shared by both scripts *)

(** The field [self.coefficients]: the Python list [[]] after [__init__],
    a tensor after a successful [fit]. *)
Inductive coefs :=
  | EmptyList
  | Tensor (B : matrix).

(** The torch linear-algebra routines [fit] calls.  [None] is a raised
    exception ([torch.linalg.cholesky] on a matrix that is not positive
    definite, [torch.linalg.solve] on a singular one). *)
Class TorchLinalg := {
  linalg_cholesky : matrix -> option matrix;
  cholesky_solve : matrix -> matrix -> matrix;
  linalg_solve : matrix -> matrix -> option matrix;
  linalg_lstsq : matrix -> matrix -> matrix
}.

(** What [score] returns: a per-channel vector or a 0-d array. *)
Inductive score_value :=
  | PerChannel (v : vec)
  | Pooled (x : R).

(** [concatenate_ones]: [np.concatenate((ones, X), 1)]. *)
Definition concatenate_ones (X : matrix) : matrix := map (fun r => 1 :: r) X.

(** [predict]: the body after [self] has been read.  [np.squeeze] leaves a
    product with at least two rows and two columns as it is; the model
    covers that case. *)
Definition predict_with (c : coefs) (entry : matrix) : option matrix :=
  let entry := concatenate_ones entry in
  match c with
  | EmptyList => None
  | Tensor B => Some (matmul entry B)
  end.

(** [score]: the body after [self] has been read.  [y - yhat] is taken
    entry by entry, for [y] and [yhat] of one shape. *)
Definition score_with (c : coefs) (entry y : matrix) (channelwise : bool)
  : option score_value :=
  let entry := concatenate_ones entry in
  match c with
  | EmptyList => None
  | Tensor B =>
      let yhat := matmul entry B in
      let difference := elementwise Rminus y yhat in
      let difference_squared := map (map (fun d => d * d)) difference in
      let rows := shape0 y in
      let columns := shape1 y in
      if channelwise then
        let sum_difference := sum_axis0 difference_squared in
        let n_elements := columns in
        let mean_sq_error := map (fun s => s / INR n_elements) sum_difference in
        Some (PerChannel (map sqrt mean_sq_error))
      else
        let sum_difference := sum_all difference_squared in
        let n_elements := (rows * columns)%nat in
        let mean_sq_error := sum_difference / INR n_elements in
        Some (Pooled (sqrt mean_sq_error))
  end.

(** [vectorized_correlation(x, y)], the same text in both scripts.  [x.std]
    is numpy's: the square root of the mean of the squared deviations. *)
Definition center (x : matrix) : matrix :=
  let m := mean_axis0 x in map (fun row => zip_with Rminus row m) x.

Definition var_axis0 (x : matrix) : vec :=
  mean_axis0 (map (map (fun d => d * d)) (center x)).

Definition std_axis0 (x : matrix) : vec := map sqrt (var_axis0 x).

Definition vectorized_correlation (x y : matrix) : vec :=
  let centered_x := center x in
  let centered_y := center y in
  let covariance := sum_axis0 (elementwise Rmult centered_x centered_y) in
  let bessel_corrected_covariance :=
    map (fun c => c / (INR (shape0 x) - 1)) covariance in
  let x_std := map (fun s => s + 1 / 10 ^ 8) (std_axis0 x) in
  let y_std := map (fun s => s + 1 / 10 ^ 8) (std_axis0 y) in
  zip_with Rdiv bessel_corrected_covariance (zip_with Rmult x_std y_std).

(** ** The hyperparameter grid and the best-penalty selection *)

(** [np.logspace(-5, 10, 10)]: ten exponents from -5 to 10 in steps of 15/9. *)
Definition alpha_space : vec :=
  map (fun k => Rpower 10 (-5 + INR k * (15 / 9))) (seq 0 10).

(** [np.argmin] / [np.argmax] of a 1-D array: the index of the first
    occurrence of the extremal value; an empty array raises. *)
Fixpoint argmin_from (best_i : nat) (best : R) (i : nat) (v : vec) : nat :=
  match v with
  | [] => best_i
  | x :: t =>
      if Rlt_dec x best then argmin_from i x (S i) t
      else argmin_from best_i best (S i) t
  end.

Definition argmin (v : vec) : option nat :=
  match v with
  | [] => None
  | x :: t => Some (argmin_from 0 x 1 t)
  end.

Fixpoint argmax_from (best_i : nat) (best : R) (i : nat) (v : vec) : nat :=
  match v with
  | [] => best_i
  | x :: t =>
      if Rlt_dec best x then argmax_from i x (S i) t
      else argmax_from best_i best (S i) t
  end.

Definition argmax (v : vec) : option nat :=
  match v with
  | [] => None
  | x :: t => Some (argmax_from 0 x 1 t)
  end.

(** The values stored in the [output] dictionary. *)
Inductive pyval :=
  | PyNone
  | PyScalar (x : R)
  | PyMatrix (M : matrix)
  | PyTensor (T : tensor3).

Definition output_names : list string :=
  ["rmse_score"; "correlation"; "best_alpha_rmse"; "best_alpha_corr";
   "best_alpha_a_rmse"; "best_alpha_a_corr"]%string.

(** [dict.fromkeys(names)]. *)
Definition dict_fromkeys (names : list string) : gmap string pyval :=
  list_to_map (map (fun k => (k, PyNone)) names).

(** The four selections, from the channel-reduced score matrices
    (rows: timepoints or layers, columns: penalty indices).  This is the
    text after the reduction, the same in both scripts. *)
Record selection := {
  best_alpha_rmse : matrix;
  best_alpha_corr : matrix;
  best_alpha_a_rmse : R;
  best_alpha_a_corr : R
}.

(** [best[tp] = alpha_space[idx[tp]]] for [tp] in [range(n)], into an
    array of shape [(n, 1)]. *)
Definition best_per_row (idx : list nat) : option matrix :=
  mapM (fun i => a ← alpha_space !! i; Some [a]) idx.

Definition select_best (rmse_avg_chan corr_avg_chan : matrix) : option selection :=
  best_alpha_rmse_idx ← mapM argmin rmse_avg_chan;
  best_alpha_corr_idx ← mapM argmax corr_avg_chan;
  best_alpha_rmse ← best_per_row best_alpha_rmse_idx;
  best_alpha_corr ← best_per_row best_alpha_corr_idx;
  let average_rmse := mean_axis0 rmse_avg_chan in
  let average_corr := mean_axis0 corr_avg_chan in
  best_alpha_a_rmse_idx ← argmin average_rmse;
  best_alpha_a_corr_idx ← argmax average_corr;
  best_alpha_a_rmse ← alpha_space !! best_alpha_a_rmse_idx;
  best_alpha_a_corr ← alpha_space !! best_alpha_a_corr_idx;
  Some {| best_alpha_rmse := best_alpha_rmse;
          best_alpha_corr := best_alpha_corr;
          best_alpha_a_rmse := best_alpha_a_rmse;
          best_alpha_a_corr := best_alpha_a_corr |}.

(** The six assignments [output[...] = ...] that end the loop body. *)
Definition fill_output (output : gmap string pyval) (rmse corr : tensor3)
    (s : selection) : gmap string pyval :=
  <["best_alpha_a_corr"%string := PyScalar (best_alpha_a_corr s)]>
  (<["best_alpha_a_rmse"%string := PyScalar (best_alpha_a_rmse s)]>
  (<["best_alpha_corr"%string := PyMatrix (best_alpha_corr s)]>
  (<["best_alpha_rmse"%string := PyMatrix (best_alpha_rmse s)]>
  (<["correlation"%string := PyTensor corr]>
  (<["rmse_score"%string := PyTensor rmse]> output))))).

(** Loops: [for i in xs: s = body(i, s)], stopping at the first exception. *)
Fixpoint for_each {A St : Type} (body : A -> St -> option St) (xs : list A)
    (s : St) : option St :=
  match xs with
  | [] => Some s
  | i :: rest => s' ← body i s; for_each body rest s'
  end.

(** [T[tp, a, :] = v]: numpy broadcasts a one-element [v] and rejects any
    other length mismatch. *)
Definition broadcast_to (n : nat) (v : vec) : option vec :=
  if decide (length v = n) then Some v
  else match v with
       | [x] => Some (replicate n x)
       | _ => None
       end.

Definition set_cell (T : tensor3) (tp a : nat) (v : vec) : option tensor3 :=
  plane ← T !! tp;
  old ← plane !! a;
  v' ← broadcast_to (length old) v;
  Some (<[tp := <[a := v']> plane]> T).

(** [np.zeros((d0, d1, d2))]. *)
Definition zeros3 (d0 d1 d2 : nat) : tensor3 := replicate d0 (zeros d1 d2).

(** [for a in range(len(alpha_space))], the same text in both scripts up
    to the first index of the two assignments ([tp], or [0] in the CNN
    script): [cell_of alpha] stands for the fit, the prediction and the
    two scores of one penalty. *)
Definition penalty_loop (cell_of : R -> option (vec * vec)) (tp : nat)
    (st : tensor3 * tensor3) : option (tensor3 * tensor3) :=
  for_each (fun a st =>
    alpha ← alpha_space !! a;
    '(rmse_score, correlation) ← cell_of alpha;
    rmse ← set_cell st.1 tp a rmse_score;
    corr ← set_cell st.2 tp a correlation;
    Some (rmse, corr)) (seq 0 (length alpha_space)) st.

(** ** [EEG/Encoding/hyperparameter_optimization.py] *)

Module EEG.

Record OLS_pytorch := {
  coefficients : coefs;
  use_gpu : bool;
  intercept : bool;
  ridge : bool;
  alpha : R
}.

(** [OLS_pytorch(alpha=alpha)]. *)
Definition init (alpha : R) : OLS_pytorch :=
  {| coefficients := EmptyList; use_gpu := false; intercept := true;
     ridge := true; alpha := alpha |}.

(** [self.coefficients = B]. *)
Definition set_coefficients (self : OLS_pytorch) (B : matrix) : OLS_pytorch :=
  {| coefficients := Tensor B; use_gpu := use_gpu self;
     intercept := intercept self; ridge := ridge self; alpha := alpha self |}.

(** [np.eye(columns) * np.sqrt(self.alpha)]. *)
Definition penalty_matrix (self : OLS_pytorch) (columns : nat) : matrix :=
  scale_by (eye columns) (sqrt (alpha self)).

(** [fit] up to the line "Solve it": the augmented arrays [X], [y] and
    the products [XtX], [Xty], for [X] and [y] with the same number of
    rows.  [columns] is bound only under [self.ridge]; without it the
    next line raises [NameError]. *)
Definition augmented (self : OLS_pytorch) (X y : matrix)
  : option (matrix * matrix) :=
  let X := if intercept self then concatenate_ones X else X in
  if ridge self then
    let columns := shape1 X in
    let columns_y := shape1 y in
    let zero_matrix := zeros columns columns_y in
    let X := vstack X (penalty_matrix self columns) in
    let y := vstack y zero_matrix in
    Some (X, y)
  else None.

Definition normal_equations (self : OLS_pytorch) (X y : matrix)
  : option (matrix * matrix) :=
  '(X, y) ← augmented self X y;
  let XtX := matmul (transpose X) X in
  let Xty := matmul (transpose X) y in
  Some (XtX, Xty).

Section Solvers.
Context `{TorchLinalg}.

(** [fit(self, X, y, solver)]: the object after the call and the value
    returned.  The branch for ["lstsq"] returns before its assignment
    to [self.coefficients]. *)
Definition fit (self : OLS_pytorch) (X y : matrix) (solver : string)
  : option (OLS_pytorch * option matrix) :=
  '(XtX, Xty) ← normal_equations self X y;
  if String.eqb solver "cholesky" then
    L ← linalg_cholesky XtX;
    let betas_cholesky := cholesky_solve Xty L in
    Some (set_coefficients self betas_cholesky, Some betas_cholesky)
  else if String.eqb solver "lstsq" then
    let lstsq_coefficients := linalg_lstsq Xty XtX in
    Some (self, Some (transpose lstsq_coefficients))
  else if String.eqb solver "solve" then
    solve_coefficients ← linalg_solve XtX Xty;
    Some (set_coefficients self solve_coefficients, Some solve_coefficients)
  else Some (self, None).

Definition predict (self : OLS_pytorch) (entry : matrix) : option matrix :=
  predict_with (coefficients self) entry.

Definition score (self : OLS_pytorch) (entry y : matrix) (channelwise : bool)
  : option score_value :=
  score_with (coefficients self) entry y channelwise.

(** The [try: ... except Exception: ...] around [fit]. *)
Definition fit_with_fallback (regression : OLS_pytorch) (X y : matrix)
  : option OLS_pytorch :=
  match fit regression X y "cholesky" with
  | Some (r, _) => Some r
  | None => r ← fit regression X y "solve"; Some r.1
  end.

(** The body of the loop over [a]: one model per penalty, its
    validation RMSE per channel and its correlation per channel.
    [np.squeeze] leaves a prediction with at least two rows and two
    columns as it is; the model covers that case. *)
Definition cell (X_train X_val y_train_tp y_val_tp : matrix) (alpha : R)
  : option (vec * vec) :=
  regression ← fit_with_fallback (init alpha) X_train y_train_tp;
  prediction ← predict regression X_val;
  rmse_score ← score regression X_val y_val_tp true;
  let correlation := vectorized_correlation prediction y_val_tp in
  Some (match rmse_score with PerChannel v => v | Pooled x => [x] end,
        correlation).

(** The loops over [tp] and [a] for one feature.  [y_train !! tp] is
    the slice [y_train[:, :, tp]]. *)
Definition sweep (X_train X_val : matrix) (y_train y_validation : list matrix)
    (timepoints n_channels : nat) : option (tensor3 * tensor3) :=
  let rmse := zeros3 timepoints (length alpha_space) n_channels in
  let corr := zeros3 timepoints (length alpha_space) n_channels in
  for_each (fun tp st =>
    y_train_tp ← y_train !! tp;
    y_val_tp ← y_validation !! tp;
    penalty_loop (cell X_train X_val y_train_tp y_val_tp) tp st)
    (seq 0 timepoints) (rmse, corr).

(** The body of [for feature in features_dict.keys()], up to
    [regression_features[feature] = output]: the [output] dictionary. *)
Definition hyperparameter_tuning (X_train X_val : matrix)
    (y_train y_validation : list matrix) (timepoints n_channels : nat)
  : option (gmap string pyval) :=
  let output := dict_fromkeys output_names in
  '(rmse, corr) ← sweep X_train X_val y_train y_validation
                        timepoints n_channels;
  let rmse_avg_chan := map mean_axis1 rmse in
  let corr_avg_chan := map mean_axis1 corr in
  s ← select_best rmse_avg_chan corr_avg_chan;
  Some (fill_output output rmse corr s).
End Solvers.

End EEG.

(** ** [CNN/Encoding/hyperparameter_optimization_cnn.py] *)

Module CNN.

Record OLS_pytorch := {
  coefficients : coefs;
  use_gpu : bool;
  intercept : bool;
  alpha : R
}.

Definition init (alpha : R) : OLS_pytorch :=
  {| coefficients := EmptyList; use_gpu := false; intercept := true;
     alpha := alpha |}.

Definition set_coefficients (self : OLS_pytorch) (B : matrix) : OLS_pytorch :=
  {| coefficients := Tensor B; use_gpu := use_gpu self;
     intercept := intercept self; alpha := alpha self |}.

(** [penalty_matrix[0, 0] = 0]; an array without rows or columns raises
    [IndexError]. *)
Definition zero_first_entry (M : matrix) : option matrix :=
  match M with
  | (_ :: r) :: rest => Some ((0 :: r) :: rest)
  | _ => None
  end.

(** [np.eye(columns)], its first entry zeroed, times [np.sqrt(self.alpha)]. *)
Definition penalty_matrix (self : OLS_pytorch) (columns : nat) : option matrix :=
  penalty_matrix ← zero_first_entry (eye columns);
  Some (scale_by penalty_matrix (sqrt (alpha self))).

Definition augmented (self : OLS_pytorch) (X y : matrix)
  : option (matrix * matrix) :=
  let X := if intercept self then concatenate_ones X else X in
  let columns := shape1 X in
  let columns_y := shape1 y in
  penalty_matrix ← penalty_matrix self columns;
  let zero_matrix := zeros columns columns_y in
  let X := vstack X penalty_matrix in
  let y := vstack y zero_matrix in
  Some (X, y).

Definition normal_equations (self : OLS_pytorch) (X y : matrix)
  : option (matrix * matrix) :=
  '(X, y) ← augmented self X y;
  let XtX := matmul (transpose X) X in
  let Xty := matmul (transpose X) y in
  Some (XtX, Xty).

Section Solvers.
Context `{TorchLinalg}.

(** [fit(self, X, y, solver)]: the object after the call (the method
    returns nothing). *)
Definition fit (self : OLS_pytorch) (X y : matrix) (solver : string)
  : option OLS_pytorch :=
  '(XtX, Xty) ← normal_equations self X y;
  if String.eqb solver "cholesky" then
    L ← linalg_cholesky XtX;
    Some (set_coefficients self (cholesky_solve Xty L))
  else if String.eqb solver "lstsq" then
    let lstsq_coefficients := linalg_lstsq Xty XtX in
    Some (set_coefficients self (transpose lstsq_coefficients))
  else if String.eqb solver "solve" then
    solve_coefficients ← linalg_solve XtX Xty;
    Some (set_coefficients self solve_coefficients)
  else Some self.

Definition predict (self : OLS_pytorch) (entry : matrix) : option matrix :=
  predict_with (coefficients self) entry.

Definition score (self : OLS_pytorch) (entry y : matrix) (channelwise : bool)
  : option score_value :=
  score_with (coefficients self) entry y channelwise.

Definition fit_with_fallback (regression : OLS_pytorch) (X y : matrix)
  : option OLS_pytorch :=
  match fit regression X y "cholesky" with
  | Some r => Some r
  | None => fit regression X y "solve"
  end.

Definition cell (X_train X_val y_train_tp y_val_tp : matrix) (alpha : R)
  : option (vec * vec) :=
  regression ← fit_with_fallback (init alpha) X_train y_train_tp;
  prediction ← predict regression X_val;
  rmse_score ← score regression X_val y_val_tp true;
  let correlation := vectorized_correlation prediction y_val_tp in
  Some (match rmse_score with PerChannel v => v | Pooled x => [x] end,
        correlation).

Definition layers_names : list string :=
  ["layer1.0.relu_1"; "layer1.1.relu_1"; "layer2.0.relu_1";
   "layer2.1.relu_1"; "layer3.0.relu_1"; "layer3.1.relu_1";
   "layer4.0.relu_1"; "layer4.1.relu_1"]%string.

(** The local variables the loop over the layers leaves behind:
    the two dictionaries, and [rmse] and [corr], which each iteration
    binds anew ([None]: not bound yet). *)
Record sweep_state := {
  rmse_scores : gmap string tensor3;
  corr_scores : gmap string tensor3;
  rmse : option tensor3;
  corr : option tensor3
}.

(** The loop over [a] for one layer, on fresh arrays of shape
    [(1, len(alpha_space), y_train_tp.shape[1])]. *)
Definition layer_sweep (X_train X_val y_train_tp y_val_tp : matrix)
  : option (tensor3 * tensor3) :=
  let rmse := zeros3 1 (length alpha_space) (shape1 y_train_tp) in
  let corr := zeros3 1 (length alpha_space) (shape1 y_train_tp) in
  penalty_loop (cell X_train X_val y_train_tp y_val_tp) 0 (rmse, corr).

(** [for tp, l in enumerate(layers_names)].  [load_training l] and
    [load_validation l] are the arrays [load_activation] reads from
    disk ([None]: the file is missing). *)
Definition sweep (layers : list string) (X_train X_val : matrix)
    (load_training load_validation : string -> option matrix)
  : option sweep_state :=
  for_each (fun l st =>
    y_train_tp ← load_training l;
    y_val_tp ← load_validation l;
    '(rmse, corr) ← layer_sweep X_train X_val y_train_tp y_val_tp;
    Some {| rmse_scores := <[l := rmse]> (rmse_scores st);
            corr_scores := <[l := corr]> (corr_scores st);
            rmse := Some rmse;
            corr := Some corr |})
    layers
    {| rmse_scores := ∅; corr_scores := ∅; rmse := None; corr := None |}.

(** [np.sum(it * explained_var, axis=1) / total_variance]. *)
Definition weighted_reduce (it : matrix) (explained_var : vec) : vec :=
  let total_variance := Rsum explained_var in
  map (fun row => Rsum (zip_with Rmult row explained_var) / total_variance) it.

(** The loop under [if explained_var_dir:], filling the rows of the
    two reduced matrices, which start as zeros. *)
Definition reduce_weighted (layers : list string) (st : sweep_state)
    (load_explained_var : string -> option vec) : option (matrix * matrix) :=
  let num_layers := length layers in
  let rmse_avg_chan := zeros num_layers (length alpha_space) in
  let corr_avg_chan := zeros num_layers (length alpha_space) in
  for_each (fun '(i, layer) acc =>
    explained_var ← load_explained_var layer;
    rmse_l ← rmse_scores st !! layer;
    corr_l ← corr_scores st !! layer;
    rmse_it ← rmse_l !! 0%nat;
    corr_it ← corr_l !! 0%nat;
    Some (<[i := weighted_reduce rmse_it explained_var]> acc.1,
          <[i := weighted_reduce corr_it explained_var]> acc.2))
    (zip (seq 0 num_layers) layers) (rmse_avg_chan, corr_avg_chan).

(** The body of [for feature in features_dict.keys()], up to
    [regression_features[feature] = output]. *)
Definition hyperparameter_tuning_on (layers : list string)
    (X_train X_val : matrix)
    (load_training load_validation : string -> option matrix)
    (load_explained_var : string -> option vec)
  : option (gmap string pyval) :=
  let output := dict_fromkeys output_names in
  st ← sweep layers X_train X_val load_training load_validation;
  '(rmse_avg_chan, corr_avg_chan) ← reduce_weighted layers st load_explained_var;
  s ← select_best rmse_avg_chan corr_avg_chan;
  rmse ← rmse st;
  corr ← corr st;
  Some (fill_output output rmse corr s).

(** The function as the script runs it, on its eight layers. *)
Definition hyperparameter_tuning :=
  hyperparameter_tuning_on layers_names.
End Solvers.

End CNN.

(** ** The numpy random generator *)

(** [np.random.choice] with [replace=True] draws indices with
    [randint(0, n, size)] from the global generator state.  The state is
    threaded explicitly. *)
Class NumpyRandom := {
  rng : Type;
  randint : nat -> nat -> rng -> list nat * rng;
  randint_length : forall n size g, length (randint n size g).1 = size;
  randint_range : forall n size g,
    (0 < n)%nat -> Forall (fun i => (i < n)%nat) (randint n size g).1
}.

Section Choice.
Context `{NumpyRandom}.

(** [np.random.choice(n, size=size, replace=True)]; an empty population
    raises [ValueError]. *)
Definition choice_index (n size : nat) (g : rng) : option (list nat * rng) :=
  if decide (n = 0%nat) then None else Some (randint n size g).

(** [np.random.choice(a, size=size, replace=True)] for a 1-D array [a]. *)
Definition choice (a : vec) (size : nat) (g : rng) : option (vec * rng) :=
  '(idx, g) ← choice_index (length a) size g;
  Some (map (fun i => nth i a 0) idx, g).

(** The index vectors of [k] successive calls
    [np.random.choice(n, size=size)] and the state after them. *)
Fixpoint draws (n size : nat) (g : rng) (k : nat) : list (list nat) * rng :=
  match k with
  | O => ([], g)
  | S k' =>
      let r := randint n size g in
      let rest := draws n size r.2 k' in
      (r.1 :: rest.1, rest.2)
  end.
End Choice.

(** A generator for examples: state [g] answers every draw with the index
    [g mod n] and moves on to [g + 1]. *)
Program Definition counter_rng : NumpyRandom :=
  {| rng := nat;
     randint := fun n size g => (replicate size (g mod n)%nat, S g) |}.
Next Obligation. intros; simpl. apply length_replicate. Qed.
Next Obligation.
  intros n size g Hn; simpl. apply Forall_replicate.
  apply Nat.mod_upper_bound. lia.
Qed.

(** A solver for examples: Cramer's rule on systems with a 2x2 matrix.
    [torch.linalg.cholesky] is made to raise, so the search takes its
    fallback. *)
Definition cramer2 (A B : matrix) : option matrix :=
  match A with
  | [[a; b]; [c; d]] =>
      let det := a * d - b * c in
      Some (matmul [[d / det; - b / det]; [- c / det; a / det]] B)
  | _ => None
  end.

Definition cramer2_linalg : TorchLinalg :=
  {| linalg_cholesky := fun _ => None;
     cholesky_solve := fun B _ => B;
     linalg_solve := cramer2;
     linalg_lstsq := fun A _ => A |}.

(** A least-squares routine for examples: [torch.linalg.lstsq(A, B)] for
    an [A] of one column that is not zero, where the minimiser of
    [|A S - B|] is [(A^T B) / (A^T A)], column by column of [B]. *)
Definition lstsq_column (A B : matrix) : matrix :=
  let a := col 0 A in
  [map (fun j => dot a (col j B) / dot a a) (seq 0 (shape1 B))].

Definition lstsq_linalg : TorchLinalg :=
  {| linalg_cholesky := fun _ => None;
     cholesky_solve := fun B _ => B;
     linalg_solve := cramer2;
     linalg_lstsq := lstsq_column |}.

(** The sum of the squared entries of [A S - B], which
    [torch.linalg.lstsq(A, B)] minimises over [S]. *)
Definition lstsq_objective (A B S : matrix) : R :=
  sum_all (map (map (fun d => d * d)) (elementwise Rminus (matmul A S) B)).

(** ** [EEG/Stats/encoding_bootstrapping.py] *)

(** Ascending order, as [np.argsort] leaves the values. *)
Fixpoint insert_sorted (x : R) (l : vec) : vec :=
  match l with
  | [] => [x]
  | y :: t => if Rle_dec x y then x :: l else y :: insert_sorted x t
  end.

Definition sort_asc (l : vec) : vec := foldr insert_sorted [] l.

(** [M[r, :] = v] and [M[r, c] = x]. *)
Definition set_row (M : matrix) (r : nat) (v : vec) : option matrix :=
  old ← M !! r;
  v' ← broadcast_to (length old) v;
  Some (<[r := v']> M).

Definition set_entry (M : matrix) (r c : nat) (x : R) : option matrix :=
  old ← M !! r;
  _ ← old !! c;
  Some (<[r := <[c := x]> old]> M).

(** [M[idx]] for a vector of row indices; an index out of range raises. *)
Definition take_rows (M : matrix) (idx : list nat) : option matrix :=
  mapM (fun i => M !! i) idx.

Module Bootstrap.

(** [np.arange(-400, 1000, 20)]. *)
Definition time_ms : list Z :=
  map (fun k => (-400 + 20 * Z.of_nat k)%Z) (seq 0 70).

(** The least integer not below [a / b]. *)
Definition ceil_div (a b : nat) : nat := ((a + b - 1) / b)%nat.

(** [int(np.ceil(n_perm * 0.975))] and [int(np.ceil(n_perm * 0.025))],
    with the products taken exactly. *)
Definition upper_index (n_perm : nat) : nat := ceil_div (n_perm * 975) 1000.
Definition lower_index (n_perm : nat) : nat := ceil_div (n_perm * 25) 1000.

(** STEP 2.4 for one timepoint: the row of [ascending_ranks] that holds
    the values is the bootstrap sample in ascending order; it is read
    at [lower] and at [upper]. *)
Definition ci_of_row (tp_data : vec) (n_perm : nat) : option (list R) :=
  let upper := upper_index n_perm in
  let lower := lower_index n_perm in
  let ascending_ranks := sort_asc tp_data in
  lower_CI ← ascending_ranks !! lower;
  upper_CI ← ascending_ranks !! upper;
  Some [lower_CI; upper_CI].

(** The loop of STEP 2.4; the key [str(tp)] is kept as [tp]. *)
Definition accuracy_CI (bt_data : matrix) (n_perm timepoints : nat)
  : option (gmap nat (list R)) :=
  for_each (fun tp ci_dict =>
    tp_data ← bt_data !! tp;
    ci ← ci_of_row tp_data n_perm;
    Some (<[tp := ci]> ci_dict)) (seq 0 timepoints) ∅.

(** [time_ms[np.argmax(np.mean(M, axis=0))]]. *)
Definition peak_latency (M : matrix) : option Z :=
  i ← argmax (mean_axis0 M);
  time_ms !! i.

Section Random.
Context `{NumpyRandom}.

(** STEP 2.3: the bootstrap distribution of the subject mean, one row
    per timepoint. *)
Definition bootstrap_accuracy (results : matrix) (n_sub n_perm timepoints : nat)
    (g : rng) : option (matrix * rng) :=
  let bt_data := zeros timepoints n_perm in
  for_each (fun tp st =>
    let tp_data := col tp results in
    for_each (fun perm st =>
      '(perm_tp_data, g) ← choice tp_data n_sub st.2;
      let mean_p_tp := mean perm_tp_data in
      bt_data ← set_entry st.1 tp perm mean_p_tp;
      Some (bt_data, g)) (seq 0 n_perm) st)
    (seq 0 timepoints) (bt_data, g).

(** STEP 2.9, the loop over [perm] for one pair of features: one index
    vector is drawn, both features are resampled with it, and the
    difference of the two peak latencies is stored. *)
Definition peak_difference_step (results_feature_A results_feature_B : matrix)
    (n_sub perm : nat) (st : list Z * rng) : option (list Z * rng) :=
  '(perm_peak_data_idx, g) ←
    choice_index (shape0 results_feature_A) n_sub st.2;
  perm_peak_data_A ← take_rows results_feature_A perm_peak_data_idx;
  perm_peak_data_B ← take_rows results_feature_B perm_peak_data_idx;
  peak_A ← peak_latency perm_peak_data_A;
  peak_B ← peak_latency perm_peak_data_B;
  let feature_diff_bt := (peak_A - peak_B)%Z in
  _ ← st.1 !! perm;
  Some (<[perm := feature_diff_bt]> st.1, g).

Definition peak_difference_draws (results_feature_A results_feature_B : matrix)
    (n_sub n_perm : nat) (g : rng) : option (list Z * rng) :=
  let bt_data_peaks := replicate n_perm 0%Z in
  for_each (peak_difference_step results_feature_A results_feature_B n_sub)
    (seq 0 n_perm) (bt_data_peaks, g).
End Random.

End Bootstrap.

(** ** [EEG/Stats/encoding_difference_significance_stats.py] *)

Module PermTest.

(** [np.multiply(results, rand_matrix)]: row [i] times the sign drawn
    for subject [i]. *)
Definition flip (results : matrix) (signs : vec) : matrix :=
  zip_with (fun row s => map (fun x => x * s) row) results signs.

Section Random.
Context `{NumpyRandom}.

(** [np.random.choice([-1, 1], size=(n,), replace=True)]. *)
Definition random_signs (n : nat) (g : rng) : option (vec * rng) :=
  choice [-1; 1] n g.

(** One pass of the loop over [permutation]. *)
Definition null_step (results_f_vid results_f_img : matrix)
    (n_sub_vid n_sub_img permutation : nat) (st : matrix * rng)
  : option (matrix * rng) :=
  '(perm_vid, g) ← random_signs n_sub_vid st.2;
  '(perm_img, g) ← random_signs n_sub_img g;
  let permutation_mat_vid := flip results_f_vid perm_vid in
  let permutation_mat_img := flip results_f_img perm_img in
  let mean_orig_vid := mean_axis0 permutation_mat_vid in
  let mean_orig_img := mean_axis0 permutation_mat_img in
  let t_stat := zip_with Rminus mean_orig_img mean_orig_vid in
  stat_map ← set_row st.1 permutation t_stat;
  Some (stat_map, g).

(** STEP 2.3: the statistical map, row 0 the observed statistic and
    rows 1 .. n_perm-1 the statistics of the sign-flipped data. *)
Definition null_distribution (results_f_vid results_f_img : matrix)
    (n_sub_vid n_sub_img n_perm timepoints : nat) (g : rng)
  : option (matrix * rng) :=
  let stat_map := zeros n_perm timepoints in
  let mean_orig_vid := mean_axis0 results_f_vid in
  let mean_orig_img := mean_axis0 results_f_img in
  let t_stat := zip_with Rminus mean_orig_vid mean_orig_img in
  stat_map ← set_row stat_map 0 t_stat;
  for_each (null_step results_f_vid results_f_img n_sub_vid n_sub_img)
    (seq 1 (n_perm - 1)) (stat_map, g).
End Random.

End PermTest.

(** ** Reference definitions *)

(** The RMSE contract, in the words of the specification: per channel,
    the sum of squared residuals of that channel divided by the number of
    samples; pooled, the grand sum of squared residuals divided by
    samples x channels; the square root in either case. *)
Definition residuals (B entry y : matrix) : matrix :=
  elementwise Rminus y (matmul (concatenate_ones entry) B).

Definition ssr_channel (B entry y : matrix) (j : nat) : R :=
  Rsum (map (fun d => d * d) (col j (residuals B entry y))).

Definition rmse_contract (B entry y : matrix) (channelwise : bool) : score_value :=
  let samples := shape0 y in
  let channels := shape1 y in
  if channelwise then
    PerChannel (map (fun j => sqrt (ssr_channel B entry y j / INR samples))
                    (seq 0 channels))
  else
    Pooled (sqrt (sum_all (map (map (fun d => d * d)) (residuals B entry y))
                  / INR (samples * channels))).

(** The reference ordinary-least-squares solve, in the words of the
    specification: the normal equations [XtX beta = Xty] of the system
    with the column of ones prepended and no penalty block, handed to the
    solver. *)
Definition ols_normal_equations (X y : matrix) : matrix * matrix :=
  let X1 := concatenate_ones X in
  (matmul (transpose X1) X1, matmul (transpose X1) y).

Definition ols_reference `{TorchLinalg} (X y : matrix) (solver : string)
  : option matrix :=
  let XtX := (ols_normal_equations X y).1 in
  let Xty := (ols_normal_equations X y).2 in
  if String.eqb solver "cholesky" then
    L ← linalg_cholesky XtX; Some (cholesky_solve Xty L)
  else if String.eqb solver "solve" then linalg_solve XtX Xty
  else None.

(** An array whose entries are all 0. *)
Definition all_zero (P : matrix) : Prop := Forall (Forall (eq 0)) P.

(** Index [i] holds a minimal (maximal) value of [v]; [k] is the lowest
    index with a property. *)
Definition attains_min (v : vec) (i : nat) : Prop :=
  exists m, v !! i = Some m /\ Forall (fun y => m <= y) v.

Definition attains_max (v : vec) (i : nat) : Prop :=
  exists m, v !! i = Some m /\ Forall (fun y => y <= m) v.

Definition lowest (P : nat -> Prop) (k : nat) : Prop :=
  P k /\ forall i, P i -> (k <= i)%nat.

(** The penalty [a] is the grid value at the lowest index with property
    [P], and no grid value at an index with [P] is smaller. *)
Definition lowest_penalty (P : nat -> Prop) (a : R) : Prop :=
  exists k, lowest P k /\ alpha_space !! k = Some a
    /\ forall i a_i, P i -> alpha_space !! i = Some a_i -> a <= a_i.

(** The difference of peak latencies of two features resampled with one
    and the same vector of subject indices: each peak is computed from its
    own resample. *)
Definition paired_difference (results_A results_B : matrix) (idx : list nat)
  : option Z :=
  resample_A ← take_rows results_A idx;
  resample_B ← take_rows results_B idx;
  peak_A ← Bootstrap.peak_latency resample_A;
  peak_B ← Bootstrap.peak_latency resample_B;
  Some (peak_A - peak_B)%Z.

(** The statistic of the sign-flipped data with the directionality of
    permutation 0: video mean minus image mean, per timepoint. *)
Definition video_minus_image (results_f_vid results_f_img : matrix)
    (perm_vid perm_img : vec) : vec :=
  zip_with Rminus (mean_axis0 (PermTest.flip results_f_vid perm_vid))
                  (mean_axis0 (PermTest.flip results_f_img perm_img)).

(** The negated signal [-x], and the claim that a correlation vector is
    [target] in every channel within the stabilisation constant. *)
Definition negate (x : matrix) : matrix := map (map Ropp) x.

Definition within_tolerance (target : R) (corr : vec) : Prop :=
  Forall (fun c => Rabs (c - target) <= 1 / 10 ^ 8) corr.

(** The cell [T[tp, a, :]] of a score tensor, and a tensor of shape
    [(d0, d1, d2)]. *)
Definition cell_at (T : tensor3) (tp a : nat) : option vec :=
  plane ← T !! tp; plane !! a.

Definition dims3 (d0 d1 d2 : nat) (T : tensor3) : Prop :=
  length T = d0
  /\ Forall (fun plane => length plane = d1
                          /\ Forall (fun row => length row = d2) plane) T.

(** The cells of plane [tp] below penalty index [a] hold the scores of
    their penalties, the other planes are those of [st0]. *)
Definition filled_below (cell_of : R -> option (vec * vec)) (d0 d2 tp : nat)
    (st0 : tensor3 * tensor3) (a : nat) (st : tensor3 * tensor3) : Prop :=
  dims3 d0 10 d2 st.1 /\ dims3 d0 10 d2 st.2
  /\ (forall a' alpha, (a' < a)%nat -> alpha_space !! a' = Some alpha ->
        exists v c, cell_of alpha = Some (v, c)
          /\ cell_at st.1 tp a' = Some v /\ cell_at st.2 tp a' = Some c)
  /\ (forall tp' a', tp' <> tp ->
        cell_at st.1 tp' a' = cell_at st0.1 tp' a'
        /\ cell_at st.2 tp' a' = cell_at st0.2 tp' a').

(** In the EEG search, the cell of timepoint [tp] and penalty index [a]
    holds the scores computed for that timepoint and that penalty. *)
Definition holds_cell `{TorchLinalg} (X_train X_val : matrix)
    (y_train y_validation : list matrix) (rmse corr : tensor3) (tp a : nat)
  : Prop :=
  exists y_train_tp y_val_tp alpha v c,
    y_train !! tp = Some y_train_tp /\ y_validation !! tp = Some y_val_tp
    /\ alpha_space !! a = Some alpha
    /\ EEG.cell X_train X_val y_train_tp y_val_tp alpha = Some (v, c)
    /\ cell_at rmse tp a = Some v /\ cell_at corr tp a = Some c.

(** A tensor of one plane with one row per penalty. *)
Definition one_plane (T : tensor3) : Prop :=
  exists plane, T = [plane] /\ length plane = 10%nat.

(** In the CNN search after the layers [pre]: both dictionaries have a
    one-plane tensor for each of them, and the variables [rmse] and [corr]
    are bound to the tensors of the last one. *)
Definition swept (pre : list string) (st : CNN.sweep_state) : Prop :=
  (forall l, l ∈ pre ->
     exists rmse corr, CNN.rmse_scores st !! l = Some rmse
       /\ CNN.corr_scores st !! l = Some corr
       /\ one_plane rmse /\ one_plane corr)
  /\ CNN.rmse st = last pre ≫= (fun l => CNN.rmse_scores st !! l)
  /\ CNN.corr st = last pre ≫= (fun l => CNN.corr_scores st !! l).

(** ** Further reference definitions *)

(** The diagonal matrix with entries [d 0 .. d (n-1)]; [np.eye(n)] has
    [d i = 1], the block of the CNN script has [d 0 = 0]. *)
Definition diag_matrix (d : nat -> R) (n : nat) : matrix :=
  map (fun i => map (fun j => if Nat.eqb i j then d i else 0) (seq 0 n)) (seq 0 n).

(** [X.t() @ X] and [X.t() @ y] of the system with the column of ones
    prepended. *)
Definition gram (X : matrix) : matrix :=
  matmul (transpose (concatenate_ones X)) (concatenate_ones X).

Definition moment (X y : matrix) : matrix :=
  matmul (transpose (concatenate_ones X)) y.

(** ** [EEG/Stats/encoding_bootstrapping.py]: peak latencies *)

(** What [np.squeeze] and [np.mean(., axis=0)] return in STEP 2.5: an
    array of dimension 0, 1 or 2. *)
Inductive ndarray :=
  | Arr0 (x : R)
  | Arr1 (v : vec)
  | Arr2 (M : matrix).

Module Peaks.

(** [np.squeeze(results[idx])] for an index array of shape [(k, 1)]:
    [rows] are the [k] selected rows, the indexed array has shape
    [(k, 1, t)] and every axis of length one is dropped. *)
Definition squeeze (rows : matrix) (t : nat) : ndarray :=
  match rows with
  | [row] => if (t =? 1)%nat then Arr0 (nth 0 row 0) else Arr1 row
  | _ =>
      if (t =? 1)%nat then Arr1 (map (fun row => nth 0 row 0) rows)
      else Arr2 rows
  end.

(** [np.mean(a, axis=0)]; an array of dimension 0 has no axis 0. *)
Definition mean_axis0_nd (a : ndarray) : option ndarray :=
  match a with
  | Arr0 _ => None
  | Arr1 v => Some (Arr0 (mean v))
  | Arr2 M => Some (Arr1 (mean_axis0 M))
  end.

(** [np.argmax(a)]: the first index of the largest entry of the
    flattened array. *)
Definition argmax_nd (a : ndarray) : option nat :=
  match a with
  | Arr0 _ => Some 0%nat
  | Arr1 v => argmax v
  | Arr2 M => argmax (concat M)
  end.

(** Python's [round] of the quotient [a / b]: the nearest integer, a tie
    going to the even one. *)
Definition round_half_even (a b : nat) : nat :=
  let q := (a / b)%nat in
  let r := (a mod b)%nat in
  if (2 * r <? b)%nat then q
  else if (b <? 2 * r)%nat then S q
  else if Nat.even q then q else S q.

(** [round(n_perm * 0.975)] and [round(n_perm * 0.025)], with the
    products taken exactly. *)
Definition upper_round (n_perm : nat) : nat := round_half_even (n_perm * 975) 1000.
Definition lower_round (n_perm : nat) : nat := round_half_even (n_perm * 25) 1000.

(** STEP 2.6: the bootstrap peaks, stored as floats, in ascending order
    and read at [lower] and [upper]; the list [[lower_CI, peak, upper_CI]]
    as a triple. *)
Definition peak_CI (bt_data_peaks : list Z) (n_perm : nat) (peak : Z)
  : option (R * Z * R) :=
  let upper := upper_round n_perm in
  let lower := lower_round n_perm in
  let ascending_ranks := sort_asc (map IZR bt_data_peaks) in
  lower_CI ← ascending_ranks !! lower;
  upper_CI ← ascending_ranks !! upper;
  Some (lower_CI, peak, upper_CI).

(** STEP 2.10: the same reading with the indices of STEP 2.4. *)
Definition difference_CI (bt_data_peaks : list Z) (n_perm : nat)
    (feature_diff : Z) : option (R * Z * R) :=
  let upper := Bootstrap.upper_index n_perm in
  let lower := Bootstrap.lower_index n_perm in
  let peak_data_sorted := sort_asc (map IZR bt_data_peaks) in
  lower_CI ← peak_data_sorted !! lower;
  upper_CI ← peak_data_sorted !! upper;
  Some (lower_CI, feature_diff, upper_CI).

(** The tuple [feature_names] of the script. *)
Definition feature_names : list string :=
  ["edges"; "world_normal"; "scene_depth"; "lighting"; "reflectance";
   "skeleton"; "action"]%string.

(** ["{} vs. {}".format(feature_A, feature_B)]. *)
Definition str_comparison (feature_A feature_B : string) : string :=
  (feature_A +:+ " vs. " +:+ feature_B)%string.

Section Random.
Context `{NumpyRandom}.

(** STEP 2.5, one pass of the loop over [perm]. *)
Definition peak_step (results : matrix) (n_sub perm : nat)
    (st : list Z * rng) : option (list Z * rng) :=
  '(perm_peak_data_idx, g) ← choice_index (shape0 results) n_sub st.2;
  rows ← take_rows results perm_peak_data_idx;
  let perm_peak_data := squeeze rows (shape1 results) in
  perm_mean ← mean_axis0_nd perm_peak_data;
  i ← argmax_nd perm_mean;
  p ← Bootstrap.time_ms !! i;
  _ ← st.1 !! perm;
  Some (<[perm := p]> st.1, g).

Definition peak_draws (results : matrix) (n_sub n_perm : nat) (g : rng)
  : option (list Z * rng) :=
  let bt_data_peaks := replicate n_perm 0%Z in
  for_each (peak_step results n_sub) (seq 0 n_perm) (bt_data_peaks, g).

(** STEP 2.5 and 2.6 for one feature. *)
Definition peak_interval (results : matrix) (n_sub n_perm : nat) (g : rng)
  : option ((R * Z * R) * rng) :=
  peak ← Bootstrap.peak_latency results;
  '(bt_data_peaks, g) ← peak_draws results n_sub n_perm g;
  ci ← peak_CI bt_data_peaks n_perm peak;
  Some (ci, g).

(** STEP 2.9, one pass of the loop over [perm], with the variable
    [peak_A] it assigns kept in the state: [st] is
    [(bt_data_peaks, peak_A, generator)].  The resampled rows are taken
    as they are, which is what the reshape to [(n_sub, timepoints)]
    gives for results of that width. *)
Definition difference_step (results_feature_A results_feature_B : matrix)
    (n_sub perm : nat) (st : list Z * Z * rng) : option (list Z * Z * rng) :=
  '(perm_peak_data_idx, g) ←
    choice_index (shape0 results_feature_A) n_sub st.2;
  perm_peak_data_A ← take_rows results_feature_A perm_peak_data_idx;
  perm_peak_data_B ← take_rows results_feature_B perm_peak_data_idx;
  peak_A ← Bootstrap.peak_latency perm_peak_data_A;
  peak_B ← Bootstrap.peak_latency perm_peak_data_B;
  let feature_diff_bt := (peak_A - peak_B)%Z in
  _ ← st.1.1 !! perm;
  Some (<[perm := feature_diff_bt]> st.1.1, peak_A, g).

(** One pass of the loop over [feature2]; [st] is
    [(peak_A, pairwise_p, generator)], and the entry [{"ci": [...]}]
    of [pairwise_p] is kept as the triple of its list. *)
Definition compare (results_dict : gmap string matrix) (n_sub n_perm : nat)
    (feature_A : string) (results_feature_A : matrix) (feature_B : string)
    (st : Z * gmap string (R * Z * R) * rng)
  : option (Z * gmap string (R * Z * R) * rng) :=
  if decide (feature_A = feature_B) then Some st
  else
    results_feature_B ← results_dict !! feature_B;
    peak_B ← Bootstrap.peak_latency results_feature_B;
    let feature_diff := (st.1.1 - peak_B)%Z in
    let bt_data_peaks := replicate n_perm 0%Z in
    '(bt_data_peaks, peak_A, g) ←
      for_each (difference_step results_feature_A results_feature_B n_sub)
        (seq 0 n_perm) (bt_data_peaks, st.1.1, st.2);
    ci ← difference_CI bt_data_peaks n_perm feature_diff;
    Some (peak_A, <[str_comparison feature_A feature_B := ci]> st.1.2, g).

(** STEP 2.9 and 2.10: the loops over [feature1] and [feature2]. *)
Definition pairwise (results_dict : gmap string matrix) (n_sub n_perm : nat)
    (g : rng) : option (gmap string (R * Z * R) * rng) :=
  for_each (fun feature1 st =>
    feature_A ← feature_names !! feature1;
    let num_comparisons := (feature1 + 1)%nat in
    results_feature_A ← results_dict !! feature_A;
    peak_A ← Bootstrap.peak_latency results_feature_A;
    '(_, pairwise_p, g) ←
      for_each (fun feature2 st =>
        feature_B ← feature_names !! feature2;
        compare results_dict n_sub n_perm feature_A results_feature_A
          feature_B st) (seq 0 num_comparisons) (peak_A, st.1, st.2);
    Some (pairwise_p, g)) (seq 0 (length feature_names)) (∅, g).
End Random.

End Peaks.

(** ** [EEG/Stats/encoding_difference_significance_stats.py]: p-values *)

Module PValues.

(** [scipy.stats.rankdata] with its default method: a value gets the
    average of the positions that it and its ties take in ascending
    order. *)
Fixpoint count_less (x : R) (v : vec) : nat :=
  match v with
  | [] => 0%nat
  | y :: t => ((if Rlt_dec y x then 1 else 0) + count_less x t)%nat
  end.

Fixpoint count_equal (x : R) (v : vec) : nat :=
  match v with
  | [] => 0%nat
  | y :: t => ((if Req_dec_T y x then 1 else 0) + count_equal x t)%nat
  end.

Definition rankdata (v : vec) : vec :=
  map (fun x => INR (count_less x v) + (INR (count_equal x v) + 1) / 2) v.

(** [np.apply_along_axis(f, 0, M)] for an [f] that keeps the length of
    its argument: column [j] of the result is [f] of column [j]. *)
Definition apply_along_axis0 (f : vec -> vec) (M : matrix) : matrix :=
  let columns := map (fun j => f (col j M)) (seq 0 (shape1 M)) in
  map (fun i => map (fun c => nth i c 0) columns) (seq 0 (shape0 M)).

(** STEP 2.4. [sub_matrix] has the shape of [stat_map] and holds
    [n_perm + 1] everywhere; a [tail] other than ["right"] and ["both"]
    leaves [ranks] unbound. *)
Definition p_values (stat_map : matrix) (n_perm : nat) (tail : string)
  : option vec :=
  ranks ←
    (if String.eqb tail "right" then
       Some (apply_along_axis0 rankdata stat_map)
     else if String.eqb tail "both" then
       let abs_values := map (map Rabs) stat_map in
       Some (apply_along_axis0 rankdata abs_values)
     else None);
  let p_map := map (map (fun r => (INR (n_perm + 1) - r) / INR n_perm)) ranks in
  p_map !! 0%nat.

Section Random.
Context `{NumpyRandom}.

(** STEP 2.3 and 2.4 for one feature. *)
Definition uncorrected (results_f_vid results_f_img : matrix)
    (n_sub_vid n_sub_img n_perm timepoints : nat) (tail : string) (g : rng)
  : option (vec * rng) :=
  '(stat_map, g) ←
    PermTest.null_distribution results_f_vid results_f_img
      n_sub_vid n_sub_img n_perm timepoints g;
  p_values ← p_values stat_map n_perm tail;
  Some (p_values, g).
End Random.

End PValues.

(** ** [EEG/Encoding/annotation_prep_videos.py] *)

Module Annotation.

Definition num_videos : nat := 1440.

(** The dictionary [actions] that recodes the six action identities. *)
Definition actions : list (Z * Z) :=
  [(1, 0); (2, 1); (9, 2); (18, 3); (19, 4); (30, 5)]%Z.

(** [Series.replace(d)]: a value that is a key of [d] becomes its entry,
    any other value stays as it is. *)
Fixpoint replace (d : list (Z * Z)) (x : Z) : Z :=
  match d with
  | [] => x
  | (k, v) :: d' => if (x =? k)%Z then v else replace d' x
  end.

(** [action_data[1] = action_data[1].replace(actions)]. *)
Definition recode (action_column : list Z) : list Z :=
  map (replace actions) action_column.

(** The position [a[i]] of a numpy array of length [len]: a negative
    index counts from the end, an index out of range raises. *)
Definition numpy_index (len : nat) (i : Z) : option nat :=
  if ((0 <=? i) && (i <? Z.of_nat len))%Z then Some (Z.to_nat i)
  else if ((- Z.of_nat len <=? i) && (i <? 0))%Z
       then Some (Z.to_nat (Z.of_nat len + i))
       else None.

(** [action(image)], STEP 2.4; [action_data] is the recoded column. *)
Definition action (action_data : list Z) (image : nat) : option vec :=
  action_id ← action_data !! image;
  let one_hot_vector := replicate (length actions) 0 in
  k ← numpy_index (length one_hot_vector) action_id;
  Some (<[k := 1]> one_hot_vector).

(** [split_data[:, 0][split_data[:, 1] == code]]: the indices of the
    videos whose split code is [code], in ascending order. *)
Definition select (code : Z) (split_data : list Z) : list nat :=
  map fst (filter (fun p => p.2 = code) (zip (seq 0 num_videos) split_data)).

(** The three index arrays [train_data], [val_data] and [test_data];
    [np.column_stack] raises unless there is one code per video. *)
Definition split (split_data : list Z)
  : option (list nat * list nat * list nat) :=
  if decide (length split_data = num_videos) then
    Some (select 0 split_data, select 1 split_data, select 2 split_data)
  else None.

End Annotation.

(** ** Reference definitions for the statistics scripts *)

(** The entry [M[r, c]]. *)
Definition entry_at (M : matrix) (r c : nat) : option R :=
  row ← M !! r; row !! c.

(** [x + c] for a 2-D array [x] and a 1-D array [c] with one entry per
    column: the offset [c] is added to every row. *)
Definition add_offset (c : vec) (x : matrix) : matrix :=
  map (fun row => zip_with Rplus row c) x.

(** * Properties *)

(** ** Sums, columns and products *)

Lemma Rsum_app (u v : vec) : Rsum (u ++ v) = Rsum u + Rsum v.
Proof.
  induction u as [|x u IH]; simpl; [lra|]. rewrite IH. lra.
Qed.

Lemma Rsum_zeros (v : vec) : Forall (eq 0) v -> Rsum v = 0.
Proof.
  induction 1 as [|x v Hx _ IH]; simpl; [reflexivity|]. subst. lra.
Qed.

Lemma col_app (j : nat) (A B : matrix) : col j (A ++ B) = col j A ++ col j B.
Proof. unfold col. apply map_app. Qed.

Lemma length_col (j : nat) (M : matrix) : length (col j M) = length M.
Proof. unfold col. apply length_map. Qed.

(** ** RMSE *)

Ltac sqrt_is v :=
  match goal with
  | |- sqrt ?e = _ => replace e with (v * v) by lra; rewrite sqrt_square; lra
  end.

(** What [score] computes channelwise, for every input: the per-channel
    sum of squared residuals over the number of CHANNELS, [y.shape[1]]. *)
Lemma col_squares (j : nat) (D : matrix) :
  col j (map (map (fun d => d * d)) D) = map (fun d => d * d) (col j D).
Proof.
  unfold col. rewrite !map_map. apply map_ext. intros r.
  set (f := fun d : R => d * d).
  transitivity (nth j (map f r) (f 0)); [|exact (map_nth f r 0 j)].
  f_equal. unfold f. lra.
Qed.

Lemma shape1_map_map (f : R -> R) (M : matrix) : shape1 (map (map f) M) = shape1 M.
Proof. destruct M as [|r M]; simpl; [reflexivity | apply length_map]. Qed.

Lemma score_with_channelwise (B entry y : matrix) :
  score_with (Tensor B) entry y true
  = Some (PerChannel
            (map (fun j => sqrt (ssr_channel B entry y j / INR (shape1 y)))
                 (seq 0 (shape1 (residuals B entry y))))).
Proof.
  unfold score_with, sum_axis0, ssr_channel, residuals.
  rewrite shape1_map_map, !map_map. do 2 f_equal.
  apply map_ext. intros j. now rewrite col_squares.
Qed.

(** The pooled branch follows the contract for every input. *)
Lemma score_with_pooled (B entry y : matrix) :
  score_with (Tensor B) entry y false = Some (rmse_contract B entry y false).
Proof. reflexivity. Qed.

(** C1, evaluated on four samples of one channel, all residuals 1: the
    contract (sum of squared residuals 4 over 4 samples) gives RMSE 1,
    [score] divides by the one channel and returns 2. *)
Theorem score_channelwise_divides_by_channels :
  let B := [[0]; [0]] in
  let entry := [[0]; [0]; [0]; [0]] in
  let y := [[1]; [1]; [1]; [1]] in
  score_with (Tensor B) entry y true = Some (PerChannel [2])
  /\ rmse_contract B entry y true = PerChannel [1]
  /\ score_with (Tensor B) entry y true <> Some (rmse_contract B entry y true).
Proof.
  assert (Hcode : score_with (Tensor [[0]; [0]]) [[0]; [0]; [0]; [0]]
                    [[1]; [1]; [1]; [1]] true = Some (PerChannel [2])).
  { cbn. do 3 f_equal. sqrt_is 2. }
  assert (Hspec : rmse_contract [[0]; [0]] [[0]; [0]; [0]; [0]]
                    [[1]; [1]; [1]; [1]] true = PerChannel [1]).
  { cbn. do 2 f_equal. sqrt_is 1. }
  cbv zeta. rewrite Hcode, Hspec. split; [reflexivity|]. split; [reflexivity|].
  intros Heq. injection Heq as Heq. lra.
Qed.

(** ** The penalty block of [fit] *)

Lemma eye_succ (n : nat) :
  eye (S n)
  = (1 :: map (fun j => if Nat.eqb 0 j then 1 else 0) (seq 1 n))
    :: map (fun i => map (fun j => if Nat.eqb i j then 1 else 0) (seq 0 (S n)))
           (seq 1 n).
Proof. reflexivity. Qed.

(** The EEG script scales the identity as it is: the diagonal entry of
    the intercept column is [sqrt alpha]. *)
Lemma EEG_penalty_intercept_entry (self : EEG.OLS_pytorch) (n : nat) :
  nth 0 (nth 0 (EEG.penalty_matrix self (S n)) []) 0 = sqrt (EEG.alpha self).
Proof.
  unfold EEG.penalty_matrix. rewrite eye_succ. simpl. lra.
Qed.

(** The CNN script zeroes that entry first: it is 0 for every penalty,
    and so is the whole row of the block that belongs to the intercept. *)
Lemma CNN_penalty_intercept_entry (self : CNN.OLS_pytorch) (n : nat) :
  exists P, CNN.penalty_matrix self (S n) = Some P
    /\ nth 0 (nth 0 P []) 0 = 0
    /\ Forall (eq 0) (nth 0 P []).
Proof.
  unfold CNN.penalty_matrix. rewrite eye_succ. simpl. eexists. split; [reflexivity|].
  simpl. split; [lra|]. constructor; [lra|].
  apply Forall_map, Forall_map, Forall_forall. intros j Hj. simpl.
  apply elem_of_seq in Hj. destruct j; [lia|]. simpl. lra.
Qed.

(** Both scripts prepend the column of ones. *)
Lemma EEG_augmented_intercept (self : EEG.OLS_pytorch) (X y : matrix) :
  EEG.intercept self = true -> EEG.ridge self = true ->
  EEG.augmented self X y
  = Some (concatenate_ones X
            ++ EEG.penalty_matrix self (shape1 (concatenate_ones X)),
          y ++ zeros (shape1 (concatenate_ones X)) (shape1 y)).
Proof. intros Hi Hr. unfold EEG.augmented. now rewrite Hi, Hr. Qed.

(** C2, evaluated on [OLS_pytorch(alpha=1).fit(X, y)] with
    [X = [[1], [2]]]: the EEG script stacks the row [[1, 0]] under the
    intercept column, a penalty of 1 on the intercept, and its Gram matrix
    has 2 + 1 in the intercept position; the CNN script stacks [[0, 0]]. *)
Theorem EEG_fit_penalizes_intercept :
  EEG.augmented (EEG.init 1) [[1]; [2]] [[1]; [2]]
  = Some ([[1; 1]; [1; 2]; [1; 0]; [0; 1]], [[1]; [2]; [0]; [0]])
  /\ EEG.normal_equations (EEG.init 1) [[1]; [2]] [[1]; [2]]
     = Some ([[3; 3]; [3; 6]], [[3]; [5]])
  /\ CNN.augmented (CNN.init 1) [[1]; [2]] [[1]; [2]]
     = Some ([[1; 1]; [1; 2]; [0; 0]; [0; 1]], [[1]; [2]; [0]; [0]])
  /\ CNN.normal_equations (CNN.init 1) [[1]; [2]] [[1]; [2]]
     = Some ([[2; 3]; [3; 6]], [[3]; [5]]).
Proof.
  repeat split; cbn; rewrite sqrt_1; repeat f_equal; lra.
Qed.

(** ** [fit] with the solver ["lstsq"] in the EEG script *)

(** Equality of concrete arrays, entry by entry. *)
Ltac arrays_eq :=
  repeat match goal with
         | |- Some _ = Some _ => apply (f_equal Some)
         | |- Tensor _ = Tensor _ => apply (f_equal Tensor)
         | |- (_, _) = (_, _) => apply (f_equal2 pair)
         | |- (_ :: _) = (_ :: _) => apply (f_equal2 cons)
         | |- @nil _ = @nil _ => reflexivity
         | |- @eq R _ _ => lra
         end.

(** C10: whenever [fit(X, y, solver="lstsq")] returns, it returns the
    object it was called on: the assignment to [self.coefficients] sits
    after the [return], so the value handed back, the transposed result
    of [torch.linalg.lstsq], is not stored.  On a model whose
    coefficients are still the empty list, [predict] and [score] after
    the call raise instead of using that result. *)
Theorem EEG_fit_lstsq_leaves_coefficients `{TorchLinalg}
    (self self' : EEG.OLS_pytorch) (X y : matrix) (ret : option matrix) :
  EEG.fit self X y "lstsq" = Some (self', ret) ->
  self' = self
  /\ (exists XtX Xty, EEG.normal_equations self X y = Some (XtX, Xty)
        /\ ret = Some (transpose (linalg_lstsq Xty XtX)))
  /\ (EEG.coefficients self = EmptyList ->
      forall (entry yv : matrix) (cw : bool),
        EEG.predict self' entry = None /\ EEG.score self' entry yv cw = None).
Proof.
  unfold EEG.fit. intros Hfit.
  destruct (EEG.normal_equations self X y) as [[XtX Xty]|]; [|discriminate].
  cbn in Hfit. injection Hfit as <- <-.
  split; [reflexivity|]. split.
  - exists XtX, Xty. split; reflexivity.
  - intros Hc entry yv cw. unfold EEG.predict, EEG.score. rewrite Hc.
    split; reflexivity.
Qed.

Lemma EEG_fit_lstsq_leaves_coefficients_witness :
  exists ret,
    @EEG.fit lstsq_linalg (EEG.init 0) [[1]; [2]] [[2]; [4]] "lstsq"
    = Some (EEG.init 0, ret)
    /\ forall (entry yv : matrix) (cw : bool),
         EEG.predict (EEG.init 0) entry = None
         /\ EEG.score (EEG.init 0) entry yv cw = None.
Proof.
  eexists. split; [reflexivity|].
  refine (proj2 (proj2 (@EEG_fit_lstsq_leaves_coefficients lstsq_linalg
                          (EEG.init 0) (EEG.init 0) [[1]; [2]] [[2]; [4]] _
                          eq_refl)) eq_refl).
Defined.

(** The CNN script has no such [return]: there the result is stored. *)
Lemma CNN_fit_lstsq_stores `{TorchLinalg} (self : CNN.OLS_pytorch) (X y : matrix)
    (XtX Xty : matrix) :
  CNN.normal_equations self X y = Some (XtX, Xty) ->
  CNN.coefficients <$> CNN.fit self X y "lstsq"
  = Some (Tensor (transpose (linalg_lstsq Xty XtX))).
Proof. intros Hne. unfold CNN.fit. rewrite Hne. reflexivity. Qed.

(** ** Zero penalty: the augmented system is the plain one *)

Lemma dot_app (u1 u2 v1 v2 : vec) :
  length u1 = length v1 ->
  dot (u1 ++ u2) (v1 ++ v2) = dot u1 v1 + dot u2 v2.
Proof.
  intros Hlen. unfold dot. rewrite zip_with_app by exact Hlen. apply Rsum_app.
Qed.

Lemma dot_zeros_l (u v : vec) : Forall (eq 0) u -> dot u v = 0.
Proof.
  intros Hu. revert v. induction Hu as [|x u Hx _ IH]; intros [|y v];
    try reflexivity.
  unfold dot in *. simpl. rewrite IH. subst. lra.
Qed.

Lemma nth_all_zero (j : nat) (r : vec) : Forall (eq 0) r -> nth j r 0 = 0.
Proof.
  intros Hr. revert j. induction Hr as [|x r Hx _ IH]; intros [|j]; simpl; auto.
Qed.

Lemma col_all_zero (j : nat) (P : matrix) : all_zero P -> Forall (eq 0) (col j P).
Proof.
  intros HP. unfold col. apply Forall_map. eapply Forall_impl; [exact HP|].
  intros r Hr. simpl. symmetry. now apply nth_all_zero.
Qed.

Lemma shape1_app (A B : matrix) : A <> [] -> shape1 (A ++ B) = shape1 A.
Proof. destruct A; [congruence | reflexivity]. Qed.

Lemma scale_by_zero (M : matrix) : all_zero (scale_by M 0).
Proof.
  unfold all_zero, scale_by. apply Forall_map, Forall_forall. intros r _.
  apply Forall_map, Forall_forall. intros x _. simpl. lra.
Qed.

(** Stacking an all-zero block under [A] changes neither [A^T A] nor
    [A^T C]. *)
Lemma matmul_transpose_vstack (A C P Z : matrix) :
  A <> [] -> C <> [] -> length A = length C -> all_zero P ->
  matmul (transpose (vstack A P)) (vstack C Z) = matmul (transpose A) C.
Proof.
  intros HA HC Hlen HP. unfold matmul, transpose, vstack.
  rewrite !shape1_app by assumption. rewrite !map_map.
  apply map_ext. intros i. apply map_ext. intros j.
  rewrite !col_app. rewrite dot_app.
  - rewrite (dot_zeros_l (col i P)) by (apply col_all_zero; exact HP). lra.
  - rewrite !length_col. exact Hlen.
Qed.

Lemma concatenate_ones_nonempty (X : matrix) : X <> [] -> concatenate_ones X <> [].
Proof. destruct X; [congruence | discriminate]. Qed.

Lemma shape1_concatenate_ones (X : matrix) :
  X <> [] -> shape1 (concatenate_ones X) = S (shape1 X).
Proof. destruct X; [congruence | reflexivity]. Qed.

Lemma EEG_normal_equations_zero_penalty (self : EEG.OLS_pytorch) (X y : matrix) :
  EEG.alpha self = 0 -> EEG.intercept self = true -> EEG.ridge self = true ->
  shape0 X = shape0 y -> X <> [] ->
  EEG.normal_equations self X y = Some (ols_normal_equations X y).
Proof.
  intros Ha Hi Hr Hlen HX.
  assert (Hy : y <> []) by (destruct X, y; simpl in *; congruence).
  unfold EEG.normal_equations. rewrite EEG_augmented_intercept by assumption.
  simpl. unfold ols_normal_equations, EEG.penalty_matrix. rewrite Ha, sqrt_0.
  f_equal. f_equal; apply matmul_transpose_vstack;
    auto using concatenate_ones_nonempty, scale_by_zero;
    unfold concatenate_ones; rewrite length_map; auto.
Qed.

Lemma CNN_normal_equations_zero_penalty (self : CNN.OLS_pytorch) (X y : matrix) :
  CNN.alpha self = 0 -> CNN.intercept self = true ->
  shape0 X = shape0 y -> X <> [] ->
  CNN.normal_equations self X y = Some (ols_normal_equations X y).
Proof.
  intros Ha Hi Hlen HX.
  assert (Hy : y <> []) by (destruct X, y; simpl in *; congruence).
  unfold CNN.normal_equations, CNN.augmented. rewrite Hi.
  rewrite shape1_concatenate_ones by assumption.
  destruct (CNN_penalty_intercept_entry self (shape1 X)) as (P & HP & _).
  pose proof HP as HP'. unfold CNN.penalty_matrix in HP'. rewrite eye_succ in HP'.
  simpl in HP'. rewrite Ha, sqrt_0 in HP'. injection HP' as HP'.
  rewrite HP. simpl. unfold ols_normal_equations.
  assert (HZ : all_zero P).
  { subst P. constructor.
    - constructor; [lra|]. apply Forall_map, Forall_forall. intros x _. lra.
    - apply (scale_by_zero (map _ (seq 1 (shape1 X)))). }
  f_equal. f_equal; apply matmul_transpose_vstack;
    auto using concatenate_ones_nonempty;
    unfold concatenate_ones; rewrite length_map; auto.
Qed.

(** On the two solvers the search calls, ["cholesky"] and ["solve"], a
    fit with penalty 0 and the intercept enabled stores the coefficients
    of the reference ordinary-least-squares solve of the system with the
    column of ones prepended, in both scripts: failure of the solver
    included. *)
Lemma fit_zero_penalty_is_ols `{TorchLinalg} (X y : matrix) (solver : string) :
  shape0 X = shape0 y -> X <> [] ->
  solver = "cholesky"%string \/ solver = "solve"%string ->
  (forall self : EEG.OLS_pytorch,
     EEG.alpha self = 0 -> EEG.intercept self = true -> EEG.ridge self = true ->
     EEG.coefficients <$> (fst <$> EEG.fit self X y solver)
     = Tensor <$> ols_reference X y solver)
  /\ (forall self : CNN.OLS_pytorch,
       CNN.alpha self = 0 -> CNN.intercept self = true ->
       CNN.coefficients <$> CNN.fit self X y solver
       = Tensor <$> ols_reference X y solver).
Proof.
  intros Hlen HX Hs. split.
  - intros self Ha Hi Hr. unfold EEG.fit, ols_reference.
    rewrite EEG_normal_equations_zero_penalty by assumption.
    destruct (ols_normal_equations X y) as [XtX Xty]. simpl.
    destruct Hs as [-> | ->]; simpl.
    + destruct (linalg_cholesky XtX); reflexivity.
    + destruct (linalg_solve XtX Xty); reflexivity.
  - intros self Ha Hi. unfold CNN.fit, ols_reference.
    rewrite CNN_normal_equations_zero_penalty by assumption.
    destruct (ols_normal_equations X y) as [XtX Xty]. simpl.
    destruct Hs as [-> | ->]; simpl.
    + destruct (linalg_cholesky XtX); reflexivity.
    + destruct (linalg_solve XtX Xty); reflexivity.
Qed.

Lemma fit_zero_penalty_is_ols_witness :
  EEG.coefficients <$>
    (fst <$> @EEG.fit cramer2_linalg (EEG.init 0) [[1]; [2]] [[2]; [4]] "solve")
  = Tensor <$> @ols_reference cramer2_linalg [[1]; [2]] [[2]; [4]] "solve".
Proof.
  apply (@fit_zero_penalty_is_ols cramer2_linalg [[1]; [2]] [[2]; [4]] "solve");
    [reflexivity | discriminate | right; reflexivity
    | reflexivity | reflexivity | reflexivity].
Defined.

(** C5: on the solver ["lstsq"] the coefficients of a fit with penalty 0
    and the intercept enabled are not the ordinary-least-squares
    solution.  For [X = [[1]; [2]]] and [y = [[2]; [4]]] the normal
    equations are [[[2; 3]; [3; 5]] beta = [[6]; [10]]] and the reference
    solve gives [[[0]; [2]]].  The CNN [fit] calls
    [torch.linalg.lstsq(Xty, XtX)], the arguments in the other order, so
    it stores the transposed least-squares solution [S] of
    [Xty S = XtX], [[[42 / 136]; [1 / 2]]], which does not solve the
    normal equations; the EEG [fit] returns before it stores anything,
    so its coefficients are still the empty list. *)
Theorem fit_lstsq_zero_penalty_is_not_ols :
  ols_normal_equations [[1]; [2]] [[2]; [4]] = ([[2; 3]; [3; 5]], [[6]; [10]])
  /\ @ols_reference lstsq_linalg [[1]; [2]] [[2]; [4]] "solve" = Some [[0]; [2]]
  /\ matmul [[2; 3]; [3; 5]] [[0]; [2]] = [[6]; [10]]
  /\ CNN.coefficients <$> @CNN.fit lstsq_linalg (CNN.init 0) [[1]; [2]] [[2]; [4]] "lstsq"
     = Some (Tensor [[42 / 136]; [1 / 2]])
  /\ @linalg_lstsq lstsq_linalg [[6]; [10]] [[2; 3]; [3; 5]] = [[42 / 136; 1 / 2]]
  /\ (forall s1 s2 : R,
        lstsq_objective [[6]; [10]] [[2; 3]; [3; 5]] [[42 / 136; 1 / 2]]
        <= lstsq_objective [[6]; [10]] [[2; 3]; [3; 5]] [[s1; s2]])
  /\ matmul [[2; 3]; [3; 5]] [[42 / 136]; [1 / 2]] <> [[6]; [10]]
  /\ EEG.coefficients <$>
       (fst <$> @EEG.fit lstsq_linalg (EEG.init 0) [[1]; [2]] [[2]; [4]] "lstsq")
     = Some EmptyList.
Proof.
  assert (Hne : ols_normal_equations [[1]; [2]] [[2]; [4]]
                = ([[2; 3]; [3; 5]], [[6]; [10]])).
  { unfold ols_normal_equations. cbn. arrays_eq. }
  assert (Hls : lstsq_column [[6]; [10]] [[2; 3]; [3; 5]] = [[42 / 136; 1 / 2]]).
  { unfold lstsq_column. cbn. arrays_eq. }
  split; [exact Hne|]. split; [|split; [|split; [|split; [|split; [|split]]]]].
  - unfold ols_reference. rewrite Hne. cbn. arrays_eq.
  - cbn. arrays_eq.
  - unfold CNN.fit.
    rewrite (CNN_normal_equations_zero_penalty (CNN.init 0) [[1]; [2]] [[2]; [4]])
      by (reflexivity || discriminate).
    rewrite Hne. cbn [mbind option_bind String.eqb Ascii.eqb Bool.eqb
                      linalg_lstsq lstsq_linalg fmap option_fmap option_map
                      CNN.coefficients CNN.set_coefficients].
    rewrite Hls. reflexivity.
  - exact Hls.
  - intros s1 s2. unfold lstsq_objective. cbn.
    pose proof (Rle_0_sqr (s1 - 42 / 136)) as H1.
    pose proof (Rle_0_sqr (s2 - 1 / 2)) as H2. unfold Rsqr in H1, H2. nra.
  - cbn. intros Heq. injection Heq as Heq _. lra.
  - unfold EEG.fit.
    rewrite (EEG_normal_equations_zero_penalty (EEG.init 0) [[1]; [2]] [[2]; [4]])
      by (reflexivity || discriminate).
    rewrite Hne. reflexivity.
Qed.

(** ** [argmin], [argmax] and the grid *)

Lemma map_fmap {A B : Type} (f : A -> B) (l : list A) : map f l = f <$> l.
Proof. reflexivity. Qed.

Lemma argmin_from_spec (v : vec) : forall (best_i : nat) (best : R) (i : nat),
  let k := argmin_from best_i best i v in
  (k = best_i /\ Forall (fun y => best <= y) v)
  \/ (exists m, (i <= k)%nat /\ v !! (k - i)%nat = Some m /\ m < best
        /\ Forall (fun y => m <= y) v
        /\ forall j y, (j < k - i)%nat -> v !! j = Some y -> m < y).
Proof.
  induction v as [|x t IH]; intros best_i best i; simpl.
  - left. split; [reflexivity | constructor].
  - destruct (Rlt_dec x best) as [Hlt | Hge].
    + right. destruct (IH i x (S i)) as [[Hk Hall] | (m & Hik & Hm & Hmx & Hall & Hfirst)].
      * exists x. rewrite Hk, Nat.sub_diag. simpl.
        repeat split; [lia | assumption | constructor; [lra | assumption] |].
        intros j y Hj. lia.
      * exists m. replace (argmin_from i x (S i) t - i)%nat
          with (S (argmin_from i x (S i) t - S i)) by lia.
        simpl. repeat split; [lia | assumption | lra | constructor; [lra | assumption] |].
        intros [|j] y Hj Hy; simpl in Hy.
        -- injection Hy as <-. assumption.
        -- apply (Hfirst j); [lia | assumption].
    + destruct (IH best_i best (S i)) as [[Hk Hall] | (m & Hik & Hm & Hmx & Hall & Hfirst)].
      * left. split; [assumption | constructor; [lra | assumption]].
      * right. exists m. replace (argmin_from best_i best (S i) t - i)%nat
          with (S (argmin_from best_i best (S i) t - S i)) by lia.
        simpl. repeat split; [lia | assumption | lra | constructor; [lra | assumption] |].
        intros [|j] y Hj Hy; simpl in Hy.
        -- injection Hy as <-. lra.
        -- apply (Hfirst j); [lia | assumption].
Qed.

(** [argmin] returns an index of a minimal value, and every index before
    it holds a strictly larger value. *)
Lemma argmin_first (v : vec) (k : nat) :
  argmin v = Some k ->
  exists m, v !! k = Some m /\ Forall (fun y => m <= y) v
    /\ forall j y, (j < k)%nat -> v !! j = Some y -> m < y.
Proof.
  destruct v as [|x t]; [discriminate|]. simpl. intros [= <-].
  destruct (argmin_from_spec t 0 x 1) as [[Hk Hall] | (m & Hik & Hm & Hmx & Hall & Hfirst)].
  - exists x. rewrite Hk. simpl. repeat split; [constructor; [lra | assumption] |].
    intros j y Hj. lia.
  - exists m. replace (argmin_from 0 x 1 t) with (S (argmin_from 0 x 1 t - 1)) at 1 by lia.
    simpl. repeat split; [assumption | constructor; [lra | assumption] |].
    intros [|j] y Hj Hy; simpl in Hy.
    + injection Hy as <-. assumption.
    + apply (Hfirst j); [lia | assumption].
Qed.

Lemma argmin_lowest (v : vec) (k : nat) :
  argmin v = Some k -> lowest (attains_min v) k.
Proof.
  intros Hk. destruct (argmin_first v k Hk) as (m & Hm & Hall & Hfirst). split.
  - exists m. split; assumption.
  - intros i (mi & Hmi & Halli).
    destruct (le_lt_dec k i) as [Hle | Hlt]; [assumption | exfalso].
    pose proof (Hfirst i mi Hlt Hmi) as Hstrict.
    rewrite Forall_forall in Halli.
    assert (mi <= m) by (apply Halli; eapply list_elem_of_lookup_2; eassumption).
    lra.
Qed.

Lemma argmin_lt_length (v : vec) (k : nat) : argmin v = Some k -> (k < length v)%nat.
Proof.
  intros Hk. destruct (argmin_first v k Hk) as (m & Hm & _).
  eapply lookup_lt_Some; eassumption.
Qed.

Lemma argmin_is_Some (v : vec) : v <> [] -> exists k, argmin v = Some k.
Proof. destruct v; [congruence | eexists; reflexivity]. Qed.

(** [argmax] is [argmin] of the negated array. *)
Lemma argmax_from_opp (v : vec) : forall (best_i : nat) (best : R) (i : nat),
  argmax_from best_i best i v = argmin_from best_i (- best) i (map Ropp v).
Proof.
  induction v as [|x t IH]; intros best_i best i; simpl; [reflexivity|].
  destruct (Rlt_dec best x), (Rlt_dec (- x) (- best)); try lra; apply IH.
Qed.

Lemma argmax_opp (v : vec) : argmax v = argmin (map Ropp v).
Proof. destruct v as [|x t]; simpl; [reflexivity|]. now rewrite argmax_from_opp. Qed.

Lemma attains_max_opp (v : vec) (i : nat) :
  attains_min (map Ropp v) i <-> attains_max v i.
Proof.
  unfold attains_min, attains_max. split.
  - rewrite map_fmap. intros (m & Hm & Hall). rewrite list_lookup_fmap in Hm.
    destruct (v !! i) as [x|] eqn:Hx; [|discriminate]. injection Hm as <-.
    exists x. split; [reflexivity|]. rewrite Forall_fmap in Hall.
    eapply Forall_impl; [exact Hall|]. simpl. intros y Hy. lra.
  - rewrite map_fmap. intros (m & Hm & Hall). exists (- m).
    rewrite list_lookup_fmap, Hm.
    split; [reflexivity|]. rewrite Forall_fmap.
    eapply Forall_impl; [exact Hall|]. simpl. intros y Hy. lra.
Qed.

Lemma argmax_lowest (v : vec) (k : nat) :
  argmax v = Some k -> lowest (attains_max v) k.
Proof.
  rewrite argmax_opp. intros Hk. destruct (argmin_lowest _ _ Hk) as [Hat Hlow]. split.
  - now apply attains_max_opp.
  - intros i Hi. apply Hlow. now apply attains_max_opp.
Qed.

Lemma argmax_lt_length (v : vec) (k : nat) : argmax v = Some k -> (k < length v)%nat.
Proof.
  rewrite argmax_opp. intros Hk. apply argmin_lt_length in Hk.
  now rewrite length_map in Hk.
Qed.

(** The grid [np.logspace(-5, 10, 10)] is strictly increasing. *)
Lemma alpha_space_lookup (k : nat) :
  (k < 10)%nat -> alpha_space !! k = Some (Rpower 10 (-5 + INR k * (15 / 9))).
Proof.
  intros Hk. unfold alpha_space. rewrite map_fmap, list_lookup_fmap, lookup_seq_lt by lia.
  reflexivity.
Qed.

Lemma alpha_space_length : length alpha_space = 10%nat.
Proof. reflexivity. Qed.

Lemma alpha_space_increasing (i j : nat) (a_i a_j : R) :
  (i < j)%nat -> alpha_space !! i = Some a_i -> alpha_space !! j = Some a_j ->
  a_i < a_j.
Proof.
  intros Hij Hi Hj.
  pose proof (lookup_lt_Some _ _ _ Hj) as Hj10. rewrite alpha_space_length in Hj10.
  rewrite alpha_space_lookup in Hi, Hj by lia.
  injection Hi as <-. injection Hj as <-.
  apply Rpower_lt; [lra|]. apply lt_INR in Hij. lra.
Qed.

Lemma lowest_has_lowest_penalty (P : nat -> Prop) (k : nat) :
  lowest P k -> (k < 10)%nat -> exists a, alpha_space !! k = Some a /\ lowest_penalty P a.
Proof.
  intros Hlow Hk. eexists. split; [apply alpha_space_lookup; exact Hk|].
  exists k. split; [assumption|]. split; [apply alpha_space_lookup; exact Hk|].
  intros i a_i HPi Hi. destruct Hlow as [_ Hlow]. specialize (Hlow i HPi).
  destruct (Nat.eq_dec k i) as [<- | Hne].
  - rewrite alpha_space_lookup in Hi by exact Hk. injection Hi as <-. lra.
  - left. eapply (alpha_space_increasing k i); [lia | apply alpha_space_lookup; exact Hk | exact Hi].
Qed.

(** ** The best-penalty selection *)

Lemma pick_min (v : vec) :
  (0 < length v <= 10)%nat ->
  exists k a, argmin v = Some k /\ alpha_space !! k = Some a
    /\ lowest_penalty (attains_min v) a.
Proof.
  intros Hlen. destruct (argmin_is_Some v) as [k Hk].
  { destruct v; simpl in Hlen; [lia | discriminate]. }
  pose proof (argmin_lt_length v k Hk) as Hlt.
  destruct (lowest_has_lowest_penalty _ k (argmin_lowest v k Hk)) as (a & Ha & Hlow);
    [lia|].
  exists k, a. auto.
Qed.

Lemma pick_max (v : vec) :
  (0 < length v <= 10)%nat ->
  exists k a, argmax v = Some k /\ alpha_space !! k = Some a
    /\ lowest_penalty (attains_max v) a.
Proof.
  intros Hlen. destruct (argmin_is_Some (map Ropp v)) as [k Hk].
  { destruct v; simpl in Hlen; [lia | discriminate]. }
  rewrite <- argmax_opp in Hk.
  pose proof (argmax_lt_length v k Hk) as Hlt.
  destruct (lowest_has_lowest_penalty _ k (argmax_lowest v k Hk)) as (a & Ha & Hlow);
    [lia|].
  exists k, a. auto.
Qed.

(** The per-row selection: one grid value per row, the lowest penalty
    among those with the extremal score of the row. *)
Lemma best_rows (arg : vec -> option nat) (attains : vec -> nat -> Prop) (M : matrix) :
  (forall v, (0 < length v <= 10)%nat ->
     exists k a, arg v = Some k /\ alpha_space !! k = Some a
       /\ lowest_penalty (attains v) a) ->
  Forall (fun row => (0 < length row <= 10)%nat) M ->
  exists idx best, mapM arg M = Some idx /\ best_per_row idx = Some best
    /\ forall tp row, M !! tp = Some row ->
         exists a, best !! tp = Some [a] /\ lowest_penalty (attains row) a.
Proof.
  intros Hpick HM. induction HM as [|row M Hrow _ IH].
  - exists [], []. repeat split. intros tp row Htp. discriminate.
  - destruct IH as (idx & best & Hidx & Hbest & Hall).
    destruct (Hpick row Hrow) as (k & a & Hk & Ha & Hlow).
    exists (k :: idx), ([a] :: best). unfold best_per_row in *. simpl.
    rewrite Hk, Hidx. simpl. rewrite Ha. simpl. rewrite Hbest. simpl.
    repeat split. intros [|tp] r Hr; simpl in Hr.
    + injection Hr as <-. exists a. split; [reflexivity | assumption].
    + apply Hall. assumption.
Qed.

Lemma length_mean_axis0 (M : matrix) : length (mean_axis0 M) = shape1 M.
Proof. unfold mean_axis0, sum_axis0. now rewrite !length_map, length_seq. Qed.

Lemma shape1_bounds (M : matrix) :
  M <> [] -> Forall (fun row => (0 < length row <= 10)%nat) M ->
  (0 < shape1 M <= 10)%nat.
Proof. intros HM Hrows. destruct Hrows; [congruence | assumption]. Qed.

(** The selection ends on every pair of reduced matrices with between
    one and ten penalties per row. *)
Lemma select_best_Some (rmse_avg_chan corr_avg_chan : matrix) :
  rmse_avg_chan <> [] -> corr_avg_chan <> [] ->
  Forall (fun row => (0 < length row <= 10)%nat) rmse_avg_chan ->
  Forall (fun row => (0 < length row <= 10)%nat) corr_avg_chan ->
  exists s, select_best rmse_avg_chan corr_avg_chan = Some s.
Proof.
  intros HR HC HRrows HCrows.
  destruct (best_rows argmin attains_min rmse_avg_chan pick_min HRrows)
    as (ridx & rbest & Hridx & Hrbest & _).
  destruct (best_rows argmax attains_max corr_avg_chan pick_max HCrows)
    as (cidx & cbest & Hcidx & Hcbest & _).
  destruct (pick_min (mean_axis0 rmse_avg_chan)) as (kr & ar & Hkr & Har & _).
  { rewrite length_mean_axis0. now apply shape1_bounds. }
  destruct (pick_max (mean_axis0 corr_avg_chan)) as (kc & ac & Hkc & Hac & _).
  { rewrite length_mean_axis0. now apply shape1_bounds. }
  eexists. unfold select_best. rewrite Hridx, Hcidx. simpl.
  rewrite Hrbest, Hcbest. simpl. rewrite Hkr, Hkc. simpl. rewrite Har, Hac.
  reflexivity.
Qed.

(** C6: on every pair of channel-reduced score matrices with between one
    and ten penalties per row, the selection returns, for each timepoint
    and for the average over timepoints, the grid value at the lowest
    index that attains the minimal RMSE (the maximal correlation); as the
    grid is increasing that value is the smallest penalty among the tied
    ones. *)
Theorem select_best_ties_lowest_index (rmse_avg_chan corr_avg_chan : matrix) :
  rmse_avg_chan <> [] -> corr_avg_chan <> [] ->
  Forall (fun row => (0 < length row <= 10)%nat) rmse_avg_chan ->
  Forall (fun row => (0 < length row <= 10)%nat) corr_avg_chan ->
  exists s, select_best rmse_avg_chan corr_avg_chan = Some s
    /\ (forall tp row, rmse_avg_chan !! tp = Some row ->
          exists a, best_alpha_rmse s !! tp = Some [a]
                    /\ lowest_penalty (attains_min row) a)
    /\ (forall tp row, corr_avg_chan !! tp = Some row ->
          exists a, best_alpha_corr s !! tp = Some [a]
                    /\ lowest_penalty (attains_max row) a)
    /\ lowest_penalty (attains_min (mean_axis0 rmse_avg_chan)) (best_alpha_a_rmse s)
    /\ lowest_penalty (attains_max (mean_axis0 corr_avg_chan)) (best_alpha_a_corr s).
Proof.
  intros HR HC HRrows HCrows.
  destruct (best_rows argmin attains_min rmse_avg_chan pick_min HRrows)
    as (ridx & rbest & Hridx & Hrbest & Hrall).
  destruct (best_rows argmax attains_max corr_avg_chan pick_max HCrows)
    as (cidx & cbest & Hcidx & Hcbest & Hcall).
  destruct (pick_min (mean_axis0 rmse_avg_chan)) as (kr & ar & Hkr & Har & Hlr).
  { rewrite length_mean_axis0. now apply shape1_bounds. }
  destruct (pick_max (mean_axis0 corr_avg_chan)) as (kc & ac & Hkc & Hac & Hlc).
  { rewrite length_mean_axis0. now apply shape1_bounds. }
  eexists. split.
  - unfold select_best. rewrite Hridx, Hcidx. simpl. rewrite Hrbest, Hcbest. simpl.
    rewrite Hkr, Hkc. simpl. rewrite Har, Hac. simpl. reflexivity.
  - simpl. auto.
Qed.

Lemma select_best_ties_lowest_index_witness :
  exists s, select_best [[2; 1; 1]] [[1; 3; 3]] = Some s
    /\ (forall tp row, [[2; 1; 1]] !! tp = Some row ->
          exists a, best_alpha_rmse s !! tp = Some [a]
                    /\ lowest_penalty (attains_min row) a)
    /\ (forall tp row, [[1; 3; 3]] !! tp = Some row ->
          exists a, best_alpha_corr s !! tp = Some [a]
                    /\ lowest_penalty (attains_max row) a)
    /\ lowest_penalty (attains_min (mean_axis0 [[2; 1; 1]])) (best_alpha_a_rmse s)
    /\ lowest_penalty (attains_max (mean_axis0 [[1; 3; 3]])) (best_alpha_a_corr s).
Proof.
  apply (select_best_ties_lowest_index [[2; 1; 1]] [[1; 3; 3]]);
    [discriminate | discriminate | |];
    (constructor; [simpl; lia | constructor]).
Defined.

(** The tie of the example is broken towards index 1, the second grid
    value, although index 2 holds the same score. *)
Example select_best_tie_example :
  argmin [2; 1; 1] = Some 1%nat /\ argmax [1; 3; 3] = Some 1%nat.
Proof.
  split; simpl; repeat (destruct (Rlt_dec _ _); try lra); reflexivity.
Qed.

(** ** Loops *)

Lemma for_each_invariant {A St : Type} (P : St -> Prop)
    (body : A -> St -> option St) (xs : list A) :
  (forall x s s', x ∈ xs -> P s -> body x s = Some s' -> P s') ->
  forall s s', P s -> for_each body xs s = Some s' -> P s'.
Proof.
  induction xs as [|x xs IH]; intros Hbody s s' Hs Hrun; simpl in Hrun.
  - now injection Hrun as <-.
  - destruct (body x s) as [s1|] eqn:Hx; [|discriminate]. simpl in Hrun.
    eapply IH; [| |exact Hrun].
    + intros y t t' Hy. apply Hbody. now right.
    + eapply Hbody; [left | exact Hs | exact Hx].
Qed.

(** A loop over [range(k, k + m)] whose passes keep an invariant that
    depends on the index ends with the invariant at [k + m]. *)
Lemma for_each_seq_total {St : Type} (P : nat -> St -> Prop)
    (body : nat -> St -> option St) (m : nat) : forall (k : nat) (s : St),
  P k s ->
  (forall i s, (k <= i < k + m)%nat -> P i s ->
     exists s', body i s = Some s' /\ P (S i) s') ->
  exists s', for_each body (seq k m) s = Some s' /\ P (k + m)%nat s'.
Proof.
  induction m as [|m IH]; intros k s Hs Hbody; simpl.
  - exists s. rewrite Nat.add_0_r. auto.
  - destruct (Hbody k s) as (s1 & Hs1 & HP1); [lia | exact Hs|].
    rewrite Hs1. simpl.
    destruct (IH (S k) s1 HP1) as (s' & Hrun & HP').
    { intros i t Hi. apply Hbody. lia. }
    exists s'. split; [exact Hrun|]. now rewrite <- Nat.add_succ_comm.
Qed.

(** A loop over a list whose passes keep an invariant that depends on the
    elements already visited ends, with the invariant of the whole list. *)
Lemma for_each_total_prefix {A St : Type} (P : list A -> St -> Prop)
    (body : A -> St -> option St) (xs : list A) : forall (pre : list A) (s : St),
  P pre s ->
  (forall pre x s, x ∈ xs -> P pre s ->
     exists s', body x s = Some s' /\ P (pre ++ [x]) s') ->
  exists s', for_each body xs s = Some s' /\ P (pre ++ xs) s'.
Proof.
  induction xs as [|x xs IH]; intros pre s Hs Hbody; simpl.
  - exists s. rewrite app_nil_r. auto.
  - destruct (Hbody pre x s) as (s1 & Hs1 & HP1); [left | exact Hs|].
    rewrite Hs1. simpl.
    destruct (IH (pre ++ [x]) s1 HP1) as (s' & Hrun & HP').
    { intros pre' y t Hy. apply Hbody. now right. }
    exists s'. split; [exact Hrun|]. now rewrite <- app_assoc in HP'.
Qed.

(** ** Percentile indices of the accuracy interval *)

Lemma length_insert_sorted (x : R) (l : vec) :
  length (insert_sorted x l) = S (length l).
Proof.
  induction l as [|y t IH]; simpl; [reflexivity|].
  destruct (Rle_dec x y); simpl; [reflexivity | now rewrite IH].
Qed.

Lemma length_sort_asc (l : vec) : length (sort_asc l) = length l.
Proof.
  induction l as [|x t IH]; simpl; [reflexivity|].
  now rewrite length_insert_sorted, IH.
Qed.

(** [sort_asc] is the sample in ascending order. *)
Lemma insert_sorted_perm (x : R) (l : vec) : insert_sorted x l ≡ₚ x :: l.
Proof.
  induction l as [|y t IH]; simpl; [reflexivity|].
  destruct (Rle_dec x y); [reflexivity|]. rewrite IH. apply perm_swap.
Qed.

Lemma sort_asc_perm (l : vec) : sort_asc l ≡ₚ l.
Proof.
  induction l as [|x t IH]; simpl; [reflexivity|].
  now rewrite insert_sorted_perm, IH.
Qed.

Lemma insert_sorted_sorted (x : R) (l : vec) :
  StronglySorted Rle l -> StronglySorted Rle (insert_sorted x l).
Proof.
  induction 1 as [|y t Ht IH Hy]; simpl.
  - constructor; constructor.
  - destruct (Rle_dec x y) as [Hle | Hgt].
    + constructor; [constructor; assumption|].
      constructor; [exact Hle|]. eapply Forall_impl; [exact Hy|].
      simpl. intros z Hz. lra.
    + constructor; [exact IH|]. rewrite insert_sorted_perm.
      constructor; [lra | exact Hy].
Qed.

Lemma sort_asc_sorted (l : vec) : StronglySorted Rle (sort_asc l).
Proof.
  induction l as [|x t IH]; simpl; [constructor|].
  now apply insert_sorted_sorted.
Qed.

Section CeilDiv.
Import Bootstrap.

(** [ceil_div] is the ceiling of the quotient: [upper_index n] is the
    least integer not below [0.975 n], [lower_index n] the least not
    below [0.025 n]. *)
Lemma upper_index_ceiling (n : nat) :
  (975 * n <= 1000 * upper_index n < 975 * n + 1000)%nat.
Proof.
  unfold upper_index, ceil_div.
  pose proof (Nat.div_mod_eq (n * 975 + 1000 - 1) 1000).
  pose proof (Nat.mod_upper_bound (n * 975 + 1000 - 1) 1000). lia.
Qed.

Lemma lower_index_ceiling (n : nat) :
  (25 * n <= 1000 * lower_index n < 25 * n + 1000)%nat.
Proof.
  unfold lower_index, ceil_div.
  pose proof (Nat.div_mod_eq (n * 25 + 1000 - 1) 1000).
  pose proof (Nat.mod_upper_bound (n * 25 + 1000 - 1) 1000). lia.
Qed.

Lemma upper_index_real (n : nat) :
  INR n * (975 / 1000) <= INR (upper_index n) < INR n * (975 / 1000) + 1.
Proof.
  destruct (upper_index_ceiling n) as [Hlo Hhi].
  assert (Hlo' : (975 * Z.of_nat n <= 1000 * Z.of_nat (upper_index n))%Z) by lia.
  assert (Hhi' : (1000 * Z.of_nat (upper_index n) < 975 * Z.of_nat n + 1000)%Z)
    by lia.
  apply IZR_le in Hlo'. apply IZR_lt in Hhi'.
  rewrite !mult_IZR in Hlo'. rewrite plus_IZR, !mult_IZR in Hhi'.
  rewrite !INR_IZR_INZ. lra.
Qed.

Lemma upper_index_valid (n : nat) : (upper_index n < n)%nat <-> (40 <= n)%nat.
Proof. pose proof (upper_index_ceiling n). lia. Qed.

Lemma lower_index_le_upper (n : nat) : (lower_index n <= upper_index n)%nat.
Proof.
  pose proof (upper_index_ceiling n). pose proof (lower_index_ceiling n). lia.
Qed.

(** C9: the interval of one timepoint reads the sorted sample at
    [lower_index n_perm] and [upper_index n_perm] only; both are indices
    of a sample of length [n_perm] exactly when [n_perm >= 40]; then
    both reads succeed, and for [1 <= n_perm < 40] the read at the upper
    index is out of bounds and the extraction raises. *)
Theorem ci_indices_in_bounds (tp_data : vec) (n_perm : nat) :
  length tp_data = n_perm ->
  ci_of_row tp_data n_perm
    = (sort_asc tp_data !! lower_index n_perm) ≫= (fun lo =>
      (sort_asc tp_data !! upper_index n_perm) ≫= (fun up => Some [lo; up]))
  /\ ((lower_index n_perm < n_perm /\ upper_index n_perm < n_perm)%nat
      <-> (40 <= n_perm)%nat)
  /\ ((40 <= n_perm)%nat ->
      exists lo up, sort_asc tp_data !! lower_index n_perm = Some lo
        /\ sort_asc tp_data !! upper_index n_perm = Some up
        /\ ci_of_row tp_data n_perm = Some [lo; up])
  /\ ((1 <= n_perm < 40)%nat ->
      sort_asc tp_data !! upper_index n_perm = None
      /\ ci_of_row tp_data n_perm = None).
Proof.
  intros Hlen.
  pose proof (upper_index_valid n_perm) as Hup.
  pose proof (lower_index_le_upper n_perm) as Hlu.
  pose proof (length_sort_asc tp_data) as Hs. rewrite Hlen in Hs.
  split; [reflexivity|]. split; [lia|]. split.
  - intros H40.
    destruct (lookup_lt_is_Some_2 (sort_asc tp_data) (lower_index n_perm))
      as [lo Hlo]; [lia|].
    destruct (lookup_lt_is_Some_2 (sort_asc tp_data) (upper_index n_perm))
      as [up Hu]; [lia|].
    exists lo, up. unfold ci_of_row. rewrite Hlo, Hu. auto.
  - intros Hsmall.
    assert (Hnone : sort_asc tp_data !! upper_index n_perm = None)
      by (apply lookup_ge_None; lia).
    split; [exact Hnone|]. unfold ci_of_row. rewrite Hnone.
    destruct (sort_asc tp_data !! lower_index n_perm); reflexivity.
Qed.

Lemma ci_indices_in_bounds_witness :
  length (replicate 40 0) = 40%nat
  /\ ((lower_index 40 < 40 /\ upper_index 40 < 40)%nat <-> (40 <= 40)%nat).
Proof.
  split; [reflexivity|].
  exact (proj1 (proj2 (ci_indices_in_bounds (replicate 40 0) 40 eq_refl))).
Defined.

Example upper_index_39_40 :
  upper_index 39 = 39%nat /\ upper_index 40 = 39%nat /\ lower_index 40 = 1%nat.
Proof. repeat split; reflexivity. Qed.

(** The rows the extraction is run on: STEP 2.3 fills an array of shape
    [(timepoints, n_perm)], so each timepoint has a sample of length
    [n_perm]. *)
Lemma set_entry_shape (M M' : matrix) (n m r c : nat) (x : R) :
  has_shape n m M -> set_entry M r c x = Some M' -> has_shape n m M'.
Proof.
  intros [Hlen Hrows]. unfold set_entry. intros Hset.
  destruct (M !! r) as [old|] eqn:Hold; [|discriminate]. simpl in Hset.
  destruct (old !! c); [|discriminate]. simpl in Hset. injection Hset as <-.
  split; [now rewrite length_insert|].
  apply Forall_insert; [exact Hrows|]. rewrite length_insert.
  exact (Forall_lookup_1 _ _ _ _ Hrows Hold).
Qed.

Lemma bootstrap_accuracy_shape `{NumpyRandom} (results : matrix)
    (n_sub n_perm timepoints : nat) (g g' : rng) (bt_data : matrix) :
  bootstrap_accuracy results n_sub n_perm timepoints g = Some (bt_data, g') ->
  has_shape timepoints n_perm bt_data.
Proof.
  unfold bootstrap_accuracy. intros Hrun.
  apply (for_each_invariant (fun st => has_shape timepoints n_perm st.1))
    in Hrun; [exact Hrun| |].
  - intros tp st st' _ Hst Hinner.
    apply (for_each_invariant (fun st => has_shape timepoints n_perm st.1))
      in Hinner; [exact Hinner| |exact Hst].
    intros perm [M g0] [M1 g1] _ HM. cbn [fst snd]. intros Hbody.
    destruct (choice (col tp results) n_sub g0) as [[sample g2]|];
      [|discriminate].
    cbn [mbind option_bind] in Hbody.
    destruct (set_entry M tp perm (mean sample)) as [M2|] eqn:Hset;
      [|discriminate].
    cbn [mbind option_bind] in Hbody. injection Hbody as <- <-.
    eapply set_entry_shape; eassumption.
  - unfold zeros. split; [apply length_replicate|].
    apply Forall_replicate, length_replicate.
Qed.

Lemma ci_of_row_raises (tp_data : vec) (n_perm : nat) :
  length tp_data = n_perm -> (1 <= n_perm < 40)%nat ->
  ci_of_row tp_data n_perm = None.
Proof.
  intros Hlen Hsmall. pose proof (upper_index_valid n_perm) as Hup.
  unfold ci_of_row.
  rewrite (proj2 (lookup_ge_None (sort_asc tp_data) (upper_index n_perm)))
    by (rewrite length_sort_asc; lia).
  destruct (sort_asc tp_data !! lower_index n_perm); reflexivity.
Qed.

Lemma ci_of_row_Some (tp_data : vec) (n_perm : nat) :
  length tp_data = n_perm -> (40 <= n_perm)%nat ->
  exists ci, ci_of_row tp_data n_perm = Some ci.
Proof.
  intros Hlen H40. pose proof (upper_index_valid n_perm) as Hup.
  pose proof (lower_index_le_upper n_perm) as Hlu.
  destruct (lookup_lt_is_Some_2 (sort_asc tp_data) (lower_index n_perm))
    as [lo Hlo]; [rewrite length_sort_asc; lia|].
  destruct (lookup_lt_is_Some_2 (sort_asc tp_data) (upper_index n_perm))
    as [up Hu]; [rewrite length_sort_asc; lia|].
  exists [lo; up]. unfold ci_of_row. now rewrite Hlo, Hu.
Qed.

(** The loop over the timepoints ends for [n_perm >= 40] and raises at
    its first timepoint for [1 <= n_perm < 40]. *)
Lemma accuracy_CI_Some (bt_data : matrix) (n_perm timepoints : nat) :
  has_shape timepoints n_perm bt_data -> (40 <= n_perm)%nat ->
  exists ci_dict, accuracy_CI bt_data n_perm timepoints = Some ci_dict.
Proof.
  intros [Hlen Hrows] H40. unfold accuracy_CI.
  destruct (for_each_seq_total (fun _ (_ : gmap nat (list R)) => True)
    (fun tp ci_dict =>
       tp_data ← bt_data !! tp;
       ci ← ci_of_row tp_data n_perm;
       Some (<[tp := ci]> ci_dict)) timepoints 0 ∅ I) as (ci_dict & Hrun & _).
  - intros tp ci_dict [_ Htp] _.
    destruct (lookup_lt_is_Some_2 bt_data tp) as [row Hrow]; [lia|].
    destruct (ci_of_row_Some row n_perm) as [ci Hci]; [|exact H40|].
    { exact (Forall_lookup_1 _ _ _ _ Hrows Hrow). }
    rewrite Hrow. simpl. rewrite Hci. simpl. eauto.
  - exists ci_dict. exact Hrun.
Qed.

Lemma accuracy_CI_raises (bt_data : matrix) (n_perm timepoints : nat) :
  has_shape timepoints n_perm bt_data -> (0 < timepoints)%nat ->
  (1 <= n_perm < 40)%nat ->
  accuracy_CI bt_data n_perm timepoints = None.
Proof.
  intros [Hlen Hrows] Htp Hsmall. unfold accuracy_CI.
  destruct timepoints as [|t]; [lia|]. simpl.
  destruct (lookup_lt_is_Some_2 bt_data 0) as [row Hrow]; [lia|].
  rewrite Hrow. simpl. rewrite ci_of_row_raises; [reflexivity| |exact Hsmall].
  exact (Forall_lookup_1 _ _ _ _ Hrows Hrow).
Qed.
End CeilDiv.

(** ** Paired resampling of the peak-latency difference *)

Lemma take_rows_Some (M : matrix) (idx : list nat) :
  Forall (fun i => (i < length M)%nat) idx ->
  exists M', take_rows M idx = Some M' /\ length M' = length idx
    /\ Forall (fun row => row ∈ M) M'.
Proof.
  unfold take_rows. induction 1 as [|i idx Hi _ IH]; simpl.
  - exists []. repeat split; constructor.
  - destruct IH as (M' & -> & Hlen & Hin).
    destruct (lookup_lt_is_Some_2 M i Hi) as [row Hrow]. rewrite Hrow. simpl.
    exists (row :: M'). repeat split; [simpl; lia|].
    constructor; [eapply list_elem_of_lookup_2; eassumption | assumption].
Qed.

Lemma time_ms_length : length Bootstrap.time_ms = 70%nat.
Proof. reflexivity. Qed.

Lemma peak_latency_Some (M : matrix) (t : nat) :
  M <> [] -> Forall (fun row => length row = t) M -> (0 < t <= 70)%nat ->
  exists p, Bootstrap.peak_latency M = Some p.
Proof.
  intros HM Hrows Ht. unfold Bootstrap.peak_latency.
  assert (Hlen : length (mean_axis0 M) = t).
  { rewrite length_mean_axis0. destruct Hrows; [congruence | assumption]. }
  destruct (argmin_is_Some (map Ropp (mean_axis0 M))) as [k Hk].
  { destruct (mean_axis0 M); simpl in *; [lia | discriminate]. }
  rewrite <- argmax_opp in Hk. rewrite Hk. simpl.
  apply argmax_lt_length in Hk.
  apply lookup_lt_is_Some_2. rewrite time_ms_length. lia.
Qed.

Section Paired.
Context `{NumpyRandom}.
Variables (results_A results_B : matrix) (n t n_sub : nat).
Hypothesis shape_A : has_shape n t results_A.
Hypothesis shape_B : has_shape n t results_B.
Hypothesis n_pos : (0 < n)%nat.
Hypothesis n_sub_pos : (0 < n_sub)%nat.
Hypothesis t_bounds : (0 < t <= 70)%nat.

Lemma paired_difference_Some (g : rng) :
  exists d, paired_difference results_A results_B (randint n n_sub g).1 = Some d.
Proof.
  destruct shape_A as [HlenA HrowsA], shape_B as [HlenB HrowsB].
  pose proof (randint_range n n_sub g n_pos) as Hrange.
  pose proof (randint_length n n_sub g) as Hsize.
  destruct (take_rows_Some results_A (randint n n_sub g).1) as (MA & HMA & HlA & HinA).
  { now rewrite HlenA. }
  destruct (take_rows_Some results_B (randint n n_sub g).1) as (MB & HMB & HlB & HinB).
  { now rewrite HlenB. }
  destruct (peak_latency_Some MA t) as [pA HpA]; [| |exact t_bounds|].
  { destruct MA; simpl in *; [lia | discriminate]. }
  { rewrite Forall_forall in *. auto. }
  destruct (peak_latency_Some MB t) as [pB HpB]; [| |exact t_bounds|].
  { destruct MB; simpl in *; [lia | discriminate]. }
  { rewrite Forall_forall in *. auto. }
  exists (pA - pB)%Z. unfold paired_difference.
  rewrite HMA, HMB. simpl. rewrite HpA, HpB. reflexivity.
Qed.

Lemma peak_difference_step_Some (perm : nat) (bt0 : list Z) (g0 : rng) (d : Z) :
  (perm < length bt0)%nat ->
  paired_difference results_A results_B (randint n n_sub g0).1 = Some d ->
  Bootstrap.peak_difference_step results_A results_B n_sub perm (bt0, g0)
  = Some (<[perm := d]> bt0, (randint n n_sub g0).2).
Proof.
  intros Hperm Hd.
  destruct (lookup_lt_is_Some_2 bt0 perm Hperm) as [old Hold].
  unfold Bootstrap.peak_difference_step, choice_index, shape0.
  destruct shape_A as [-> _].
  destruct (decide (n = 0%nat)); [lia|]. simpl.
  destruct (randint n n_sub g0) as [idx g1]. simpl in *.
  unfold paired_difference in Hd.
  destruct (take_rows results_A idx) as [MA|]; [|discriminate]. simpl in *.
  destruct (take_rows results_B idx) as [MB|]; [|discriminate]. simpl in *.
  destruct (Bootstrap.peak_latency MA) as [pA|]; [|discriminate]. simpl in *.
  destruct (Bootstrap.peak_latency MB) as [pB|]; [|discriminate]. simpl in *.
  injection Hd as <-. rewrite Hold. reflexivity.
Qed.

(** The loop from [perm = k] on, over [m] draws: it ends, has consumed
    one index vector per draw, and position [k + j] holds the paired
    difference of the [j]-th vector. *)
Lemma peak_difference_loop (m : nat) : forall (k : nat) (bt0 : list Z) (g0 : rng),
  (k + m <= length bt0)%nat ->
  exists bt,
    for_each (Bootstrap.peak_difference_step results_A results_B n_sub)
      (seq k m) (bt0, g0)
    = Some (bt, (draws n n_sub g0 m).2)
    /\ length bt = length bt0
    /\ (forall i, (i < k)%nat -> bt !! i = bt0 !! i)
    /\ forall j idx, (draws n n_sub g0 m).1 !! j = Some idx ->
         exists d, paired_difference results_A results_B idx = Some d
                   /\ bt !! (k + j)%nat = Some d.
Proof.
  induction m as [|m IH]; intros k bt0 g0 Hk.
  - exists bt0. simpl. repeat split. intros j idx Hj. discriminate.
  - destruct (paired_difference_Some g0) as [d Hd].
    destruct (IH (S k) (<[k := d]> bt0) (randint n n_sub g0).2) as
      (bt & Hrun & Hlen & Hpre & Hdraws).
    { rewrite length_insert. lia. }
    exists bt. split; [|split; [|split]].
    + simpl. rewrite (peak_difference_step_Some k bt0 g0 d) by (lia || exact Hd).
      simpl. exact Hrun.
    + rewrite Hlen. apply length_insert.
    + intros i Hi. rewrite Hpre by lia. apply list_lookup_insert_ne. lia.
    + intros [|j] idx Hj; simpl in Hj.
      * injection Hj as <-. exists d. split; [exact Hd|].
        rewrite Nat.add_0_r, Hpre by lia. apply list_lookup_insert_eq. lia.
      * destruct (Hdraws j idx Hj) as (d' & Hd' & Hbt).
        exists d'. split; [exact Hd'|]. now rewrite <- Nat.add_succ_comm.
Qed.

End Paired.


(** ** The null distribution of the permutation test *)

Lemma zip_with_Rminus_swap (u v : vec) :
  zip_with Rminus u v = map Ropp (zip_with Rminus v u).
Proof.
  revert v. induction u as [|x u IH]; intros [|y v]; simpl; try reflexivity.
  rewrite IH. f_equal. lra.
Qed.

(** Every pass of the loop stores the image mean minus the video mean of
    the sign-flipped data: the negation of the statistic with the
    directionality of permutation 0. *)
Lemma null_step_row `{NumpyRandom} (results_f_vid results_f_img : matrix)
    (n_sub_vid n_sub_img permutation : nat) (stat_map stat_map' : matrix)
    (g g' : rng) :
  PermTest.null_step results_f_vid results_f_img n_sub_vid n_sub_img permutation
    (stat_map, g) = Some (stat_map', g') ->
  exists perm_vid perm_img g1 old,
    PermTest.random_signs n_sub_vid g = Some (perm_vid, g1)
    /\ PermTest.random_signs n_sub_img g1 = Some (perm_img, g')
    /\ stat_map !! permutation = Some old
    /\ stat_map' !! permutation
       = broadcast_to (length old)
           (map Ropp (video_minus_image results_f_vid results_f_img
                        perm_vid perm_img)).
Proof.
  unfold PermTest.null_step. cbn [fst snd]. intros Hstep.
  destruct (PermTest.random_signs n_sub_vid g) as [[perm_vid g1]|] eqn:Hvid;
    [|discriminate].
  cbn [mbind option_bind] in Hstep.
  destruct (PermTest.random_signs n_sub_img g1) as [[perm_img g2]|] eqn:Himg;
    [|discriminate].
  cbn [mbind option_bind] in Hstep. unfold set_row in Hstep.
  destruct (stat_map !! permutation) as [old|] eqn:Hold; [|discriminate].
  cbn [mbind option_bind] in Hstep. rewrite zip_with_Rminus_swap in Hstep.
  fold (video_minus_image results_f_vid results_f_img perm_vid perm_img) in Hstep.
  destruct (broadcast_to (length old) _) as [v'|] eqn:Hv; [|discriminate].
  cbn [mbind option_bind] in Hstep. injection Hstep as <- <-.
  exists perm_vid, perm_img, g1, old.
  split; [reflexivity|]. split; [assumption|]. split; [reflexivity|].
  rewrite list_lookup_insert_eq by (eapply lookup_lt_Some; eassumption).
  symmetry. exact Hv.
Qed.

(** C3, evaluated on one video subject with score 1 and one image subject
    with score 0 at a single timepoint, [n_perm = 2], the generator
    drawing the sign +1 for the video subject and -1 for the image
    subject: row 0 is video minus image, 1; row 1 is image minus video of
    the flipped data, -1, where the directionality of permutation 0 gives
    1. *)
Theorem null_rows_are_image_minus_video :
  @PermTest.random_signs counter_rng 1 1%nat = Some ([1], 2%nat)
  /\ @PermTest.random_signs counter_rng 1 2%nat = Some ([-1], 3%nat)
  /\ @PermTest.null_distribution counter_rng [[1]] [[0]] 1 1 2 1 1%nat
     = Some ([[1]; [-1]], 3%nat)
  /\ video_minus_image [[1]] [[0]] [1] [-1] = [1].
Proof.
  repeat split; vm_compute; repeat f_equal; lra.
Qed.

(** ** Correlation of a signal with itself and with its negation *)

Lemma Rsum_opp (l : vec) : Rsum (map Ropp l) = - Rsum l.
Proof. induction l as [|x l IH]; simpl; [lra | rewrite IH; lra]. Qed.

Lemma col_negate (j : nat) (M : matrix) : col j (negate M) = map Ropp (col j M).
Proof.
  unfold col, negate. rewrite !map_map. apply map_ext. intros r.
  transitivity (nth j (map Ropp r) (- 0)); [f_equal; lra|].
  exact (map_nth Ropp r 0 j).
Qed.

Lemma sum_axis0_negate (M : matrix) : sum_axis0 (negate M) = map Ropp (sum_axis0 M).
Proof.
  unfold sum_axis0, negate at 2. rewrite shape1_map_map, map_map.
  apply map_ext. intros j. now rewrite col_negate, Rsum_opp.
Qed.

Lemma mean_axis0_negate (M : matrix) : mean_axis0 (negate M) = map Ropp (mean_axis0 M).
Proof.
  unfold mean_axis0, shape0. rewrite sum_axis0_negate.
  unfold negate. rewrite length_map, !map_map.
  apply map_ext. intros s. unfold Rdiv. ring.
Qed.

Lemma zip_with_Rminus_opp (r m : vec) :
  zip_with Rminus (map Ropp r) (map Ropp m) = map Ropp (zip_with Rminus r m).
Proof.
  revert m. induction r as [|a r IH]; intros [|b m]; simpl; try reflexivity.
  rewrite IH. f_equal. lra.
Qed.

Lemma center_negate (x : matrix) : center (negate x) = negate (center x).
Proof.
  unfold center. rewrite mean_axis0_negate. unfold negate. rewrite !map_map.
  apply map_ext. intros row. apply zip_with_Rminus_opp.
Qed.

Lemma squares_negate (M : matrix) :
  map (map (fun d => d * d)) (negate M) = map (map (fun d => d * d)) M.
Proof.
  unfold negate. rewrite map_map. apply map_ext. intros r.
  rewrite map_map. apply map_ext. intros d. ring.
Qed.

Lemma std_axis0_negate (x : matrix) : std_axis0 (negate x) = std_axis0 x.
Proof.
  unfold std_axis0, var_axis0. now rewrite center_negate, squares_negate.
Qed.

Lemma zip_with_Rmult_opp_r (r q : vec) :
  zip_with Rmult r (map Ropp q) = map Ropp (zip_with Rmult r q).
Proof.
  revert q. induction r as [|a r IH]; intros [|b q]; simpl; try reflexivity.
  rewrite IH. f_equal. ring.
Qed.

Lemma elementwise_Rmult_negate (A B : matrix) :
  elementwise Rmult A (negate B) = negate (elementwise Rmult A B).
Proof.
  unfold elementwise, negate. revert B.
  induction A as [|r A IH]; intros [|q B]; simpl; try reflexivity.
  now rewrite IH, zip_with_Rmult_opp_r.
Qed.

Lemma zip_with_Rdiv_opp (b d : vec) :
  zip_with Rdiv (map Ropp b) d = map Ropp (zip_with Rdiv b d).
Proof.
  revert d. induction b as [|x b IH]; intros [|y d]; simpl; try reflexivity.
  rewrite IH. f_equal. unfold Rdiv. ring.
Qed.

Lemma correlation_negate (x : matrix) :
  vectorized_correlation x (negate x) = map Ropp (vectorized_correlation x x).
Proof.
  unfold vectorized_correlation.
  rewrite center_negate, elementwise_Rmult_negate, sum_axis0_negate, std_axis0_negate.
  rewrite <- zip_with_Rdiv_opp. f_equal. rewrite !map_map.
  apply map_ext. intros c. unfold Rdiv. ring.
Qed.

Lemma eps_pos : 0 < 1 / 10 ^ 8.
Proof. simpl. lra. Qed.

Lemma Rsum_nonneg (l : vec) : Forall (fun y => 0 <= y) l -> 0 <= Rsum l.
Proof. induction 1 as [|x l Hx _ IH]; simpl; lra. Qed.

Lemma nth_nonneg (j : nat) (r : vec) : Forall (fun y => 0 <= y) r -> 0 <= nth j r 0.
Proof.
  intros Hr. revert j. induction Hr as [|x r Hx _ IH]; intros [|j]; simpl;
    auto; lra.
Qed.

Lemma sum_axis0_nonneg (M : matrix) :
  Forall (Forall (fun y => 0 <= y)) M -> Forall (fun y => 0 <= y) (sum_axis0 M).
Proof.
  intros HM. unfold sum_axis0. apply Forall_map, Forall_forall. intros j _.
  simpl. apply Rsum_nonneg. unfold col. apply Forall_map.
  eapply Forall_impl; [exact HM|]. intros r Hr. simpl. now apply nth_nonneg.
Qed.

Lemma elementwise_square (A : matrix) :
  elementwise Rmult A A = map (map (fun d => d * d)) A.
Proof.
  unfold elementwise. rewrite zip_with_diag, <- map_fmap.
  apply map_ext. intros r. now rewrite zip_with_diag, <- map_fmap.
Qed.

Lemma squares_nonneg (A : matrix) :
  Forall (Forall (fun y => 0 <= y)) (map (map (fun d => d * d)) A).
Proof.
  apply Forall_map, Forall_forall. intros r _. apply Forall_map, Forall_forall.
  intros d _. simpl. nra.
Qed.

Lemma zip_with_Rdiv_nonneg (b d : vec) :
  Forall (fun y => 0 <= y) b -> Forall (fun y => 0 < y) d ->
  Forall (fun y => 0 <= y) (zip_with Rdiv b d).
Proof.
  intros Hb. revert d. induction Hb as [|x b Hx _ IH]; intros d Hd; simpl;
    [constructor|].
  destruct Hd as [|y d Hy Hd]; constructor; [|now apply IH].
  apply Rmult_le_pos; [exact Hx|]. left. now apply Rinv_0_lt_compat.
Qed.

Lemma stabilised_std_pos (x : matrix) :
  Forall (fun y => 0 < y) (map (fun s => s + 1 / 10 ^ 8) (std_axis0 x)).
Proof.
  unfold std_axis0. rewrite map_map. apply Forall_map, Forall_forall.
  intros v _. simpl. pose proof (sqrt_pos v). pose proof eps_pos. lra.
Qed.

Lemma zip_with_Rmult_pos (u v : vec) :
  Forall (fun y => 0 < y) u -> Forall (fun y => 0 < y) v ->
  Forall (fun y => 0 < y) (zip_with Rmult u v).
Proof.
  intros Hu. revert v. induction Hu as [|x u Hx _ IH]; intros v Hv; simpl;
    [constructor|].
  destruct Hv as [|y v Hy Hv]; constructor; [|now apply IH].
  now apply Rmult_lt_0_compat.
Qed.

Lemma self_correlation_nonneg (x : matrix) :
  (2 <= shape0 x)%nat -> Forall (fun c => 0 <= c) (vectorized_correlation x x).
Proof.
  intros Hn. unfold vectorized_correlation. apply zip_with_Rdiv_nonneg.
  - rewrite elementwise_square. apply Forall_map.
    eapply Forall_impl; [apply sum_axis0_nonneg, squares_nonneg|].
    intros c Hc. simpl. apply le_INR in Hn. simpl in Hn.
    apply Rmult_le_pos; [exact Hc|]. left. apply Rinv_0_lt_compat. lra.
  - apply zip_with_Rmult_pos; apply stabilised_std_pos.
Qed.

(** A channel on which every sample has the same value [v]. *)
Lemma Rsum_const (l : vec) (v : R) :
  Forall (eq v) l -> Rsum l = INR (length l) * v.
Proof.
  induction 1 as [|x l Hx _ IH]; [simpl; lra|].
  cbn [length]. rewrite S_INR. simpl. rewrite IH. subst. lra.
Qed.

Lemma shape1_lookup (M : matrix) (j : nat) (v : R) :
  M <> [] -> (forall row, row ∈ M -> row !! j = Some v) -> (j < shape1 M)%nat.
Proof.
  intros HM Hcol. destruct M as [|r M]; [congruence|]. simpl.
  eapply lookup_lt_Some. apply Hcol. left.
Qed.

Lemma sum_axis0_const_col (M : matrix) (j : nat) (v : R) :
  M <> [] -> (forall row, row ∈ M -> row !! j = Some v) ->
  sum_axis0 M !! j = Some (INR (length M) * v).
Proof.
  intros HM Hcol. pose proof (shape1_lookup M j v HM Hcol) as Hj.
  unfold sum_axis0. rewrite map_fmap, list_lookup_fmap, lookup_seq_lt by exact Hj.
  simpl. f_equal. rewrite <- (length_col j M). apply Rsum_const.
  unfold col. apply Forall_map, Forall_forall. intros row Hrow. simpl.
  symmetry. apply nth_lookup_Some. now apply Hcol.
Qed.

Lemma mean_axis0_const_col (M : matrix) (j : nat) (v : R) :
  M <> [] -> (forall row, row ∈ M -> row !! j = Some v) ->
  mean_axis0 M !! j = Some v.
Proof.
  intros HM Hcol. unfold mean_axis0.
  rewrite map_fmap, list_lookup_fmap, (sum_axis0_const_col M j v HM Hcol).
  simpl. f_equal. unfold shape0.
  assert (INR (length M) <> 0).
  { apply not_0_INR. destruct M; [congruence | discriminate]. }
  now field.
Qed.

Lemma center_const_col (x : matrix) (j : nat) (v : R) :
  x <> [] -> (forall row, row ∈ x -> row !! j = Some v) ->
  forall row, row ∈ center x -> row !! j = Some (v - v).
Proof.
  intros Hx Hcol row Hrow. unfold center in Hrow. rewrite map_fmap in Hrow.
  apply list_elem_of_fmap in Hrow as (r & -> & Hr).
  rewrite lookup_zip_with, (Hcol r Hr), (mean_axis0_const_col x j v Hx Hcol).
  reflexivity.
Qed.

Lemma squares_const_col (M : matrix) (j : nat) (v : R) :
  (forall row, row ∈ M -> row !! j = Some v) ->
  forall row, row ∈ map (map (fun d => d * d)) M -> row !! j = Some (v * v).
Proof.
  intros Hcol row Hrow. rewrite map_fmap in Hrow.
  apply list_elem_of_fmap in Hrow as (r & -> & Hr).
  now rewrite map_fmap, list_lookup_fmap, (Hcol r Hr).
Qed.

Lemma map_nonempty {A B : Type} (f : A -> B) (l : list A) : l <> [] -> map f l <> [].
Proof. destruct l; [congruence | discriminate]. Qed.

(** On a channel without variance the covariance is 0 and the
    denominator is the square of the stabilisation constant: the
    correlation of that channel is 0. *)
Lemma self_correlation_constant_column (x : matrix) (j : nat) (v : R) :
  x <> [] -> (forall row, row ∈ x -> row !! j = Some v) ->
  vectorized_correlation x x !! j = Some 0.
Proof.
  intros Hx Hcol.
  assert (Hcx : center x <> []) by (unfold center; now apply map_nonempty).
  pose proof (squares_const_col _ j _ (center_const_col x j v Hx Hcol)) as Hsq.
  assert (Hsqne : map (map (fun d => d * d)) (center x) <> [])
    by now apply map_nonempty.
  unfold vectorized_correlation. rewrite lookup_zip_with.
  rewrite elementwise_square, map_fmap, list_lookup_fmap.
  rewrite (sum_axis0_const_col _ j _ Hsqne Hsq). simpl.
  rewrite lookup_zip_with. unfold std_axis0, var_axis0.
  rewrite !map_fmap, !list_lookup_fmap.
  rewrite <- !map_fmap, (mean_axis0_const_col _ j _ Hsqne Hsq). simpl.
  f_equal. unfold Rdiv. ring.
Qed.

(** C4 as stated fails: two equal samples of one channel have
    self-correlation 0, not 1 within 1e-8. *)
Lemma self_correlation_not_one :
  ~ (forall x : matrix, (2 <= shape0 x)%nat ->
       within_tolerance 1 (vectorized_correlation x x)
       /\ within_tolerance (-1) (vectorized_correlation x (negate x))).
Proof.
  intros Hclaim. destruct (Hclaim [[1]; [1]]) as [Hone _]; [simpl; lia|].
  assert (Hz : vectorized_correlation [[1]; [1]] [[1]; [1]] !! 0%nat = Some 0).
  { apply (self_correlation_constant_column _ 0 1); [discriminate|].
    intros row Hrow. repeat (apply elem_of_cons in Hrow as [-> | Hrow]);
      [reflexivity | reflexivity | inversion Hrow]. }
  unfold within_tolerance in Hone. rewrite Forall_lookup in Hone.
  specialize (Hone 0%nat 0 Hz). simpl in Hone.
  replace (0 - 1) with (- (1)) in Hone by lra.
  rewrite Rabs_Ropp, Rabs_R1 in Hone. lra.
Qed.

(** On a channel with variance the value is not 1 either: the covariance
    is divided by [n - 1], the standard deviation is the one over [n].
    Two samples 0 and 2 give 2 / (1 + 1e-8)^2. *)
Example self_correlation_two_samples :
  vectorized_correlation [[0]; [2]] [[0]; [2]]
  = [2 / ((1 + 1 / 10 ^ 8) * (1 + 1 / 10 ^ 8))].
Proof.
  cbn. f_equal.
  match goal with
  | |- context [sqrt ?e] => replace e with 1 by lra
  end.
  rewrite sqrt_1. lra.
Qed.

(** C4, amended: the correlation of a signal with its negation is the
    exact negation of its self-correlation in every channel; the
    self-correlation is never negative, and on a channel without variance
    both are 0, the stabilisation constant being the whole denominator. *)
Theorem correlation_with_negation (x : matrix) :
  (2 <= shape0 x)%nat ->
  vectorized_correlation x (negate x) = map Ropp (vectorized_correlation x x)
  /\ Forall (fun c => 0 <= c) (vectorized_correlation x x)
  /\ forall j v, (forall row, row ∈ x -> row !! j = Some v) ->
       vectorized_correlation x x !! j = Some 0
       /\ vectorized_correlation x (negate x) !! j = Some 0.
Proof.
  intros Hn. split; [apply correlation_negate|].
  split; [now apply self_correlation_nonneg|].
  intros j v Hcol.
  assert (Hx : x <> []) by (destruct x; simpl in Hn; [lia | discriminate]).
  pose proof (self_correlation_constant_column x j v Hx Hcol) as Hz.
  split; [exact Hz|].
  rewrite correlation_negate, map_fmap, list_lookup_fmap, Hz. simpl.
  f_equal. lra.
Qed.

Lemma correlation_with_negation_witness :
  (2 <= shape0 [[0%R]; [2%R]])%nat
  /\ vectorized_correlation [[0]; [2]] (negate [[0]; [2]])
     = map Ropp (vectorized_correlation [[0]; [2]] [[0]; [2]]).
Proof.
  split; [simpl; lia|].
  apply (correlation_with_negation [[0]; [2]]). simpl. lia.
Defined.

(** ** Filling the score tensors *)

Lemma dims3_zeros3 (d0 d1 d2 : nat) : dims3 d0 d1 d2 (zeros3 d0 d1 d2).
Proof.
  unfold dims3, zeros3, zeros. split; [apply length_replicate|].
  apply Forall_replicate. split; [apply length_replicate|].
  apply Forall_replicate, length_replicate.
Qed.

(** [T[tp, a, :] = v] on a tensor of shape [(d0, d1, d2)], for indices in
    range and [v] of length [d2]: the cell holds [v], the others are
    untouched, the shape stays. *)
Lemma set_cell_spec (T : tensor3) (d0 d1 d2 tp a : nat) (v : vec) :
  dims3 d0 d1 d2 T -> (tp < d0)%nat -> (a < d1)%nat -> length v = d2 ->
  exists T', set_cell T tp a v = Some T' /\ dims3 d0 d1 d2 T'
    /\ cell_at T' tp a = Some v
    /\ forall tp' a', tp' <> tp \/ a' <> a -> cell_at T' tp' a' = cell_at T tp' a'.
Proof.
  intros [Hlen Hplanes] Htp Ha Hv.
  destruct (lookup_lt_is_Some_2 T tp) as [plane Hplane]; [lia|].
  pose proof (Forall_lookup_1 _ _ _ _ Hplanes Hplane) as [Hpl Hrows].
  destruct (lookup_lt_is_Some_2 plane a) as [old Hold]; [lia|].
  pose proof (Forall_lookup_1 _ _ _ _ Hrows Hold) as Hol. simpl in Hol.
  exists (<[tp := <[a := v]> plane]> T). split; [|split; [|split]].
  - unfold set_cell, broadcast_to. rewrite Hplane. simpl. rewrite Hold. simpl.
    destruct (decide (length v = length old)); [reflexivity | congruence].
  - split; [now rewrite length_insert|].
    apply Forall_insert; [exact Hplanes|]. split; [now rewrite length_insert|].
    apply Forall_insert; assumption.
  - unfold cell_at. rewrite list_lookup_insert_eq by lia. simpl.
    apply list_lookup_insert_eq. lia.
  - intros tp' a' Hne. unfold cell_at.
    destruct (decide (tp' = tp)) as [-> | Htp'].
    + rewrite list_lookup_insert_eq by lia. rewrite Hplane. simpl.
      apply list_lookup_insert_ne. destruct Hne; congruence.
    + rewrite list_lookup_insert_ne by congruence. reflexivity.
Qed.

Section PenaltyLoop.
Variables (cell_of : R -> option (vec * vec)) (d0 d2 tp : nat).
Hypothesis tp_in_range : (tp < d0)%nat.
Hypothesis cells : forall alpha, alpha ∈ alpha_space ->
  exists v c, cell_of alpha = Some (v, c) /\ length v = d2 /\ length c = d2.

Lemma penalty_loop_spec (st0 : tensor3 * tensor3) :
  dims3 d0 10 d2 st0.1 -> dims3 d0 10 d2 st0.2 ->
  exists st, penalty_loop cell_of tp st0 = Some st /\ filled_below cell_of d0 d2 tp st0 10 st.
Proof.
  intros H1 H2. unfold penalty_loop. rewrite alpha_space_length.
  apply (for_each_seq_total (filled_below cell_of d0 d2 tp st0) _ 10 0 st0).
  - split; [exact H1|]. split; [exact H2|]. split.
    + intros a' alpha Ha'. lia.
    + intros tp' a' _. split; reflexivity.
  - intros a [R C] [_ Ha] HP. destruct HP as (HR & HC & Hfilled & Hframe).
    simpl in *.
    rewrite alpha_space_lookup by lia. simpl.
    destruct (cells (Rpower 10 (-5 + INR a * (15 / 9)))) as (v & c & Hcell & Hv & Hc).
    { eapply list_elem_of_lookup_2. apply alpha_space_lookup. lia. }
    rewrite Hcell. simpl.
    destruct (set_cell_spec R d0 10 d2 tp a v HR tp_in_range Ha Hv)
      as (R' & HR' & HdR & HatR & HothR).
    destruct (set_cell_spec C d0 10 d2 tp a c HC tp_in_range Ha Hc)
      as (C' & HC' & HdC & HatC & HothC).
    rewrite HR'. simpl. rewrite HC'. simpl.
    exists (R', C'). split; [reflexivity|].
    split; [exact HdR|]. split; [exact HdC|]. split; simpl.
    + intros a' alpha Ha' Halpha.
      destruct (decide (a' = a)) as [-> | Hne].
      * rewrite alpha_space_lookup in Halpha by lia. injection Halpha as <-.
        exists v, c. auto.
      * destruct (Hfilled a' alpha) as (v' & c' & Hcell' & Hv' & Hc');
          [lia | exact Halpha|].
        exists v', c'. rewrite HothR, HothC by (right; exact Hne). auto.
    + intros tp' a' Hne. rewrite HothR, HothC by (left; exact Hne).
      now apply Hframe.
Qed.
End PenaltyLoop.

(** ** What the search stores under ["rmse_score"] and ["correlation"] *)

Lemma fill_output_scores (output : gmap string pyval) (rmse corr : tensor3)
    (s : selection) :
  fill_output output rmse corr s !! "rmse_score"%string = Some (PyTensor rmse)
  /\ fill_output output rmse corr s !! "correlation"%string = Some (PyTensor corr).
Proof.
  unfold fill_output. split.
  - rewrite !lookup_insert_ne by discriminate. apply lookup_insert_eq.
  - rewrite !lookup_insert_ne by discriminate. apply lookup_insert_eq.
Qed.

Lemma reduced_rows (T : tensor3) (d0 d2 : nat) :
  dims3 d0 10 d2 T ->
  Forall (fun row => (0 < length row <= 10)%nat) (map mean_axis1 T).
Proof.
  intros [_ Hplanes]. apply Forall_map. eapply Forall_impl; [exact Hplanes|].
  intros plane [Hlen _]. simpl. unfold mean_axis1. rewrite length_map. lia.
Qed.

Section EEGSearch.
Context `{TorchLinalg}.
Variables (X_train X_val : matrix) (y_train y_validation : list matrix).
Variables (timepoints n_channels : nat).

(** Every timepoint has its two response arrays, and every penalty of
    the grid gives scores for [n_channels] channels. *)
Hypothesis responses : forall tp, (tp < timepoints)%nat ->
  exists y_train_tp y_val_tp,
    y_train !! tp = Some y_train_tp /\ y_validation !! tp = Some y_val_tp
    /\ forall alpha, alpha ∈ alpha_space ->
         exists v c, EEG.cell X_train X_val y_train_tp y_val_tp alpha = Some (v, c)
                     /\ length v = n_channels /\ length c = n_channels.

Lemma EEG_sweep_spec :
  exists rmse corr,
    EEG.sweep X_train X_val y_train y_validation timepoints n_channels
    = Some (rmse, corr)
    /\ dims3 timepoints 10 n_channels rmse
    /\ dims3 timepoints 10 n_channels corr
    /\ forall tp a, (tp < timepoints)%nat -> (a < 10)%nat ->
         holds_cell X_train X_val y_train y_validation rmse corr tp a.
Proof.
  unfold EEG.sweep. rewrite alpha_space_length.
  destruct (for_each_seq_total
    (fun tp st => dims3 timepoints 10 n_channels st.1
                  /\ dims3 timepoints 10 n_channels st.2
                  /\ forall tp' a, (tp' < tp)%nat -> (a < 10)%nat ->
                       holds_cell X_train X_val y_train y_validation st.1 st.2 tp' a)
    (fun tp st =>
       y_train_tp ← y_train !! tp;
       y_val_tp ← y_validation !! tp;
       penalty_loop (EEG.cell X_train X_val y_train_tp y_val_tp) tp st)
    timepoints 0
    (zeros3 timepoints 10 n_channels, zeros3 timepoints 10 n_channels))
    as ([rmse corr] & Hrun & HR & HC & Hcells).
  - simpl. split; [apply dims3_zeros3|]. split; [apply dims3_zeros3|].
    intros tp' a Htp'. lia.
  - intros tp [R C] [_ Htp] (HR & HC & Hcells). simpl in *.
    destruct (responses tp Htp) as (yt & yv & Hyt & Hyv & Hgrid).
    rewrite Hyt, Hyv. simpl.
    destruct (penalty_loop_spec (EEG.cell X_train X_val yt yv)
                timepoints n_channels tp Htp Hgrid (R, C) HR HC)
      as ([R' C'] & Hloop & HR' & HC' & Hfilled & Hframe).
    exists (R', C'). split; [exact Hloop|]. simpl in *.
    split; [exact HR'|]. split; [exact HC'|].
    intros tp' a Htp' Ha.
    destruct (decide (tp' = tp)) as [-> | Hne].
    + destruct (Hfilled a (Rpower 10 (-5 + INR a * (15 / 9)))) as (v & c & Hcell & Hv & Hc);
        [exact Ha | now apply alpha_space_lookup|].
      exists yt, yv, (Rpower 10 (-5 + INR a * (15 / 9))), v, c.
      repeat split; auto using alpha_space_lookup.
    + destruct (Hcells tp' a) as (yt' & yv' & alpha & v & c & H1 & H2 & H3 & H4 & H5 & H6);
        [lia | exact Ha|].
      destruct (Hframe tp' a Hne) as [HfR HfC].
      exists yt', yv', alpha, v, c. rewrite HfR, HfC. auto 10.
  - exists rmse, corr. simpl in *. auto.
Qed.

(** The EEG script stores the full tensors: one cell for every
    timepoint, penalty index and channel. *)
Lemma EEG_output_full_tensors :
  (0 < timepoints)%nat ->
  exists output rmse corr,
    EEG.hyperparameter_tuning X_train X_val y_train y_validation
      timepoints n_channels = Some output
    /\ output !! "rmse_score"%string = Some (PyTensor rmse)
    /\ output !! "correlation"%string = Some (PyTensor corr)
    /\ dims3 timepoints 10 n_channels rmse
    /\ dims3 timepoints 10 n_channels corr
    /\ forall tp a, (tp < timepoints)%nat -> (a < 10)%nat ->
         holds_cell X_train X_val y_train y_validation rmse corr tp a.
Proof.
  intros Htp. destruct EEG_sweep_spec as (rmse & corr & Hsweep & HR & HC & Hcells).
  destruct (select_best_Some (map mean_axis1 rmse) (map mean_axis1 corr))
    as (s & Hs).
  - apply map_nonempty. destruct HR as [Hlen _]. destruct rmse; simpl in *; [lia | discriminate].
  - apply map_nonempty. destruct HC as [Hlen _]. destruct corr; simpl in *; [lia | discriminate].
  - eapply reduced_rows; exact HR.
  - eapply reduced_rows; exact HC.
  - unfold EEG.hyperparameter_tuning. rewrite Hsweep. simpl. rewrite Hs. simpl.
    eexists _, rmse, corr. split; [reflexivity|].
    destruct (fill_output_scores (dict_fromkeys output_names) rmse corr s).
    auto 10.
Qed.
End EEGSearch.

Example EEG_output_full_tensors_example :
  exists output rmse corr,
    @EEG.hyperparameter_tuning cramer2_linalg [[0]; [1]; [2]] [[0]; [1]]
      [[[1; 2]; [2; 3]; [3; 5]]; [[2; 1]; [0; 1]; [1; 4]]]
      [[[1; 2]; [2; 3]]; [[2; 2]; [1; 3]]] 2 2 = Some output
    /\ output !! "rmse_score"%string = Some (PyTensor rmse)
    /\ output !! "correlation"%string = Some (PyTensor corr)
    /\ dims3 2 10 2 rmse /\ dims3 2 10 2 corr.
Proof.
  destruct (@EEG_output_full_tensors cramer2_linalg [[0]; [1]; [2]] [[0]; [1]]
              [[[1; 2]; [2; 3]; [3; 5]]; [[2; 1]; [0; 1]; [1; 4]]]
              [[[1; 2]; [2; 3]]; [[2; 2]; [1; 3]]] 2 2)
    as (output & rmse & corr & Hout & HR & HC & HdR & HdC & _); [|lia|].
  - intros [|[|tp]] Htp; [| |lia]; eexists _, _;
      (split; [reflexivity|]); (split; [reflexivity|]);
      intros alpha _; eexists; eexists;
      (split; [cbn; reflexivity | split; reflexivity]).
  - exists output, rmse, corr. auto.
Qed.

Lemma dims3_one_plane (d2 : nat) (T : tensor3) : dims3 1 10 d2 T -> one_plane T.
Proof.
  intros [Hlen Hplanes]. destruct T as [|plane [|? ?]]; try discriminate.
  exists plane. split; [reflexivity|]. now inversion Hplanes as [|? ? [? _] _].
Qed.

Section CNNSearch.
Context `{TorchLinalg}.
Variables (X_train X_val : matrix).
Variables (load_training load_validation : string -> option matrix).
Variable load_explained_var : string -> option vec.
Variable layers : list string.

(** Every layer has its activation and explained-variance files, and
    every penalty of the grid gives scores for the channels of the
    layer. *)
Hypothesis layer_data : forall l, l ∈ layers ->
  exists y_train_tp y_val_tp explained_var,
    load_training l = Some y_train_tp /\ load_validation l = Some y_val_tp
    /\ load_explained_var l = Some explained_var
    /\ forall alpha, alpha ∈ alpha_space ->
         exists v c, CNN.cell X_train X_val y_train_tp y_val_tp alpha = Some (v, c)
                     /\ length v = shape1 y_train_tp
                     /\ length c = shape1 y_train_tp.

Lemma CNN_layer_sweep_spec (y_train_tp y_val_tp : matrix) :
  (forall alpha, alpha ∈ alpha_space ->
     exists v c, CNN.cell X_train X_val y_train_tp y_val_tp alpha = Some (v, c)
                 /\ length v = shape1 y_train_tp /\ length c = shape1 y_train_tp) ->
  exists rmse corr,
    CNN.layer_sweep X_train X_val y_train_tp y_val_tp = Some (rmse, corr)
    /\ one_plane rmse /\ one_plane corr.
Proof.
  intros Hgrid. unfold CNN.layer_sweep. rewrite alpha_space_length.
  destruct (penalty_loop_spec (CNN.cell X_train X_val y_train_tp y_val_tp)
              1 (shape1 y_train_tp) 0 ltac:(lia) Hgrid
              (zeros3 1 10 (shape1 y_train_tp), zeros3 1 10 (shape1 y_train_tp)))
    as ([rmse corr] & Hloop & HR & HC & _); try apply dims3_zeros3.
  exists rmse, corr. split; [exact Hloop|].
  split; eapply dims3_one_plane; eassumption.
Qed.

Lemma CNN_sweep_spec :
  exists st, CNN.sweep layers X_train X_val load_training load_validation = Some st
    /\ swept layers st.
Proof.
  unfold CNN.sweep.
  apply (for_each_total_prefix swept _ layers []).
  - split; [|split; reflexivity]. intros l Hl. inversion Hl.
  - intros pre l st Hl (Hdict & _ & _).
    destruct (layer_data l Hl) as (yt & yv & ev & Hyt & Hyv & _ & Hgrid).
    rewrite Hyt, Hyv. simpl.
    destruct (CNN_layer_sweep_spec yt yv Hgrid) as (R & C & Hsweep & HR & HC).
    rewrite Hsweep. simpl. eexists. split; [reflexivity|].
    split; [|rewrite last_snoc; simpl; rewrite !lookup_insert_eq; auto].
    intros l' Hl'. simpl. destruct (decide (l' = l)) as [-> | Hne].
    + exists R, C. rewrite !lookup_insert_eq. auto.
    + apply elem_of_app in Hl' as [Hl' | Hl'].
      * destruct (Hdict l' Hl') as (R' & C' & H1 & H2 & H3 & H4).
        exists R', C'. rewrite !lookup_insert_ne by congruence. auto.
      * apply list_elem_of_singleton in Hl'. congruence.
Qed.

Lemma length_weighted_reduce (it : matrix) (explained_var : vec) :
  length (CNN.weighted_reduce it explained_var) = length it.
Proof. unfold CNN.weighted_reduce. apply length_map. Qed.

Lemma CNN_reduce_weighted_spec (st : CNN.sweep_state) :
  swept layers st ->
  exists rmse_avg_chan corr_avg_chan,
    CNN.reduce_weighted layers st load_explained_var
    = Some (rmse_avg_chan, corr_avg_chan)
    /\ length rmse_avg_chan = length layers
    /\ length corr_avg_chan = length layers
    /\ Forall (fun row => length row = 10%nat) rmse_avg_chan
    /\ Forall (fun row => length row = 10%nat) corr_avg_chan.
Proof.
  intros (Hdict & _ & _). unfold CNN.reduce_weighted. rewrite alpha_space_length.
  destruct (for_each_total_prefix
    (fun (_ : list (nat * string)) (acc : matrix * matrix) =>
       length acc.1 = length layers /\ length acc.2 = length layers
       /\ Forall (fun row => length row = 10%nat) acc.1
       /\ Forall (fun row => length row = 10%nat) acc.2)
    (fun '(i, layer) acc =>
       explained_var ← load_explained_var layer;
       rmse_l ← CNN.rmse_scores st !! layer;
       corr_l ← CNN.corr_scores st !! layer;
       rmse_it ← rmse_l !! 0%nat;
       corr_it ← corr_l !! 0%nat;
       Some (<[i := CNN.weighted_reduce rmse_it explained_var]> acc.1,
             <[i := CNN.weighted_reduce corr_it explained_var]> acc.2))
    (zip (seq 0 (length layers)) layers) []
    (zeros (length layers) 10, zeros (length layers) 10))
    as ([Ra Ca] & Hrun & Hacc).
  - unfold zeros. cbn [fst snd]. rewrite !length_replicate.
    split; [reflexivity|]. split; [reflexivity|].
    split; apply Forall_replicate, length_replicate.
  - intros _ [i layer] [Ra Ca] Hin (HlR & HlC & HrR & HrC). simpl in *.
    apply elem_of_zip_r in Hin.
    destruct (layer_data layer Hin) as (_ & _ & ev & _ & _ & Hev & _).
    destruct (Hdict layer Hin) as (R & C & HR & HC & (pr & -> & Hpr) & (pc & -> & Hpc)).
    rewrite Hev, HR, HC. simpl. eexists. split; [reflexivity|]. simpl.
    rewrite !length_insert.
    repeat split; auto; apply Forall_insert; auto;
      now rewrite length_weighted_reduce.
  - exists Ra, Ca. simpl in *. tauto.
Qed.

(** What the CNN script returns for one feature: the entries
    ["rmse_score"] and ["correlation"] are the one-plane tensors of the
    last layer, whatever the number of layers. *)
Lemma CNN_output_spec :
  layers <> [] ->
  exists output st l_last rmse corr,
    CNN.hyperparameter_tuning_on layers X_train X_val
      load_training load_validation load_explained_var = Some output
    /\ CNN.sweep layers X_train X_val load_training load_validation = Some st
    /\ last layers = Some l_last
    /\ CNN.rmse_scores st !! l_last = Some rmse
    /\ CNN.corr_scores st !! l_last = Some corr
    /\ output !! "rmse_score"%string = Some (PyTensor rmse)
    /\ output !! "correlation"%string = Some (PyTensor corr)
    /\ length rmse = 1%nat /\ length corr = 1%nat.
Proof.
  intros Hne. destruct CNN_sweep_spec as (st & Hsweep & Hswept).
  destruct (CNN_reduce_weighted_spec st Hswept) as (Ra & Ca & Hred & HlR & HlC & HrR & HrC).
  destruct (select_best_Some Ra Ca) as (s & Hs).
  { destruct layers, Ra; simpl in *; congruence. }
  { destruct layers, Ca; simpl in *; congruence. }
  { eapply Forall_impl; [exact HrR|]. simpl. intros row ->. lia. }
  { eapply Forall_impl; [exact HrC|]. simpl. intros row ->. lia. }
  destruct Hswept as (Hdict & Hrmse & Hcorr).
  destruct (last layers) as [l_last|] eqn:Hlast.
  2:{ apply last_None in Hlast. congruence. }
  destruct (Hdict l_last) as (R & C & HR & HC & (pr & -> & _) & (pc & -> & _)).
  { apply last_Some in Hlast as [pre ->]. apply elem_of_app. right. left. }
  simpl in Hrmse, Hcorr. rewrite HR in Hrmse. rewrite HC in Hcorr.
  unfold CNN.hyperparameter_tuning_on. rewrite Hsweep. simpl.
  rewrite Hred. simpl. rewrite Hs. simpl. rewrite Hrmse, Hcorr. simpl.
  destruct (fill_output_scores (dict_fromkeys output_names) [pr] [pc] s).
  eexists _, st, l_last, [pr], [pc]. split; [reflexivity|]. auto 10.
Qed.
End CNNSearch.

(** C7, on the CNN script: for every input on which the eight layers
    load and every penalty gives scores, the search returns an output
    whose entries ["rmse_score"] and ["correlation"] are the tensors of
    the layer ["layer4.1.relu_1"] alone, one plane each, where one plane
    for each of the eight layers is due. *)
Theorem CNN_output_keeps_last_layer_only `{TorchLinalg} (X_train X_val : matrix)
    (load_training load_validation : string -> option matrix)
    (load_explained_var : string -> option vec) :
  (forall l, l ∈ CNN.layers_names ->
     exists y_train_tp y_val_tp explained_var,
       load_training l = Some y_train_tp /\ load_validation l = Some y_val_tp
       /\ load_explained_var l = Some explained_var
       /\ forall alpha, alpha ∈ alpha_space ->
            exists v c, CNN.cell X_train X_val y_train_tp y_val_tp alpha = Some (v, c)
                        /\ length v = shape1 y_train_tp
                        /\ length c = shape1 y_train_tp) ->
  exists output st rmse corr,
    CNN.hyperparameter_tuning X_train X_val
      load_training load_validation load_explained_var = Some output
    /\ CNN.sweep CNN.layers_names X_train X_val load_training load_validation
       = Some st
    /\ CNN.rmse_scores st !! "layer4.1.relu_1"%string = Some rmse
    /\ CNN.corr_scores st !! "layer4.1.relu_1"%string = Some corr
    /\ output !! "rmse_score"%string = Some (PyTensor rmse)
    /\ output !! "correlation"%string = Some (PyTensor corr)
    /\ length rmse = 1%nat /\ length corr = 1%nat
    /\ length CNN.layers_names = 8%nat.
Proof.
  intros Hdata.
  destruct (CNN_output_spec X_train X_val load_training load_validation
              load_explained_var CNN.layers_names Hdata)
    as (output & st & l_last & rmse & corr & Hout & Hsweep & Hlast & HR & HC & H1 & H2 & H3 & H4);
    [discriminate|].
  injection Hlast as <-.
  exists output, st, rmse, corr. unfold CNN.hyperparameter_tuning. auto 10.
Qed.

Lemma CNN_output_keeps_last_layer_only_witness :
  exists output st rmse corr,
    @CNN.hyperparameter_tuning cramer2_linalg [[0]; [1]; [2]] [[0]; [1]]
      (fun _ => Some [[1; 2]; [2; 3]; [3; 5]]) (fun _ => Some [[1; 2]; [2; 3]])
      (fun _ => Some [1; 1]) = Some output
    /\ @CNN.sweep cramer2_linalg CNN.layers_names [[0]; [1]; [2]] [[0]; [1]]
         (fun _ => Some [[1; 2]; [2; 3]; [3; 5]]) (fun _ => Some [[1; 2]; [2; 3]])
       = Some st
    /\ CNN.rmse_scores st !! "layer4.1.relu_1"%string = Some rmse
    /\ CNN.corr_scores st !! "layer4.1.relu_1"%string = Some corr
    /\ output !! "rmse_score"%string = Some (PyTensor rmse)
    /\ output !! "correlation"%string = Some (PyTensor corr)
    /\ length rmse = 1%nat /\ length corr = 1%nat
    /\ length CNN.layers_names = 8%nat.
Proof.
  apply (@CNN_output_keeps_last_layer_only cramer2_linalg).
  intros l _. eexists _, _, _.
  split; [reflexivity|]. split; [reflexivity|]. split; [reflexivity|].
  intros alpha _. eexists. eexists.
  split; [cbn; reflexivity | split; reflexivity].
Defined.


(** * Further properties of the scripts *)

(** ** More on sums and products *)

Lemma zip_with_map_same {A : Type} (f : R -> R -> R) (g h : A -> R) (l : list A) :
  zip_with f (map g l) (map h l) = map (fun x => f (g x) (h x)) l.
Proof. induction l as [|x l IH]; simpl; [reflexivity | now rewrite IH]. Qed.

Lemma zip_with_rows_same {A : Type} (f : R -> R -> R) (g h : A -> vec) (l : list A) :
  zip_with (zip_with f) (map g l) (map h l) = map (fun x => zip_with f (g x) (h x)) l.
Proof. induction l as [|x l IH]; simpl; [reflexivity | now rewrite IH]. Qed.

Lemma nth_map_seq (f : nat -> R) (n i : nat) :
  (i < n)%nat -> nth i (map f (seq 0 n)) 0 = f i.
Proof.
  intros Hi. apply nth_lookup_Some.
  rewrite map_fmap, list_lookup_fmap, lookup_seq_lt by exact Hi. reflexivity.
Qed.

Lemma Rsum_map_zero {A : Type} (f : A -> R) (l : list A) :
  (forall x, x ∈ l -> f x = 0) -> Rsum (map f l) = 0.
Proof.
  intros Hf. apply Rsum_zeros, Forall_map, Forall_forall.
  intros x Hx. simpl. symmetry. now apply Hf.
Qed.

(** A sum over [range(a, a + n)] with a single non-zero term. *)
Lemma Rsum_single (f : nat -> R) (n : nat) : forall (a i : nat),
  (a <= i < a + n)%nat -> (forall k, k <> i -> f k = 0) ->
  Rsum (map f (seq a n)) = f i.
Proof.
  induction n as [|n IH]; intros a i Hi Hf; [lia|]. simpl.
  destruct (decide (a = i)) as [-> | Hne].
  - rewrite Rsum_map_zero; [lra|]. intros k Hk. apply Hf.
    apply elem_of_seq in Hk. lia.
  - rewrite (Hf a Hne), (IH (S a) i) by (lia || exact Hf). lra.
Qed.

Lemma dot_comm (u v : vec) : dot u v = dot v u.
Proof.
  unfold dot. f_equal. revert v.
  induction u as [|x u IH]; intros [|y v]; simpl; try reflexivity.
  rewrite IH. f_equal. lra.
Qed.

Lemma dot_zeros_r (u v : vec) : Forall (eq 0) v -> dot u v = 0.
Proof. intros Hv. rewrite dot_comm. now apply dot_zeros_l. Qed.

Lemma zeros_all_zero (r c : nat) : all_zero (zeros r c).
Proof.
  unfold all_zero, zeros. apply Forall_replicate, Forall_replicate. reflexivity.
Qed.

(** ** The ridge system behind [fit] *)

(** Stacking a block under [A] adds the block's own products to [A^T A];
    stacking zeros under [C] leaves [A^T C] as it is. *)
Lemma gram_entry_vstack (A P : matrix) (i j : nat) :
  dot (col i (vstack A P)) (col j (vstack A P))
  = dot (col i A) (col j A) + dot (col i P) (col j P).
Proof. unfold vstack. rewrite !col_app. apply dot_app. now rewrite !length_col. Qed.

Lemma moment_vstack (A C P : matrix) (r c : nat) :
  A <> [] -> C <> [] -> length A = length C ->
  matmul (transpose (vstack A P)) (vstack C (zeros r c)) = matmul (transpose A) C.
Proof.
  intros HA HC Hlen. unfold matmul, transpose, vstack.
  rewrite !shape1_app by assumption. rewrite !map_map.
  apply map_ext. intros i. apply map_ext. intros j.
  rewrite !col_app, dot_app by now rewrite !length_col.
  rewrite (dot_zeros_r (col i P)); [lra|]. apply col_all_zero, zeros_all_zero.
Qed.

Lemma col_scaled_diag (d : nat -> R) (s : R) (c i : nat) :
  (i < c)%nat ->
  col i (scale_by (diag_matrix d c) s)
  = map (fun k => (if Nat.eqb k i then d k else 0) * s) (seq 0 c).
Proof.
  intros Hi. unfold col, scale_by, diag_matrix. rewrite !map_map.
  apply map_ext. intros k. rewrite map_map.
  exact (nth_map_seq (fun j => (if Nat.eqb k j then d k else 0) * s) c i Hi).
Qed.

Lemma dot_scaled_diag (d : nat -> R) (s : R) (c i j : nat) :
  (i < c)%nat -> (j < c)%nat ->
  dot (col i (scale_by (diag_matrix d c) s)) (col j (scale_by (diag_matrix d c) s))
  = (if Nat.eqb i j then d i * d i else 0) * (s * s).
Proof.
  intros Hi Hj. rewrite !col_scaled_diag by assumption.
  unfold dot. rewrite zip_with_map_same.
  destruct (Nat.eqb_spec i j) as [<- | Hne].
  - rewrite (Rsum_single _ c 0 i) by
      (lia || (intros k Hk; destruct (Nat.eqb_spec k i); [congruence | lra])).
    rewrite Nat.eqb_refl. ring.
  - rewrite Rsum_map_zero; [ring|]. intros k _.
    destruct (Nat.eqb_spec k i), (Nat.eqb_spec k j); try lra. congruence.
Qed.

Lemma gram_vstack_diag (A : matrix) (d : nat -> R) (s : R) :
  A <> [] ->
  let P := scale_by (diag_matrix d (shape1 A)) s in
  matmul (transpose (vstack A P)) (vstack A P)
  = elementwise Rplus (matmul (transpose A) A)
      (scale_by (diag_matrix (fun i => d i * d i) (shape1 A)) (s * s)).
Proof.
  intros HA P. unfold matmul at 1, transpose at 1. unfold vstack at 1 2.
  rewrite !shape1_app by assumption. rewrite map_map.
  unfold matmul, transpose, elementwise, scale_by, diag_matrix.
  rewrite !map_map, zip_with_rows_same.
  apply map_ext_in. intros i Hi. apply in_seq in Hi.
  rewrite map_map, zip_with_map_same.
  apply map_ext_in. intros j Hj. apply in_seq in Hj.
  fold (vstack A P). rewrite gram_entry_vstack. unfold P.
  rewrite dot_scaled_diag by lia. reflexivity.
Qed.

Lemma eye_is_diag (n : nat) : eye n = diag_matrix (fun _ => 1) n.
Proof. reflexivity. Qed.

Lemma scale_by_diag_ext (d e : nat -> R) (s t : R) (n : nat) :
  (forall i, (i < n)%nat -> d i * s = e i * t) ->
  scale_by (diag_matrix d n) s = scale_by (diag_matrix e n) t.
Proof.
  intros Hde. unfold scale_by, diag_matrix. rewrite !map_map.
  apply map_ext_in. intros i Hi. apply in_seq in Hi. rewrite !map_map.
  apply map_ext. intros j. destruct (Nat.eqb i j); [apply Hde; lia | lra].
Qed.

Lemma zero_first_entry_eye (n : nat) :
  CNN.zero_first_entry (eye (S n))
  = Some (diag_matrix (fun i => if Nat.eqb i 0 then 0 else 1) (S n)).
Proof.
  rewrite eye_succ. unfold diag_matrix. simpl. do 2 f_equal.
  - f_equal. apply map_ext_in. intros j Hj. apply in_seq in Hj.
    destruct j; [lia | reflexivity].
  - apply map_ext_in. intros i Hi. apply in_seq in Hi.
    destruct i; [lia|]. reflexivity.
Qed.

(** The data-augmentation trick of the EEG script: for a penalty
    [alpha >= 0] the system [fit] hands to its solver is
    [(X1^T X1 + alpha I) beta = X1^T y], with [X1] the features with the
    column of ones prepended: the intercept is penalised like the rest. *)
Theorem EEG_fit_ridge_system (self : EEG.OLS_pytorch) (X y : matrix) :
  0 <= EEG.alpha self -> EEG.intercept self = true -> EEG.ridge self = true ->
  X <> [] -> shape0 X = shape0 y ->
  EEG.normal_equations self X y
  = Some (elementwise Rplus (gram X)
            (scale_by (eye (S (shape1 X))) (EEG.alpha self)),
          moment X y).
Proof.
  intros Ha Hi Hr HX Hlen.
  assert (Hy : y <> []) by (destruct X, y; simpl in *; congruence).
  pose proof (concatenate_ones_nonempty X HX) as HX1.
  unfold EEG.normal_equations. rewrite EEG_augmented_intercept by assumption.
  cbn [mbind option_bind]. unfold EEG.penalty_matrix. rewrite eye_is_diag.
  f_equal. f_equal.
  - rewrite (gram_vstack_diag (concatenate_ones X) (fun _ => 1) _ HX1).
    unfold gram. f_equal. rewrite shape1_concatenate_ones by assumption.
    apply scale_by_diag_ext. intros i _. rewrite sqrt_sqrt by exact Ha. ring.
  - apply moment_vstack; [assumption | assumption|].
    unfold concatenate_ones. now rewrite length_map.
Qed.

Lemma EEG_fit_ridge_system_witness :
  EEG.normal_equations (EEG.init 4) [[1]; [2]] [[1]; [2]]
  = Some (elementwise Rplus (gram [[1]; [2]]) (scale_by (eye 2) 4),
          moment [[1]; [2]] [[1]; [2]]).
Proof.
  apply (EEG_fit_ridge_system (EEG.init 4) [[1]; [2]] [[1]; [2]]);
    [simpl; lra | reflexivity | reflexivity | discriminate | reflexivity].
Defined.

(** The same for the CNN script, where the first diagonal entry of the
    block is zeroed: the system is
    [(X1^T X1 + alpha diag(0, 1, .., 1)) beta = X1^T y], the intercept is
    left out of the penalty for every [alpha >= 0]. *)
Theorem CNN_fit_ridge_system (self : CNN.OLS_pytorch) (X y : matrix) :
  0 <= CNN.alpha self -> CNN.intercept self = true ->
  X <> [] -> shape0 X = shape0 y ->
  CNN.normal_equations self X y
  = Some (elementwise Rplus (gram X)
            (scale_by (diag_matrix (fun i => if Nat.eqb i 0 then 0 else 1)
                         (S (shape1 X))) (CNN.alpha self)),
          moment X y).
Proof.
  intros Ha Hi HX Hlen.
  assert (Hy : y <> []) by (destruct X, y; simpl in *; congruence).
  pose proof (concatenate_ones_nonempty X HX) as HX1.
  unfold CNN.normal_equations, CNN.augmented, CNN.penalty_matrix. rewrite Hi.
  rewrite shape1_concatenate_ones by assumption. rewrite zero_first_entry_eye.
  cbn [mbind option_bind]. f_equal. f_equal.
  - rewrite <- (shape1_concatenate_ones X HX).
    rewrite (gram_vstack_diag (concatenate_ones X) _ _ HX1).
    unfold gram. f_equal. apply scale_by_diag_ext. intros i _.
    rewrite sqrt_sqrt by exact Ha. destruct (Nat.eqb i 0); ring.
  - apply moment_vstack; [assumption | assumption|].
    unfold concatenate_ones. now rewrite length_map.
Qed.

Lemma CNN_fit_ridge_system_witness :
  CNN.normal_equations (CNN.init 4) [[1]; [2]] [[1]; [2]]
  = Some (elementwise Rplus (gram [[1]; [2]])
            (scale_by (diag_matrix (fun i => if Nat.eqb i 0 then 0 else 1) 2) 4),
          moment [[1]; [2]] [[1]; [2]]).
Proof.
  apply (CNN_fit_ridge_system (CNN.init 4) [[1]; [2]] [[1]; [2]]);
    [simpl; lra | reflexivity | discriminate | reflexivity].
Defined.

(** ** The matrix handed to the solver is symmetric *)

Lemma gram_symmetric (M : matrix) :
  transpose (matmul (transpose M) M) = matmul (transpose M) M.
Proof.
  set (c := shape1 M).
  set (G := map (fun i => map (fun j => dot (col i M) (col j M)) (seq 0 c)) (seq 0 c)).
  assert (HG : matmul (transpose M) M = G).
  { unfold matmul, transpose. fold c. now rewrite map_map. }
  rewrite HG. unfold transpose.
  assert (Hc : shape1 G = c).
  { unfold G. destruct c; [reflexivity|]. simpl. now rewrite length_map, length_seq. }
  rewrite Hc. unfold G at 2. apply map_ext_in. intros j Hj. apply in_seq in Hj.
  unfold col at 1. unfold G. rewrite map_map.
  apply map_ext_in. intros i Hi. apply in_seq in Hi.
  rewrite (nth_map_seq (fun j' => dot (col i M) (col j' M)) c j) by lia.
  apply dot_comm.
Qed.

(** In both scripts the matrix [XtX] that [fit] factorises or solves
    with is symmetric, whatever the data and the penalty (the comment in
    the source calls it Hermitian). *)
Theorem fit_XtX_symmetric (X y XtX Xty : matrix) :
  (forall self : EEG.OLS_pytorch,
     EEG.normal_equations self X y = Some (XtX, Xty) -> transpose XtX = XtX)
  /\ (forall self : CNN.OLS_pytorch,
       CNN.normal_equations self X y = Some (XtX, Xty) -> transpose XtX = XtX).
Proof.
  split; intros self Hne.
  - unfold EEG.normal_equations in Hne.
    destruct (EEG.augmented self X y) as [[Xa ya]|]; [|discriminate].
    cbn in Hne. injection Hne as <- _. apply gram_symmetric.
  - unfold CNN.normal_equations in Hne.
    destruct (CNN.augmented self X y) as [[Xa ya]|]; [|discriminate].
    cbn in Hne. injection Hne as <- _. apply gram_symmetric.
Qed.

Lemma fit_XtX_symmetric_witness :
  EEG.normal_equations (EEG.init 1) [[1]; [2]] [[1]; [2]]
  = Some ([[3; 3]; [3; 6]], [[3]; [5]])
  /\ transpose [[3; 3]; [3; 6]] = [[3; 3]; [3; 6]].
Proof.
  assert (Hne : EEG.normal_equations (EEG.init 1) [[1]; [2]] [[1]; [2]]
                = Some ([[3; 3]; [3; 6]], [[3]; [5]])).
  { cbn. rewrite sqrt_1. repeat f_equal; lra. }
  split; [exact Hne|].
  exact (proj1 (fit_XtX_symmetric [[1]; [2]] [[1]; [2]] [[3; 3]; [3; 6]] [[3]; [5]])
           (EEG.init 1) Hne).
Defined.

(** ** [score], [predict] and [fit] at their edges *)

Lemma sum_axis0_all_zero (M : matrix) :
  all_zero M -> sum_axis0 M = replicate (shape1 M) 0.
Proof.
  intros HM. unfold sum_axis0.
  transitivity (map (fun _ : nat => 0) (seq 0 (shape1 M))).
  - apply map_ext. intros j. apply Rsum_zeros. now apply col_all_zero.
  - generalize 0%nat at 1. induction (shape1 M) as [|n IH]; intros a; simpl;
      [reflexivity | now rewrite IH].
Qed.

Lemma residual_squares_zero (y : matrix) :
  all_zero (map (map (fun d => d * d)) (elementwise Rminus y y)).
Proof.
  unfold all_zero, elementwise. induction y as [|r y IH]; simpl; constructor;
    [|exact IH].
  clear IH. induction r as [|x r IH]; simpl; constructor; [ring | exact IH].
Qed.

Lemma shape1_residual_squares (y : matrix) :
  shape1 (map (map (fun d => d * d)) (elementwise Rminus y y)) = shape1 y.
Proof.
  rewrite shape1_map_map. destruct y as [|r y]; [reflexivity|]. simpl.
  rewrite length_zip_with. lia.
Qed.

(** For an entry, coefficients and a target whose shapes fit together
    (the same number of samples, one coefficient row more than features,
    one channel per coefficient column) and at least one sample and one
    channel, [score] returns one value per channel, never a negative
    one, and a pooled value that is not negative either; when the fitted
    values [yhat] equal the target, it returns 0 in every channel and 0
    pooled. *)
Theorem rmse_nonneg_zero_on_exact_fit (B entry y : matrix) (n f c : nat) :
  has_shape n f entry -> has_shape (S f) c B -> has_shape n c y ->
  (0 < n)%nat -> (0 < c)%nat ->
  (exists v, score_with (Tensor B) entry y true = Some (PerChannel v)
             /\ length v = c /\ Forall (fun r => 0 <= r) v)
  /\ (exists r, score_with (Tensor B) entry y false = Some (Pooled r) /\ 0 <= r)
  /\ (matmul (concatenate_ones entry) B = y ->
      score_with (Tensor B) entry y true = Some (PerChannel (replicate c 0))
      /\ score_with (Tensor B) entry y false = Some (Pooled 0)).
Proof.
  intros [Hne Hre] [HnB HrB] [Hny Hry] Hn Hc.
  assert (Hy1 : shape1 y = c).
  { destruct y as [|r y]; [simpl in Hny; lia|]. simpl. now inversion Hry. }
  split; [|split].
  - eexists. split; [reflexivity|]. split.
    + rewrite !length_map. unfold sum_axis0. rewrite length_map, length_seq.
      rewrite shape1_map_map.
      destruct y as [|ry y]; [simpl in Hny; lia|].
      destruct entry as [|re entry]; [simpl in Hne; lia|].
      destruct B as [|rb B]; [discriminate|].
      inversion Hry; subst. inversion HrB; subst. simpl.
      rewrite length_zip_with, !length_map, length_seq. lia.
    + apply Forall_map, Forall_forall. intros r _. simpl. apply sqrt_pos.
  - eexists. split; [reflexivity|]. apply sqrt_pos.
  - unfold score_with. intros Hy. rewrite Hy. cbn zeta. split.
    + rewrite sum_axis0_all_zero by apply residual_squares_zero.
      rewrite shape1_residual_squares, Hy1. do 2 f_equal.
      generalize (INR c). intros d. clear.
      induction c as [|k IH]; simpl; [reflexivity|]. rewrite IH.
      f_equal. unfold Rdiv. rewrite Rmult_0_l. apply sqrt_0.
    + do 2 f_equal. unfold sum_all.
      rewrite Rsum_map_zero; [unfold Rdiv; rewrite Rmult_0_l; apply sqrt_0|].
      intros r Hr. apply Rsum_zeros.
      pose proof (residual_squares_zero y) as Hz. unfold all_zero in Hz.
      rewrite Forall_forall in Hz. now apply Hz.
Qed.

Lemma rmse_nonneg_zero_on_exact_fit_witness :
  matmul (concatenate_ones [[1]; [2]]) [[0; 1]; [2; 0]] = [[2; 1]; [4; 1]]
  /\ score_with (Tensor [[0; 1]; [2; 0]]) [[1]; [2]] [[2; 1]; [4; 1]] true
     = Some (PerChannel (replicate 2 0))
  /\ score_with (Tensor [[0; 1]; [2; 0]]) [[1]; [2]] [[2; 1]; [4; 1]] false
     = Some (Pooled 0).
Proof.
  assert (Hfit : matmul (concatenate_ones [[1]; [2]]) [[0; 1]; [2; 0]]
                 = [[2; 1]; [4; 1]]) by (cbn; arrays_eq).
  split; [exact Hfit|].
  apply (rmse_nonneg_zero_on_exact_fit [[0; 1]; [2; 0]] [[1]; [2]] [[2; 1]; [4; 1]]
           2 1 2); try lia; try exact Hfit;
    (split; [reflexivity | repeat constructor]).
Defined.

(** The first row of the coefficients is the intercept.  For an entry of
    at least two samples and coefficients with one row more than the
    entry has features and at least two columns (so that [np.squeeze]
    leaves the product as it is), [predict] returns an array of shape
    samples x channels whose entry for sample [i] and channel [j] is
    entry [j] of the first coefficient row plus the product of the
    sample's features with column [j] of the remaining rows. *)
Theorem predict_adds_intercept_row (b0 : vec) (B' entry : matrix)
    (n f c i j : nat) (row : vec) :
  has_shape n f entry -> has_shape f c B' -> length b0 = c ->
  (2 <= n)%nat -> (2 <= c)%nat ->
  entry !! i = Some row -> (j < c)%nat ->
  exists prediction prow,
    predict_with (Tensor (b0 :: B')) entry = Some prediction
    /\ has_shape n c prediction
    /\ prediction !! i = Some prow
    /\ prow !! j = Some (nth j b0 0 + dot row (col j B')).
Proof.
  intros [Hne Hre] [HnB HrB] Hb0 Hn Hc Hrow Hj. unfold predict_with.
  eexists _, _. split; [reflexivity|]. split; [|split].
  - split.
    + unfold matmul, concatenate_ones. now rewrite !length_map.
    + unfold matmul. apply Forall_map, Forall_forall. intros r _. simpl.
      rewrite length_map, length_seq. exact Hb0.
  - unfold matmul, concatenate_ones.
    rewrite !map_fmap, !list_lookup_fmap, Hrow. reflexivity.
  - rewrite map_fmap, list_lookup_fmap. cbn [shape1]. rewrite Hb0.
    rewrite lookup_seq_lt by exact Hj.
    cbn. f_equal. unfold dot, col, Rsum. lra.
Qed.

Lemma predict_adds_intercept_row_witness :
  exists prediction prow,
    predict_with (Tensor [[5; 7]; [1; 2]]) [[0]; [3]] = Some prediction
    /\ has_shape 2 2 prediction
    /\ prediction !! 1%nat = Some prow
    /\ prow !! 0%nat = Some (nth 0 [5; 7] 0 + dot [3] (col 0 [[1; 2]])).
Proof.
  apply (predict_adds_intercept_row [5; 7] [[1; 2]] [[0]; [3]] 2 1 2 1 0 [3]);
    try lia; try reflexivity; (split; [reflexivity | repeat constructor]).
Defined.

(** With [ridge=False] the EEG [fit] raises for every input and every
    solver name ([columns] is never bound), and the solver the search
    falls back to raises in the same way. *)
Theorem EEG_fit_without_ridge_raises `{TorchLinalg} (self : EEG.OLS_pytorch)
    (X y : matrix) (solver : string) :
  EEG.ridge self = false ->
  EEG.fit self X y solver = None /\ EEG.fit_with_fallback self X y = None.
Proof.
  intros Hr.
  assert (Hfit : forall s, EEG.fit self X y s = None).
  { intros s. unfold EEG.fit, EEG.normal_equations, EEG.augmented.
    now rewrite Hr. }
  split; [apply Hfit|]. unfold EEG.fit_with_fallback. now rewrite !Hfit.
Qed.

Lemma EEG_fit_without_ridge_raises_witness :
  @EEG.fit cramer2_linalg
    {| EEG.coefficients := EmptyList; EEG.use_gpu := false;
       EEG.intercept := true; EEG.ridge := false; EEG.alpha := 1 |}
    [[1]; [2]] [[1]; [2]] "solve" = None
  /\ @EEG.fit_with_fallback cramer2_linalg
       {| EEG.coefficients := EmptyList; EEG.use_gpu := false;
          EEG.intercept := true; EEG.ridge := false; EEG.alpha := 1 |}
       [[1]; [2]] [[1]; [2]] = None.
Proof.
  exact (@EEG_fit_without_ridge_raises cramer2_linalg
           {| EEG.coefficients := EmptyList; EEG.use_gpu := false;
              EEG.intercept := true; EEG.ridge := false; EEG.alpha := 1 |}
           [[1]; [2]] [[1]; [2]] "solve" eq_refl).
Defined.

(** ** Correlation *)

Lemma zip_with_Rmult_comm (u v : vec) : zip_with Rmult u v = zip_with Rmult v u.
Proof.
  revert v. induction u as [|a u IH]; intros [|b v]; simpl; try reflexivity.
  rewrite IH. f_equal. lra.
Qed.

Lemma elementwise_Rmult_comm (A B : matrix) :
  elementwise Rmult A B = elementwise Rmult B A.
Proof.
  unfold elementwise. revert B.
  induction A as [|r A IH]; intros [|q B]; simpl; try reflexivity.
  now rewrite IH, zip_with_Rmult_comm.
Qed.

(** The correlation does not depend on the order of its two arguments
    when both have the same number of samples. *)
Theorem correlation_symmetric (x y : matrix) :
  shape0 x = shape0 y ->
  vectorized_correlation x y = vectorized_correlation y x.
Proof.
  intros Hn. unfold vectorized_correlation.
  now rewrite Hn, (elementwise_Rmult_comm (center x)), (zip_with_Rmult_comm (map _ (std_axis0 x))).
Qed.

Lemma correlation_symmetric_witness :
  vectorized_correlation [[0]; [2]] [[1]; [5]]
  = vectorized_correlation [[1]; [5]] [[0]; [2]].
Proof. apply (correlation_symmetric [[0]; [2]] [[1]; [5]]). reflexivity. Defined.

(** ** The weighted reduction of the CNN script *)

Lemma Rsum_replicate (n : nat) (c : R) : Rsum (replicate n c) = INR n * c.
Proof.
  induction n as [|n IH]; [simpl; lra|].
  change (Rsum (replicate (S n) c)) with (c + Rsum (replicate n c)).
  rewrite IH, S_INR. lra.
Qed.

Lemma Rsum_scaled (row : vec) (c : R) :
  Rsum (zip_with Rmult row (replicate (length row) c)) = c * Rsum row.
Proof.
  induction row as [|x row IH]; simpl; [lra|]. rewrite IH. lra.
Qed.

(** With equal explained variance in every channel the weighted
    reduction is the plain mean over channels, the reduction of the EEG
    script. *)
Theorem weighted_reduce_uniform (it : matrix) (n : nat) (c : R) :
  c <> 0 -> (0 < n)%nat -> Forall (fun row => length row = n) it ->
  CNN.weighted_reduce it (replicate n c) = mean_axis1 it.
Proof.
  intros Hc Hn Hrows. unfold CNN.weighted_reduce, mean_axis1.
  rewrite Rsum_replicate. apply map_ext_in. intros row Hrow.
  rewrite Forall_forall in Hrows.
  assert (Hlen : length row = n) by (apply Hrows, list_elem_of_In, Hrow).
  unfold mean. rewrite <- Hlen at 1. rewrite Rsum_scaled, Hlen.
  assert (INR n <> 0) by (apply not_0_INR; lia). field. auto.
Qed.

Lemma weighted_reduce_uniform_witness :
  CNN.weighted_reduce [[1; 3]; [2; 6]] (replicate 2 5) = mean_axis1 [[1; 3]; [2; 6]].
Proof.
  apply (weighted_reduce_uniform [[1; 3]; [2; 6]] 2 5);
    [lra | lia | repeat constructor].
Defined.

(** ** What the selection and the output dictionary hold *)

Lemma best_per_row_in_grid (idx : list nat) (best : matrix) :
  best_per_row idx = Some best ->
  length best = length idx
  /\ Forall (fun row => exists a, row = [a] /\ a ∈ alpha_space) best.
Proof.
  unfold best_per_row. intros Hbest. split.
  - symmetry. eapply length_mapM. exact Hbest.
  - apply mapM_Some_1 in Hbest. induction Hbest as [|i row idx best Hi _ IH];
      constructor; [|exact IH].
    destruct (alpha_space !! i) as [a|] eqn:Ha; [|discriminate].
    injection Hi as <-. exists a. split; [reflexivity|].
    eapply list_elem_of_lookup_2. exact Ha.
Qed.

(** Whenever the selection ends, it has one best penalty per timepoint
    (or layer) for each metric, stored as a one-element row, and every
    penalty it returns is a value of the grid. *)
Theorem select_best_within_grid (rmse_avg_chan corr_avg_chan : matrix)
    (s : selection) :
  select_best rmse_avg_chan corr_avg_chan = Some s ->
  length (best_alpha_rmse s) = length rmse_avg_chan
  /\ length (best_alpha_corr s) = length corr_avg_chan
  /\ Forall (fun row => exists a, row = [a] /\ a ∈ alpha_space) (best_alpha_rmse s)
  /\ Forall (fun row => exists a, row = [a] /\ a ∈ alpha_space) (best_alpha_corr s)
  /\ best_alpha_a_rmse s ∈ alpha_space
  /\ best_alpha_a_corr s ∈ alpha_space.
Proof.
  unfold select_best. intros Hs.
  destruct (mapM argmin rmse_avg_chan) as [ridx|] eqn:Hridx; [|discriminate].
  cbn [mbind option_bind] in Hs.
  destruct (mapM argmax corr_avg_chan) as [cidx|] eqn:Hcidx; [|discriminate].
  cbn [mbind option_bind] in Hs.
  destruct (best_per_row ridx) as [rbest|] eqn:Hrbest; [|discriminate].
  cbn [mbind option_bind] in Hs.
  destruct (best_per_row cidx) as [cbest|] eqn:Hcbest; [|discriminate].
  cbn [mbind option_bind] in Hs.
  destruct (argmin (mean_axis0 rmse_avg_chan)) as [kr|]; [|discriminate].
  cbn [mbind option_bind] in Hs.
  destruct (argmax (mean_axis0 corr_avg_chan)) as [kc|]; [|discriminate].
  cbn [mbind option_bind] in Hs.
  destruct (alpha_space !! kr) as [ar|] eqn:Har; [|discriminate].
  cbn [mbind option_bind] in Hs.
  destruct (alpha_space !! kc) as [ac|] eqn:Hac; [|discriminate].
  cbn [mbind option_bind] in Hs. injection Hs as <-. cbn.
  destruct (best_per_row_in_grid _ _ Hrbest) as [Hlr Hgr].
  destruct (best_per_row_in_grid _ _ Hcbest) as [Hlc Hgc].
  apply length_mapM in Hridx, Hcidx.
  repeat split; try congruence; try assumption;
    eapply list_elem_of_lookup_2; eassumption.
Qed.

Lemma select_best_within_grid_witness :
  exists s, select_best [[2; 1; 1]] [[1; 3; 3]] = Some s
    /\ length (best_alpha_rmse s) = length [[2; 1; 1]].
Proof.
  destruct (select_best_Some [[2; 1; 1]] [[1; 3; 3]]) as [s Hs];
    [discriminate | discriminate | | |];
    try (constructor; [simpl; lia | constructor]).
  exists s. split; [exact Hs|].
  exact (proj1 (select_best_within_grid [[2; 1; 1]] [[1; 3; 3]] s Hs)).
Defined.

(** The six assignments replace every [None] that [dict.fromkeys] put
    in: the output has exactly the six keys of [output_names] and no
    value is left [None]. *)
Lemma fill_output_complete (rmse corr : tensor3) (s : selection) (k : string) :
  (k ∈ output_names ->
     exists v, fill_output (dict_fromkeys output_names) rmse corr s !! k = Some v
               /\ v <> PyNone)
  /\ (k ∉ output_names ->
      fill_output (dict_fromkeys output_names) rmse corr s !! k = None).
Proof.
  unfold fill_output. split.
  - intros Hk. unfold output_names in Hk.
    repeat (apply elem_of_cons in Hk as [-> | Hk]);
      [..|inversion Hk];
      eexists; (split; [rewrite ?lookup_insert_ne by discriminate;
                        apply lookup_insert_eq | discriminate]).
  - intros Hk. unfold output_names in Hk.
    rewrite !lookup_insert_ne.
    + unfold dict_fromkeys. apply not_elem_of_list_to_map_1.
      unfold output_names. cbn. exact Hk.
    + intros <-. apply Hk. set_solver.
    + intros <-. apply Hk. set_solver.
    + intros <-. apply Hk. set_solver.
    + intros <-. apply Hk. set_solver.
    + intros <-. apply Hk. set_solver.
    + intros <-. apply Hk. set_solver.
Qed.

(** Whenever the EEG search returns for a feature, its dictionary has a
    value other than [None] under each of the six output names and no
    other key. *)
Theorem EEG_output_has_six_entries `{TorchLinalg} (X_train X_val : matrix)
    (y_train y_validation : list matrix) (timepoints n_channels : nat)
    (output : gmap string pyval) (k : string) :
  EEG.hyperparameter_tuning X_train X_val y_train y_validation
    timepoints n_channels = Some output ->
  (k ∈ output_names -> exists v, output !! k = Some v /\ v <> PyNone)
  /\ (k ∉ output_names -> output !! k = None).
Proof.
  unfold EEG.hyperparameter_tuning. intros Hout.
  destruct (EEG.sweep _ _ _ _ _ _) as [[rmse corr]|]; [|discriminate].
  cbn [mbind option_bind] in Hout.
  destruct (select_best _ _) as [s|]; [|discriminate].
  cbn [mbind option_bind] in Hout. injection Hout as <-.
  apply fill_output_complete.
Qed.

Lemma EEG_output_has_six_entries_witness :
  exists output,
    @EEG.hyperparameter_tuning cramer2_linalg [[0]; [1]; [2]] [[0]; [1]]
      [[[1; 2]; [2; 3]; [3; 5]]; [[2; 1]; [0; 1]; [1; 4]]]
      [[[1; 2]; [2; 3]]; [[2; 2]; [1; 3]]] 2 2 = Some output
    /\ exists v, output !! "rmse_score"%string = Some v /\ v <> PyNone.
Proof.
  destruct EEG_output_full_tensors_example as (output & _ & _ & Hout & _).
  exists output. split; [exact Hout|].
  refine (proj1 (@EEG_output_has_six_entries cramer2_linalg
                   [[0]; [1]; [2]] [[0]; [1]]
                   [[[1; 2]; [2; 3]; [3; 5]]; [[2; 1]; [0; 1]; [1; 4]]]
                   [[[1; 2]; [2; 3]]; [[2; 2]; [1; 3]]] 2 2 output
                   "rmse_score" Hout) _).
  apply list_elem_of_here.
Defined.

(** ** Missing inputs stop the search *)

Lemma for_each_fails {A St : Type} (body : A -> St -> option St)
    (xs : list A) (x : A) :
  x ∈ xs -> (forall s, body x s = None) -> forall s, for_each body xs s = None.
Proof.
  intros Hx Hbody. induction xs as [|y xs IH]; intros s; [inversion Hx|].
  simpl. apply elem_of_cons in Hx as [<- | Hx].
  - now rewrite Hbody.
  - destruct (body y s); simpl; [now apply IH | reflexivity].
Qed.

(** A timepoint below [timepoints] that one of the two response arrays
    does not have stops the EEG search with an error, whatever the other
    timepoints give. *)
Theorem EEG_search_needs_every_timepoint `{TorchLinalg} (X_train X_val : matrix)
    (y_train y_validation : list matrix) (timepoints n_channels : nat) :
  (length y_train < timepoints)%nat \/ (length y_validation < timepoints)%nat ->
  EEG.hyperparameter_tuning X_train X_val y_train y_validation
    timepoints n_channels = None.
Proof.
  intros Hshort. unfold EEG.hyperparameter_tuning, EEG.sweep.
  set (tp := Nat.min (length y_train) (length y_validation)).
  rewrite (for_each_fails _ (seq 0 timepoints) tp); [reflexivity | |].
  - apply elem_of_seq. unfold tp. lia.
  - intros st.
    destruct (le_lt_dec (length y_train) (length y_validation)) as [Hle | Hlt].
    + rewrite (proj2 (lookup_ge_None y_train tp)) by (unfold tp; lia).
      reflexivity.
    + destruct (y_train !! tp); [|reflexivity]. cbn [mbind option_bind].
      rewrite (proj2 (lookup_ge_None y_validation tp)) by (unfold tp; lia).
      reflexivity.
Qed.

Lemma EEG_search_needs_every_timepoint_witness :
  @EEG.hyperparameter_tuning cramer2_linalg [[0]; [1]; [2]] [[0]; [1]]
    [[[1; 2]; [2; 3]; [3; 5]]] [[[1; 2]; [2; 3]]] 2 2 = None.
Proof.
  apply (@EEG_search_needs_every_timepoint cramer2_linalg). left. simpl. lia.
Defined.

(** A missing activation or explained-variance file of any of the eight
    layers stops the CNN search with an error: nothing is returned for
    the feature, whatever the other layers give. *)
Theorem CNN_search_needs_every_file `{TorchLinalg} (X_train X_val : matrix)
    (load_training load_validation : string -> option matrix)
    (load_explained_var : string -> option vec) (l : string) :
  l ∈ CNN.layers_names ->
  load_training l = None \/ load_validation l = None
    \/ load_explained_var l = None ->
  CNN.hyperparameter_tuning X_train X_val load_training load_validation
    load_explained_var = None.
Proof.
  intros Hl Hmiss. unfold CNN.hyperparameter_tuning, CNN.hyperparameter_tuning_on.
  destruct Hmiss as [Ht | [Hv | He]].
  - unfold CNN.sweep. rewrite (for_each_fails _ CNN.layers_names l Hl);
      [reflexivity|]. intros st. now rewrite Ht.
  - unfold CNN.sweep. rewrite (for_each_fails _ CNN.layers_names l Hl);
      [reflexivity|]. intros st. rewrite Hv.
    destruct (load_training l); reflexivity.
  - destruct (CNN.sweep _ _ _ _ _) as [st|]; [|reflexivity].
    cbn [mbind option_bind]. unfold CNN.reduce_weighted.
    apply list_elem_of_lookup in Hl as [i Hi].
    rewrite (for_each_fails _ _ (i, l)); [reflexivity | |].
    + apply list_elem_of_lookup. exists i. apply lookup_zip_with_Some.
      exists i, l. split; [reflexivity|]. split; [|exact Hi].
      apply lookup_seq. split; [reflexivity|]. eapply lookup_lt_Some. exact Hi.
    + intros acc. now rewrite He.
Qed.

Lemma CNN_search_needs_every_file_witness :
  @CNN.hyperparameter_tuning cramer2_linalg [[0]; [1]; [2]] [[0]; [1]]
    (fun _ => Some [[1; 2]; [2; 3]; [3; 5]]) (fun _ => Some [[1; 2]; [2; 3]])
    (fun l => if String.eqb l "layer3.0.relu_1" then None else Some [1; 1])
  = None.
Proof.
  apply (@CNN_search_needs_every_file cramer2_linalg _ _ _ _ _ "layer3.0.relu_1").
  - unfold CNN.layers_names. set_solver.
  - right. right. reflexivity.
Defined.


(** * Properties of the statistics scripts *)

(** ** The accuracy interval *)

Lemma sorted_lookup_le (l : vec) : StronglySorted Rle l ->
  forall i j x y, (i <= j)%nat -> l !! i = Some x -> l !! j = Some y -> x <= y.
Proof.
  induction 1 as [|a l Hs IH Hall]; intros i j x y Hij Hi Hj.
  - rewrite lookup_nil in Hi. discriminate.
  - destruct i as [|i], j as [|j]; simpl in Hi, Hj.
    + injection Hi as <-. injection Hj as <-. lra.
    + injection Hi as <-. rewrite Forall_forall in Hall.
      apply Hall. apply (list_elem_of_lookup_2 _ _ _ Hj).
    + lia.
    + apply (IH i j); [lia|assumption..].
Qed.

Lemma sort_asc_lookup_elem (l : vec) (i : nat) (x : R) :
  sort_asc l !! i = Some x -> x ∈ l.
Proof.
  intros Hx. rewrite <- (sort_asc_perm l).
  apply (list_elem_of_lookup_2 _ _ _ Hx).
Qed.

(** With at least 40 resamples the interval of one timepoint exists,
    its lower bound does not exceed its upper bound, and both bounds are
    bootstrap means of the timepoint. *)
Lemma ci_of_row_ordered (tp_data : vec) (n_perm : nat) :
  length tp_data = n_perm -> (40 <= n_perm)%nat ->
  exists lower_CI upper_CI,
    Bootstrap.ci_of_row tp_data n_perm = Some [lower_CI; upper_CI]
    /\ lower_CI <= upper_CI
    /\ lower_CI ∈ tp_data /\ upper_CI ∈ tp_data.
Proof.
  intros Hlen Hn.
  assert (Hup : (Bootstrap.upper_index n_perm < n_perm)%nat)
    by (apply upper_index_valid; exact Hn).
  pose proof (lower_index_le_upper n_perm) as Hle.
  destruct (lookup_lt_is_Some_2 (sort_asc tp_data) (Bootstrap.lower_index n_perm))
    as [lo Hlo]; [rewrite length_sort_asc; lia|].
  destruct (lookup_lt_is_Some_2 (sort_asc tp_data) (Bootstrap.upper_index n_perm))
    as [up Hu]; [rewrite length_sort_asc; lia|].
  exists lo, up. repeat split.
  - unfold Bootstrap.ci_of_row. cbn zeta. rewrite Hlo, Hu. reflexivity.
  - exact (sorted_lookup_le _ (sort_asc_sorted tp_data) _ _ _ _ Hle Hlo Hu).
  - exact (sort_asc_lookup_elem _ _ _ Hlo).
  - exact (sort_asc_lookup_elem _ _ _ Hu).
Qed.

(** ** The bootstrap means of STEP 2.3 *)

Lemma Rsum_bounds (lo hi : R) (v : vec) :
  Forall (fun x => lo <= x <= hi) v ->
  INR (length v) * lo <= Rsum v <= INR (length v) * hi.
Proof.
  induction 1 as [|x v Hx _ IH].
  - simpl. lra.
  - change (Rsum (x :: v)) with (x + Rsum v).
    change (length (x :: v)) with (S (length v)). rewrite S_INR. lra.
Qed.

Lemma mean_bounds (lo hi : R) (v : vec) :
  v <> [] -> Forall (fun x => lo <= x <= hi) v -> lo <= mean v <= hi.
Proof.
  intros Hne Hall. pose proof (Rsum_bounds lo hi v Hall) as [Hl Hh].
  assert (Hpos : 0 < INR (length v)).
  { apply lt_0_INR. destruct v; [congruence|simpl; lia]. }
  unfold mean. split.
  - apply Rmult_le_reg_r with (INR (length v)); [exact Hpos|].
    unfold Rdiv. rewrite Rmult_assoc, Rinv_l by lra. lra.
  - apply Rmult_le_reg_r with (INR (length v)); [exact Hpos|].
    unfold Rdiv. rewrite Rmult_assoc, Rinv_l by lra. lra.
Qed.

Lemma set_entry_spec (M : matrix) (n m r c : nat) (x : R) :
  has_shape n m M -> (r < n)%nat -> (c < m)%nat ->
  exists M', set_entry M r c x = Some M' /\ has_shape n m M'
    /\ entry_at M' r c = Some x
    /\ forall r' c', (r' <> r \/ c' <> c) -> entry_at M' r' c' = entry_at M r' c'.
Proof.
  intros [Hlen Hrows] Hr Hc.
  destruct (lookup_lt_is_Some_2 M r) as [old Hold]; [lia|].
  assert (Hlo : length old = m).
  { rewrite Forall_forall in Hrows. apply Hrows.
    apply (list_elem_of_lookup_2 _ _ _ Hold). }
  destruct (lookup_lt_is_Some_2 old c) as [y Hy]; [lia|].
  exists (<[r := <[c := x]> old]> M).
  assert (Hset : set_entry M r c x = Some (<[r := <[c := x]> old]> M)).
  { unfold set_entry. rewrite Hold. cbn [mbind option_bind].
    rewrite Hy. reflexivity. }
  split; [exact Hset|]. split; [exact (set_entry_shape _ _ _ _ _ _ _ (conj Hlen Hrows) Hset)|].
  split.
  - unfold entry_at. rewrite list_lookup_insert_eq by lia.
    cbn [mbind option_bind]. apply list_lookup_insert_eq. lia.
  - intros r' c' Hne. unfold entry_at.
    destruct (decide (r' = r)) as [->|Hr'].
    + rewrite list_lookup_insert_eq by lia. rewrite Hold.
      cbn [mbind option_bind]. apply list_lookup_insert_ne.
      destruct Hne; congruence.
    + rewrite list_lookup_insert_ne by congruence. reflexivity.
Qed.

Lemma choice_Some `{NumpyRandom} (a : vec) (size : nat) (g : rng) :
  a <> [] ->
  exists sample, choice a size g = Some (sample, (randint (length a) size g).2)
    /\ length sample = size /\ Forall (fun x => x ∈ a) sample.
Proof.
  intros Hne.
  assert (Hpos : (0 < length a)%nat) by (destruct a; [congruence|simpl; lia]).
  exists (map (fun i => nth i a 0) (randint (length a) size g).1).
  split; [|split].
  - unfold choice, choice_index.
    destruct (decide (length a = 0%nat)) as [H0|_]; [lia|].
    cbn [mbind option_bind]. destruct (randint (length a) size g); reflexivity.
  - rewrite length_map. apply randint_length.
  - pose proof (randint_range (length a) size g Hpos) as Hr.
    induction Hr as [|i idx Hi _ IH]; [constructor|].
    simpl. constructor; [|exact IH].
    destruct (lookup_lt_is_Some_2 a i Hi) as [x Hx].
    rewrite (nth_lookup_Some _ _ 0 _ Hx).
    apply (list_elem_of_lookup_2 _ _ _ Hx).
Qed.

(** STEP 2.3 runs to its end whenever there is a subject, and every
    bootstrap mean it stores for a timepoint lies between the bounds of
    the subjects' scores at that timepoint. *)
Lemma bootstrap_accuracy_spec `{NumpyRandom} (results : matrix)
    (n_sub n_perm timepoints : nat) (g : rng) (lo hi : nat -> R) :
  results <> [] -> (0 < n_sub)%nat ->
  (forall tp row, (tp < timepoints)%nat -> row ∈ results ->
     lo tp <= nth tp row 0 <= hi tp) ->
  exists bt_data g',
    Bootstrap.bootstrap_accuracy results n_sub n_perm timepoints g
    = Some (bt_data, g')
    /\ has_shape timepoints n_perm bt_data
    /\ forall tp perm, (tp < timepoints)%nat -> (perm < n_perm)%nat ->
         exists x, entry_at bt_data tp perm = Some x /\ lo tp <= x <= hi tp.
Proof.
  intros Hne Hsub Hrange.
  pose (P := fun (tp : nat) (st : matrix * rng) =>
    has_shape timepoints n_perm st.1
    /\ forall tp' perm, (tp' < tp)%nat -> (perm < n_perm)%nat ->
         exists x, entry_at st.1 tp' perm = Some x /\ lo tp' <= x <= hi tp').
  destruct (for_each_seq_total P
    (fun tp st =>
       for_each (fun perm st =>
         '(perm_tp_data, g) ← choice (col tp results) n_sub st.2;
         bt_data ← set_entry st.1 tp perm (mean perm_tp_data);
         Some (bt_data, g)) (seq 0 n_perm) st)
    timepoints 0 (zeros timepoints n_perm, g)) as ([bt g'] & Hrun & Hsh & Hall).
  - split.
    + split; [apply length_replicate|].
      apply Forall_replicate, length_replicate.
    + intros tp' perm Htp'. lia.
  - intros tp st [_ Htp] [Hsh Hdone]. simpl in Htp.
    pose (Q := fun (perm : nat) (st : matrix * rng) =>
      has_shape timepoints n_perm st.1
      /\ (forall tp' perm', (tp' < tp)%nat -> (perm' < n_perm)%nat ->
            exists x, entry_at st.1 tp' perm' = Some x /\ lo tp' <= x <= hi tp')
      /\ forall perm', (perm' < perm)%nat ->
            exists x, entry_at st.1 tp perm' = Some x /\ lo tp <= x <= hi tp).
    destruct (for_each_seq_total Q
      (fun perm st =>
         '(perm_tp_data, g) ← choice (col tp results) n_sub st.2;
         bt_data ← set_entry st.1 tp perm (mean perm_tp_data);
         Some (bt_data, g)) n_perm 0 st) as (st' & Hrun & Hsh' & Hold & Hnew).
    + split; [exact Hsh|]. split; [exact Hdone|]. intros perm' Hp. lia.
    + intros perm [bt0 g0] [_ Hperm] (Hsh0 & Hold0 & Hnew0). simpl in Hperm.
      cbn [fst snd] in *.
      assert (Hcol : col tp results <> []).
      { unfold col. destruct results; [congruence|discriminate]. }
      destruct (choice_Some (col tp results) n_sub g0 Hcol)
        as (sample & Hch & Hlen & Hin).
      destruct (set_entry_spec bt0 timepoints n_perm tp perm (mean sample)
                  Hsh0 Htp Hperm) as (bt1 & Hset & Hsh1 & Hget & Hother).
      exists (bt1, (randint (length (col tp results)) n_sub g0).2).
      split.
      { rewrite Hch. cbn [mbind option_bind]. rewrite Hset. reflexivity. }
      cbn [fst snd]. split; [exact Hsh1|]. split.
      * intros tp' perm' Htp' Hp'. rewrite Hother by (left; lia).
        apply Hold0; assumption.
      * intros perm' Hp'. destruct (decide (perm' = perm)) as [->|Hne'].
        -- exists (mean sample). split; [exact Hget|].
           apply mean_bounds.
           ++ destruct sample; [simpl in Hlen; lia|discriminate].
           ++ eapply Forall_impl; [exact Hin|].
              intros x Hx. unfold col in Hx.
              apply list_elem_of_fmap in Hx as (row & -> & Hrow).
              apply Hrange; assumption.
        -- rewrite Hother by (right; exact Hne'). apply Hnew0. lia.
    + exists st'. split; [exact Hrun|]. split; [exact Hsh'|].
      intros tp' perm Htp' Hp.
      destruct (decide (tp' = tp)) as [->|Hne'].
      * apply Hnew. lia.
      * apply Hold; [lia|exact Hp].
  - exists bt, g'. split; [exact Hrun|]. split; [exact Hsh|].
    intros tp perm Htp Hp. apply Hall; [lia|exact Hp].
Qed.

(** ** The accuracy intervals, from the subjects' scores to the dictionary *)

Lemma accuracy_CI_spec (bt_data : matrix) (n_perm timepoints : nat) :
  has_shape timepoints n_perm bt_data -> (40 <= n_perm)%nat ->
  exists ci_dict,
    Bootstrap.accuracy_CI bt_data n_perm timepoints = Some ci_dict
    /\ forall tp, (tp < timepoints)%nat ->
         exists tp_data lower_CI upper_CI,
           bt_data !! tp = Some tp_data
           /\ ci_dict !! tp = Some [lower_CI; upper_CI]
           /\ lower_CI <= upper_CI
           /\ lower_CI ∈ tp_data /\ upper_CI ∈ tp_data.
Proof.
  intros [Hlen Hrows] Hn.
  pose (P := fun (k : nat) (ci_dict : gmap nat (list R)) =>
    forall tp, (tp < k)%nat ->
      exists tp_data lower_CI upper_CI,
        bt_data !! tp = Some tp_data
        /\ ci_dict !! tp = Some [lower_CI; upper_CI]
        /\ lower_CI <= upper_CI
        /\ lower_CI ∈ tp_data /\ upper_CI ∈ tp_data).
  destruct (for_each_seq_total P
    (fun tp ci_dict =>
       tp_data ← bt_data !! tp;
       ci ← Bootstrap.ci_of_row tp_data n_perm;
       Some (<[tp := ci]> ci_dict)) timepoints 0 ∅) as (ci_dict & Hrun & Hall).
  - intros tp Htp. lia.
  - intros tp ci_dict [_ Htp] Hdone. simpl in Htp.
    destruct (lookup_lt_is_Some_2 bt_data tp) as [tp_data Hrow]; [lia|].
    assert (Hl : length tp_data = n_perm).
    { rewrite Forall_forall in Hrows. apply Hrows.
      apply (list_elem_of_lookup_2 _ _ _ Hrow). }
    destruct (ci_of_row_ordered tp_data n_perm Hl Hn)
      as (lo & up & Hci & Hle & Hlo & Hup).
    exists (<[tp := [lo; up]]> ci_dict). split.
    + rewrite Hrow. cbn [mbind option_bind]. rewrite Hci. reflexivity.
    + intros tp' Htp'. destruct (decide (tp' = tp)) as [->|Hne].
      * exists tp_data, lo, up. rewrite lookup_insert_eq. repeat split; assumption.
      * rewrite lookup_insert_ne by congruence. apply Hdone. lia.
  - exists ci_dict. split; [exact Hrun|]. intros tp Htp. apply Hall. lia.
Qed.

(** STEP 2.3 and 2.4 together: with at least one subject and at least
    40 resamples the dictionary of intervals is produced, it has an
    interval for every timepoint, and the interval of a timepoint is
    ordered and lies within the bounds of the subjects' scores at that
    timepoint. *)
Theorem accuracy_intervals_within_subject_range `{NumpyRandom}
    (results : matrix) (n_sub n_perm timepoints : nat) (g : rng)
    (lo hi : nat -> R) :
  results <> [] -> (0 < n_sub)%nat -> (40 <= n_perm)%nat ->
  (forall tp row, (tp < timepoints)%nat -> row ∈ results ->
     lo tp <= nth tp row 0 <= hi tp) ->
  exists bt_data g' ci_dict,
    Bootstrap.bootstrap_accuracy results n_sub n_perm timepoints g
    = Some (bt_data, g')
    /\ Bootstrap.accuracy_CI bt_data n_perm timepoints = Some ci_dict
    /\ forall tp, (tp < timepoints)%nat ->
         exists lower_CI upper_CI,
           ci_dict !! tp = Some [lower_CI; upper_CI]
           /\ lo tp <= lower_CI /\ lower_CI <= upper_CI /\ upper_CI <= hi tp.
Proof.
  intros Hne Hsub Hn Hrange.
  destruct (bootstrap_accuracy_spec results n_sub n_perm timepoints g lo hi
              Hne Hsub Hrange) as (bt & g' & Hbt & Hshape & Hentries).
  destruct (accuracy_CI_spec bt n_perm timepoints Hshape Hn) as (ci_dict & Hci & Hall).
  exists bt, g', ci_dict. split; [exact Hbt|]. split; [exact Hci|].
  intros tp Htp.
  destruct (Hall tp Htp) as (tp_data & lower & upper & Hrow & Hd & Hle & Hl & Hu).
  assert (Hin : forall x, x ∈ tp_data -> lo tp <= x <= hi tp).
  { intros x Hx. apply list_elem_of_lookup_1 in Hx as [perm Hperm].
    destruct (Hentries tp perm Htp) as (x' & Hx' & Hb).
    - destruct Hshape as [_ Hrows]. rewrite Forall_forall in Hrows.
      rewrite <- (Hrows tp_data (list_elem_of_lookup_2 _ _ _ Hrow)).
      exact (lookup_lt_Some _ _ _ Hperm).
    - unfold entry_at in Hx'. rewrite Hrow in Hx'. cbn [mbind option_bind] in Hx'.
      rewrite Hperm in Hx'. injection Hx' as <-. exact Hb. }
  exists lower, upper. split; [exact Hd|].
  pose proof (Hin lower Hl). pose proof (Hin upper Hu). lra.
Qed.

Lemma accuracy_intervals_within_subject_range_witness :
  exists bt_data g' ci_dict,
    @Bootstrap.bootstrap_accuracy counter_rng [[1; 5]; [3; 4]] 2 40 2 0%nat
    = Some (bt_data, g')
    /\ Bootstrap.accuracy_CI bt_data 40 2 = Some ci_dict
    /\ forall tp, (tp < 2)%nat ->
         exists lower_CI upper_CI,
           ci_dict !! tp = Some [lower_CI; upper_CI]
           /\ 1 <= lower_CI /\ lower_CI <= upper_CI /\ upper_CI <= 5.
Proof.
  apply (@accuracy_intervals_within_subject_range counter_rng [[1; 5]; [3; 4]]
           2 40 2 0%nat (fun _ => 1) (fun _ => 5)); [discriminate | lia | lia |].
  intros tp row Htp Hrow.
  apply elem_of_cons in Hrow as [->|Hrow];
    [|apply elem_of_cons in Hrow as [->|Hrow];
      [|apply elem_of_nil in Hrow; contradiction]];
    (destruct tp as [|[|tp]]; [simpl; lra | simpl; lra | lia]).
Defined.

(** ** The peak latencies of STEP 2.5 *)

Lemma draws_length `{NumpyRandom} (n size : nat) : forall (k : nat) (g : rng),
  length (draws n size g k).1 = k.
Proof. induction k as [|k IH]; intros g; simpl; [reflexivity | now rewrite IH]. Qed.

Lemma peak_latency_in_time_ms (M : matrix) (p : Z) :
  Bootstrap.peak_latency M = Some p -> p ∈ Bootstrap.time_ms.
Proof.
  unfold Bootstrap.peak_latency. intros Hp.
  destruct (argmax (mean_axis0 M)) as [i|]; [|discriminate].
  cbn [mbind option_bind] in Hp. exact (list_elem_of_lookup_2 _ _ _ Hp).
Qed.

Lemma time_ms_range (p : Z) : p ∈ Bootstrap.time_ms ->
  exists k : Z, (0 <= k < 70)%Z /\ p = (-400 + 20 * k)%Z.
Proof.
  unfold Bootstrap.time_ms. rewrite map_fmap. intros Hp.
  apply list_elem_of_fmap in Hp as (k & -> & Hk).
  apply elem_of_seq in Hk. exists (Z.of_nat k). split; [lia|reflexivity].
Qed.

Lemma shape1_of_shape (n t : nat) (M : matrix) :
  has_shape n t M -> (0 < n)%nat -> shape1 M = t.
Proof.
  intros [Hlen Hrows] Hn. destruct M as [|r M]; [simpl in Hlen; lia|].
  simpl. now inversion Hrows.
Qed.

Lemma argmax_singleton (x : R) : argmax [x] = Some 0%nat.
Proof. reflexivity. Qed.

Section PeakDraws.
Context `{NumpyRandom}.
Variables (results : matrix) (n t n_sub : nat).
Hypothesis shape_results : has_shape n t results.
Hypothesis n_pos : (0 < n)%nat.
Hypothesis t_bounds : (0 < t <= 70)%nat.

(** With two or more resampled subjects, [np.squeeze] leaves the subject
    axis in place and the pass stores the peak latency of the resample. *)
Lemma peak_step_many (perm : nat) (bt0 : list Z) (g0 : rng) :
  (2 <= n_sub)%nat -> (perm < length bt0)%nat ->
  exists M p,
    take_rows results (randint n n_sub g0).1 = Some M
    /\ Bootstrap.peak_latency M = Some p
    /\ Peaks.peak_step results n_sub perm (bt0, g0)
       = Some (<[perm := p]> bt0, (randint n n_sub g0).2).
Proof.
  intros Hsub Hperm.
  pose proof shape_results as [Hlen Hrows].
  destruct (take_rows_Some results (randint n n_sub g0).1) as (M & HM & HlM & HinM).
  { rewrite Hlen. apply randint_range, n_pos. }
  rewrite randint_length in HlM.
  assert (HrowsM : Forall (fun row => length row = t) M).
  { rewrite Forall_forall in *. auto. }
  destruct (peak_latency_Some M t) as [p Hp]; [|exact HrowsM|exact t_bounds|].
  { destruct M; simpl in *; [lia | discriminate]. }
  exists M, p. split; [exact HM|]. split; [exact Hp|].
  destruct (lookup_lt_is_Some_2 bt0 perm Hperm) as [old Hold].
  unfold Peaks.peak_step, choice_index, shape0. rewrite Hlen.
  destruct (decide (n = 0%nat)); [lia|]. cbn [mbind option_bind fst snd].
  destruct (randint n n_sub g0) as [idx g1]. cbn [fst snd] in *.
  rewrite HM. cbn [mbind option_bind].
  rewrite (shape1_of_shape n t results shape_results n_pos).
  destruct M as [|r1 [|r2 M']]; [simpl in HlM; lia | simpl in HlM; lia |].
  unfold Bootstrap.peak_latency in Hp. unfold Peaks.squeeze.
  destruct (Nat.eqb_spec t 1) as [Ht|Ht].
  - cbn [Peaks.mean_axis0_nd mbind option_bind Peaks.argmax_nd].
    assert (Hone : exists x, mean_axis0 (r1 :: r2 :: M') = [x]).
    { pose proof (length_mean_axis0 (r1 :: r2 :: M')) as Hl.
      simpl shape1 in Hl. inversion HrowsM as [|? ? Hr1 _]; subst.
      rewrite Hr1 in Hl.
      destruct (mean_axis0 (r1 :: r2 :: M')) as [|x [|? ?]]; simpl in Hl;
        try lia. now exists x. }
    destruct Hone as [x Hx]. rewrite Hx, argmax_singleton in Hp.
    cbn [mbind option_bind] in Hp. rewrite Hp. cbn [mbind option_bind].
    rewrite Hold. reflexivity.
  - cbn [Peaks.mean_axis0_nd mbind option_bind Peaks.argmax_nd].
    destruct (argmax (mean_axis0 (r1 :: r2 :: M'))) as [i|]; [|discriminate].
    cbn [mbind option_bind] in *. rewrite Hp. cbn [mbind option_bind].
    rewrite Hold. reflexivity.
Qed.

Lemma peak_loop_many (Hsub : (2 <= n_sub)%nat) (m : nat) :
  forall (k : nat) (bt0 : list Z) (g0 : rng),
  (k + m <= length bt0)%nat ->
  exists bt,
    for_each (Peaks.peak_step results n_sub) (seq k m) (bt0, g0)
    = Some (bt, (draws n n_sub g0 m).2)
    /\ length bt = length bt0
    /\ (forall i, (i < k)%nat -> bt !! i = bt0 !! i)
    /\ forall j idx, (draws n n_sub g0 m).1 !! j = Some idx ->
         exists M p, take_rows results idx = Some M
           /\ Bootstrap.peak_latency M = Some p
           /\ bt !! (k + j)%nat = Some p.
Proof.
  induction m as [|m IH]; intros k bt0 g0 Hk.
  - exists bt0. simpl. repeat split. intros j idx Hj. discriminate.
  - destruct (peak_step_many k bt0 g0 Hsub) as (M & p & HM & Hp & Hstep); [lia|].
    destruct (IH (S k) (<[k := p]> bt0) (randint n n_sub g0).2) as
      (bt & Hrun & Hlen & Hpre & Hdraws).
    { rewrite length_insert. lia. }
    exists bt. split; [|split; [|split]].
    + simpl. rewrite Hstep. cbn [mbind option_bind]. exact Hrun.
    + rewrite Hlen. apply length_insert.
    + intros i Hi. rewrite Hpre by lia. apply list_lookup_insert_ne. lia.
    + intros [|j] idx Hj; simpl in Hj.
      * injection Hj as <-. exists M, p. split; [exact HM|]. split; [exact Hp|].
        rewrite Nat.add_0_r, Hpre by lia. apply list_lookup_insert_eq. lia.
      * destruct (Hdraws j idx Hj) as (M' & p' & HM' & Hp' & Hbt).
        exists M', p'. split; [exact HM'|]. split; [exact Hp'|].
        now rewrite <- Nat.add_succ_comm.
Qed.
End PeakDraws.

(** With two or more subjects STEP 2.5 runs to its end, draws one index
    vector per resample, and stores for each the peak latency of the mean
    over the resampled subjects, which is one of the 70 time stamps. *)
Theorem bootstrap_peaks_are_resample_peaks `{NumpyRandom} (results : matrix)
    (n t n_sub n_perm : nat) (g : rng) :
  has_shape n t results -> (0 < n)%nat -> (0 < t <= 70)%nat ->
  (2 <= n_sub)%nat ->
  exists bt_data_peaks,
    Peaks.peak_draws results n_sub n_perm g
    = Some (bt_data_peaks, (draws n n_sub g n_perm).2)
    /\ length bt_data_peaks = n_perm
    /\ forall perm idx, (draws n n_sub g n_perm).1 !! perm = Some idx ->
         exists M p, take_rows results idx = Some M
           /\ Bootstrap.peak_latency M = Some p
           /\ bt_data_peaks !! perm = Some p
           /\ p ∈ Bootstrap.time_ms.
Proof.
  intros Hshape Hn Ht Hsub.
  destruct (peak_loop_many results n t n_sub Hshape Hn Ht Hsub n_perm 0
              (replicate n_perm 0%Z) g) as (bt & Hrun & Hlen & _ & Hdraws).
  { rewrite length_replicate. lia. }
  exists bt. split; [exact Hrun|]. split.
  - now rewrite Hlen, length_replicate.
  - intros perm idx Hidx.
    destruct (Hdraws perm idx Hidx) as (M & p & HM & Hp & Hbt).
    exists M, p. repeat split; try assumption.
    exact (peak_latency_in_time_ms M p Hp).
Qed.

Lemma bootstrap_peaks_are_resample_peaks_witness :
  exists bt_data_peaks,
    @Peaks.peak_draws counter_rng [[1; 2]; [4; 3]] 2 3 0%nat
    = Some (bt_data_peaks, (@draws counter_rng 2 2 0%nat 3).2)
    /\ length bt_data_peaks = 3%nat
    /\ forall perm idx, (@draws counter_rng 2 2 0%nat 3).1 !! perm = Some idx ->
         exists M p, take_rows [[1; 2]; [4; 3]] idx = Some M
           /\ Bootstrap.peak_latency M = Some p
           /\ bt_data_peaks !! perm = Some p
           /\ p ∈ Bootstrap.time_ms.
Proof.
  apply (@bootstrap_peaks_are_resample_peaks counter_rng [[1; 2]; [4; 3]]
           2 2 2 3 0%nat); [|lia|lia|lia].
  split; [reflexivity|]. repeat constructor.
Defined.

(** ** The percentile indices of STEP 2.6 *)

Lemma round_half_even_bounds (a b : nat) : (0 < b)%nat ->
  (2 * a <= 2 * b * Peaks.round_half_even a b + b
   /\ 2 * b * Peaks.round_half_even a b <= 2 * a + b)%nat.
Proof.
  intros Hb. unfold Peaks.round_half_even.
  pose proof (Nat.div_mod_eq a b) as Hdm.
  pose proof (Nat.mod_upper_bound a b ltac:(lia)) as Hr.
  set (q := (a / b)%nat) in *. set (r := (a mod b)%nat) in *.
  destruct (Nat.ltb_spec (2 * r) b); [nia|].
  destruct (Nat.ltb_spec b (2 * r)); [nia|].
  destruct (Nat.even q); nia.
Qed.

Lemma upper_round_small (n : nat) : (n < 21)%nat -> Peaks.upper_round n = n.
Proof.
  intros Hn. do 21 (destruct n as [|n]; [reflexivity|]). lia.
Qed.

Lemma upper_round_valid (n : nat) :
  (Peaks.upper_round n < n)%nat <-> (21 <= n)%nat.
Proof.
  split.
  - intros Hlt. destruct (Nat.lt_ge_cases n 21) as [Hs|Hs]; [|exact Hs].
    rewrite (upper_round_small n Hs) in Hlt. lia.
  - intros Hn. unfold Peaks.upper_round.
    pose proof (round_half_even_bounds (n * 975) 1000 ltac:(lia)). lia.
Qed.

Lemma lower_round_le_upper (n : nat) :
  (Peaks.lower_round n <= Peaks.upper_round n)%nat.
Proof.
  destruct (Nat.lt_ge_cases n 3) as [Hs|Hs].
  - do 3 (destruct n as [|n]; [vm_compute; lia|]). lia.
  - unfold Peaks.lower_round, Peaks.upper_round.
    pose proof (round_half_even_bounds (n * 975) 1000 ltac:(lia)).
    pose proof (round_half_even_bounds (n * 25) 1000 ltac:(lia)). lia.
Qed.

(** The interval of STEP 2.6 exists exactly when there are at least 21
    resamples (the rounded upper index is [n_perm] itself below that);
    its middle entry is the peak handed in, and its two bounds are
    bootstrap peaks in ascending order. *)
Theorem peak_interval_needs_21_resamples (bt_data_peaks : list Z)
    (n_perm : nat) (peak : Z) :
  length bt_data_peaks = n_perm ->
  (is_Some (Peaks.peak_CI bt_data_peaks n_perm peak) <-> (21 <= n_perm)%nat)
  /\ forall lower_CI p upper_CI,
       Peaks.peak_CI bt_data_peaks n_perm peak = Some (lower_CI, p, upper_CI) ->
       p = peak /\ lower_CI <= upper_CI
       /\ lower_CI ∈ map IZR bt_data_peaks /\ upper_CI ∈ map IZR bt_data_peaks.
Proof.
  intros Hlen.
  assert (Hl : length (sort_asc (map IZR bt_data_peaks)) = n_perm)
    by now rewrite length_sort_asc, length_map.
  pose proof (lower_round_le_upper n_perm) as Hle.
  split; [split|].
  - intros [ci Hci]. unfold Peaks.peak_CI in Hci. cbn zeta in Hci.
    destruct (sort_asc (map IZR bt_data_peaks) !! Peaks.lower_round n_perm)
      as [lo|]; [|discriminate].
    cbn [mbind option_bind] in Hci.
    destruct (sort_asc (map IZR bt_data_peaks) !! Peaks.upper_round n_perm)
      as [up|] eqn:Hu; [|discriminate].
    apply lookup_lt_Some in Hu. rewrite Hl in Hu.
    now apply upper_round_valid.
  - intros Hn. apply upper_round_valid in Hn.
    destruct (lookup_lt_is_Some_2 (sort_asc (map IZR bt_data_peaks))
                (Peaks.lower_round n_perm)) as [lo Hlo]; [lia|].
    destruct (lookup_lt_is_Some_2 (sort_asc (map IZR bt_data_peaks))
                (Peaks.upper_round n_perm)) as [up Hu]; [lia|].
    exists (lo, peak, up). unfold Peaks.peak_CI. cbn zeta. now rewrite Hlo, Hu.
  - intros lo p up Hci. unfold Peaks.peak_CI in Hci. cbn zeta in Hci.
    destruct (sort_asc (map IZR bt_data_peaks) !! Peaks.lower_round n_perm)
      as [lo'|] eqn:Hlo; [|discriminate].
    cbn [mbind option_bind] in Hci.
    destruct (sort_asc (map IZR bt_data_peaks) !! Peaks.upper_round n_perm)
      as [up'|] eqn:Hu; [|discriminate].
    cbn [mbind option_bind] in Hci. injection Hci as -> -> ->.
    split; [reflexivity|]. split.
    + exact (sorted_lookup_le _ (sort_asc_sorted _) _ _ _ _ Hle Hlo Hu).
    + split; [exact (sort_asc_lookup_elem _ _ _ Hlo)
             | exact (sort_asc_lookup_elem _ _ _ Hu)].
Qed.

Lemma peak_interval_needs_21_resamples_witness :
  is_Some (Peaks.peak_CI (replicate 21 0%Z) 21 100) <-> (21 <= 21)%nat.
Proof.
  apply (proj1 (peak_interval_needs_21_resamples (replicate 21 0%Z) 21 100
                  (length_replicate 21 0%Z))).
Defined.

Example upper_round_20_21 :
  Peaks.upper_round 20 = 20%nat /\ Peaks.upper_round 21 = 20%nat
  /\ Peaks.upper_round 60 = 58%nat /\ Bootstrap.upper_index 60 = 59%nat.
Proof. repeat split. Qed.

(** ** One subject: [np.squeeze] drops the subject axis *)

Lemma randint_one `{NumpyRandom} (g : rng) : (randint 1 1 g).1 = [0%nat].
Proof.
  pose proof (randint_length 1 1 g) as Hlen.
  pose proof (randint_range 1 1 g ltac:(lia)) as Hrange.
  destruct (randint 1 1 g).1 as [|i [|? ?]]; simpl in Hlen; try lia.
  inversion Hrange as [|? ? Hi _]; subst. f_equal. lia.
Qed.

Lemma peak_step_single `{NumpyRandom} (row : vec) (perm : nat) (bt0 : list Z)
    (g0 : rng) :
  length row <> 1%nat -> (perm < length bt0)%nat ->
  Peaks.peak_step [row] 1 perm (bt0, g0)
  = Some (<[perm := (-400)%Z]> bt0, (randint 1 1 g0).2).
Proof.
  intros Hrow Hperm.
  destruct (lookup_lt_is_Some_2 bt0 perm Hperm) as [old Hold].
  unfold Peaks.peak_step, choice_index, shape0. simpl length.
  destruct (decide (1%nat = 0%nat)); [lia|]. cbn [mbind option_bind fst snd].
  pose proof (randint_one g0) as Hidx.
  destruct (randint 1 1 g0) as [idx g1]. cbn [fst snd] in *. subst idx.
  cbn [take_rows mapM mbind option_bind lookup list_lookup mret option_ret
       fmap option_fmap option_map].
  unfold Peaks.squeeze, shape1.
  destruct (Nat.eqb_spec (length row) 1) as [Ht|_]; [contradiction|].
  cbn [Peaks.mean_axis0_nd Peaks.argmax_nd mbind option_bind].
  change (Bootstrap.time_ms !! 0%nat) with (Some (-400)%Z).
  cbn [mbind option_bind]. rewrite Hold. reflexivity.
Qed.

(** With a single subject every bootstrap peak of STEP 2.5 is the first
    time stamp, -400 ms, whatever the data: the resample is squeezed to a
    vector, its mean over axis 0 is a scalar, and [np.argmax] of a scalar
    is 0.  The interval stored around the true peak is then
    [(-400, peak, -400)]. *)
Theorem single_subject_peaks_collapse `{NumpyRandom} (row : vec)
    (n_perm : nat) (g : rng) :
  (2 <= length row <= 70)%nat ->
  exists g' peak,
    Peaks.peak_draws [row] 1 n_perm g = Some (replicate n_perm (-400)%Z, g')
    /\ Bootstrap.peak_latency [row] = Some peak
    /\ ((21 <= n_perm)%nat ->
        Peaks.peak_interval [row] 1 n_perm g = Some ((-400, peak, -400), g')).
Proof.
  intros Hrow.
  pose (P := fun (k : nat) (st : list Z * rng) =>
    length st.1 = n_perm /\ forall i, (i < k)%nat -> st.1 !! i = Some (-400)%Z).
  destruct (for_each_seq_total P (Peaks.peak_step [row] 1) n_perm 0
              (replicate n_perm 0%Z, g)) as ([bt g'] & Hrun & Hlen & Hall).
  { split; [apply length_replicate|]. intros i Hi. lia. }
  { intros k [bt0 g0] [_ Hk] [Hlen0 Hdone]. simpl in Hk. cbn [fst snd] in *.
    exists (<[k := (-400)%Z]> bt0, (randint 1 1 g0).2). split.
    - apply peak_step_single; lia.
    - unfold P. cbn [fst snd]. split; [now rewrite length_insert|].
      intros i Hi. destruct (decide (i = k)) as [->|Hne].
      + apply list_lookup_insert_eq. lia.
      + rewrite list_lookup_insert_ne by congruence. apply Hdone. lia. }
  cbn [fst snd] in *.
  assert (Hbt : bt = replicate n_perm (-400)%Z).
  { apply list_eq. intros i. destruct (decide (i < n_perm)%nat) as [Hi|Hi].
    - rewrite Hall by lia. symmetry. apply lookup_replicate_2. exact Hi.
    - rewrite !lookup_ge_None_2; [reflexivity | rewrite length_replicate; lia | lia]. }
  subst bt.
  destruct (peak_latency_Some [row] (length row)) as [peak Hpeak];
    [discriminate | repeat constructor | lia |].
  exists g', peak. split; [exact Hrun|]. split; [exact Hpeak|].
  intros Hn. unfold Peaks.peak_interval. rewrite Hpeak.
  cbn [mbind option_bind]. unfold Peaks.peak_draws in Hrun |- *.
  cbn zeta. rewrite Hrun. cbn [mbind option_bind].
  unfold Peaks.peak_CI. cbn zeta.
  assert (Hget : forall i, (i < n_perm)%nat ->
    sort_asc (map IZR (replicate n_perm (-400)%Z)) !! i = Some (-400)).
  { intros i Hi.
    destruct (lookup_lt_is_Some_2 (sort_asc (map IZR (replicate n_perm (-400)%Z))) i)
      as [x Hx].
    { rewrite length_sort_asc, length_map, length_replicate. exact Hi. }
    rewrite Hx. f_equal.
    apply sort_asc_lookup_elem in Hx. rewrite map_fmap in Hx.
    apply list_elem_of_fmap in Hx as (z & -> & Hz).
    apply elem_of_replicate in Hz as [-> _]. reflexivity. }
  pose proof (proj2 (upper_round_valid n_perm) Hn) as Hup.
  pose proof (lower_round_le_upper n_perm) as Hlo.
  rewrite (Hget (Peaks.lower_round n_perm)) by lia.
  cbn [mbind option_bind].
  rewrite (Hget (Peaks.upper_round n_perm)) by lia.
  reflexivity.
Qed.

Lemma single_subject_peaks_collapse_witness :
  exists g' peak,
    @Peaks.peak_draws counter_rng [[1; 3; 2]] 1 21 0%nat
    = Some (replicate 21 (-400)%Z, g')
    /\ Bootstrap.peak_latency [[1; 3; 2]] = Some peak
    /\ ((21 <= 21)%nat ->
        @Peaks.peak_interval counter_rng [[1; 3; 2]] 1 21 0%nat
        = Some ((-400, peak, -400), g')).
Proof.
  apply (@single_subject_peaks_collapse counter_rng [1; 3; 2] 21 0%nat).
  simpl. lia.
Defined.

(** ** The peak-latency differences of STEP 2.9 *)

(** Every stored difference of two bootstrap peaks is a multiple of
    20 ms between -1380 and 1380. *)
Theorem peak_differences_bounded `{NumpyRandom} (results_A results_B : matrix)
    (n t n_sub n_perm : nat) (g : rng) :
  has_shape n t results_A -> has_shape n t results_B ->
  (0 < n)%nat -> (0 < n_sub)%nat -> (0 < t <= 70)%nat ->
  exists bt_data_peaks g',
    Bootstrap.peak_difference_draws results_A results_B n_sub n_perm g
    = Some (bt_data_peaks, g')
    /\ length bt_data_peaks = n_perm
    /\ Forall (fun d => (-1380 <= d <= 1380)%Z /\ (20 | d)%Z) bt_data_peaks.
Proof.
  intros HA HB Hn Hsub Ht.
  destruct (peak_difference_loop results_A results_B n t n_sub HA HB Hn Hsub Ht
              n_perm 0 (replicate n_perm 0%Z) g) as (bt & Hrun & Hlen & _ & Hdraws).
  { rewrite length_replicate. lia. }
  rewrite length_replicate in Hlen.
  exists bt, (draws n n_sub g n_perm).2. split; [exact Hrun|].
  split; [exact Hlen|].
  apply Forall_lookup_2. intros perm d Hd.
  assert (Hperm : (perm < n_perm)%nat)
    by (rewrite <- Hlen; exact (lookup_lt_Some _ _ _ Hd)).
  destruct (lookup_lt_is_Some_2 (draws n n_sub g n_perm).1 perm) as [idx Hidx].
  { now rewrite draws_length. }
  destruct (Hdraws perm idx Hidx) as (d' & Hpair & Hbt).
  simpl in Hbt. rewrite Hd in Hbt. injection Hbt as <-.
  unfold paired_difference in Hpair.
  destruct (take_rows results_A idx) as [MA|]; [|discriminate].
  cbn [mbind option_bind] in Hpair.
  destruct (take_rows results_B idx) as [MB|]; [|discriminate].
  cbn [mbind option_bind] in Hpair.
  destruct (Bootstrap.peak_latency MA) as [pA|] eqn:HpA; [|discriminate].
  cbn [mbind option_bind] in Hpair.
  destruct (Bootstrap.peak_latency MB) as [pB|] eqn:HpB; [|discriminate].
  cbn [mbind option_bind] in Hpair. injection Hpair as <-.
  destruct (time_ms_range pA (peak_latency_in_time_ms _ _ HpA)) as (ka & Hka & ->).
  destruct (time_ms_range pB (peak_latency_in_time_ms _ _ HpB)) as (kb & Hkb & ->).
  split; [lia|]. exists (ka - kb)%Z. lia.
Qed.

Lemma peak_differences_bounded_witness :
  exists bt_data_peaks g',
    @Bootstrap.peak_difference_draws counter_rng
      [[1; 2]; [4; 3]] [[2; 1]; [3; 4]] 2 3 0%nat
    = Some (bt_data_peaks, g')
    /\ length bt_data_peaks = 3%nat
    /\ Forall (fun d => (-1380 <= d <= 1380)%Z /\ (20 | d)%Z) bt_data_peaks.
Proof.
  apply (@peak_differences_bounded counter_rng
           [[1; 2]; [4; 3]] [[2; 1]; [3; 4]] 2 2 2 3 0%nat);
    try lia; (split; [reflexivity | repeat constructor]).
Defined.

(** ** The variable [peak_A] across the comparisons of one feature *)

Section Comparison.
Context `{NumpyRandom}.
Variables (results_A results_B : matrix) (n t n_sub : nat).
Hypothesis shape_A : has_shape n t results_A.
Hypothesis shape_B : has_shape n t results_B.
Hypothesis n_pos : (0 < n)%nat.
Hypothesis n_sub_pos : (0 < n_sub)%nat.
Hypothesis t_bounds : (0 < t <= 70)%nat.

Lemma resample_peak_Some (results : matrix) (g : rng) :
  has_shape n t results ->
  exists M p, take_rows results (randint n n_sub g).1 = Some M
    /\ Bootstrap.peak_latency M = Some p.
Proof.
  intros [Hlen Hrows].
  destruct (take_rows_Some results (randint n n_sub g).1) as (M & HM & HlM & HinM).
  { rewrite Hlen. apply randint_range, n_pos. }
  rewrite randint_length in HlM.
  destruct (peak_latency_Some M t) as [p Hp]; [| |exact t_bounds|].
  { destruct M; simpl in *; [lia | discriminate]. }
  { rewrite Forall_forall in *. auto. }
  exists M, p. split; assumption.
Qed.

Lemma difference_step_spec (perm : nat) (bt0 : list Z) (pA0 : Z) (g0 : rng) :
  (perm < length bt0)%nat ->
  exists M pA d,
    take_rows results_A (randint n n_sub g0).1 = Some M
    /\ Bootstrap.peak_latency M = Some pA
    /\ Peaks.difference_step results_A results_B n_sub perm (bt0, pA0, g0)
       = Some (<[perm := d]> bt0, pA, (randint n n_sub g0).2).
Proof.
  intros Hperm.
  destruct (lookup_lt_is_Some_2 bt0 perm Hperm) as [old Hold].
  destruct (resample_peak_Some results_A g0 shape_A) as (MA & pA & HMA & HpA).
  destruct (resample_peak_Some results_B g0 shape_B) as (MB & pB & HMB & HpB).
  exists MA, pA, (pA - pB)%Z. split; [exact HMA|]. split; [exact HpA|].
  unfold Peaks.difference_step, choice_index, shape0.
  destruct shape_A as [-> _].
  destruct (decide (n = 0%nat)); [lia|]. cbn [mbind option_bind fst snd].
  destruct (randint n n_sub g0) as [idx g1]. cbn [fst snd] in *.
  rewrite HMA. cbn [mbind option_bind]. rewrite HMB. cbn [mbind option_bind].
  rewrite HpA. cbn [mbind option_bind]. rewrite HpB. cbn [mbind option_bind].
  rewrite Hold. reflexivity.
Qed.

(** The loop over [perm] leaves in [peak_A] the peak of the resample of
    its last pass. *)
Lemma difference_loop (m : nat) : forall (k : nat) (bt0 : list Z) (pA0 : Z) (g0 : rng),
  (k + m <= length bt0)%nat ->
  exists bt pA,
    for_each (Peaks.difference_step results_A results_B n_sub) (seq k m)
      (bt0, pA0, g0)
    = Some (bt, pA, (draws n n_sub g0 m).2)
    /\ length bt = length bt0
    /\ (m = 0%nat -> pA = pA0)
    /\ forall idx, last (draws n n_sub g0 m).1 = Some idx ->
         exists M, take_rows results_A idx = Some M
           /\ Bootstrap.peak_latency M = Some pA.
Proof.
  induction m as [|m IH]; intros k bt0 pA0 g0 Hk.
  - exists bt0, pA0. simpl. repeat split. intros idx Hidx. discriminate.
  - destruct (difference_step_spec k bt0 pA0 g0) as (M & pA1 & d & HM & Hp & Hstep);
      [lia|].
    destruct (IH (S k) (<[k := d]> bt0) pA1 (randint n n_sub g0).2) as
      (bt & pA & Hrun & Hlen & Hzero & Hlast).
    { rewrite length_insert. lia. }
    exists bt, pA. split; [|split; [|split]].
    + simpl. rewrite Hstep. cbn [mbind option_bind]. exact Hrun.
    + rewrite Hlen. apply length_insert.
    + intros Hm. discriminate.
    + intros idx Hidx. simpl in Hidx.
      destruct m as [|m].
      * simpl in Hidx. injection Hidx as <-. rewrite (Hzero eq_refl).
        exists M. split; assumption.
      * apply Hlast. simpl in Hidx |- *. exact Hidx.
Qed.
End Comparison.

Lemma difference_CI_Some (bt_data_peaks : list Z) (n_perm : nat) (feature_diff : Z) :
  length bt_data_peaks = n_perm -> (40 <= n_perm)%nat ->
  exists lower_CI upper_CI,
    Peaks.difference_CI bt_data_peaks n_perm feature_diff
    = Some (lower_CI, feature_diff, upper_CI)
    /\ lower_CI <= upper_CI.
Proof.
  intros Hlen Hn.
  assert (Hl : length (sort_asc (map IZR bt_data_peaks)) = n_perm)
    by now rewrite length_sort_asc, length_map.
  assert (Hup : (Bootstrap.upper_index n_perm < n_perm)%nat)
    by (apply upper_index_valid; exact Hn).
  pose proof (lower_index_le_upper n_perm) as Hle.
  destruct (lookup_lt_is_Some_2 (sort_asc (map IZR bt_data_peaks))
              (Bootstrap.lower_index n_perm)) as [lo Hlo]; [lia|].
  destruct (lookup_lt_is_Some_2 (sort_asc (map IZR bt_data_peaks))
              (Bootstrap.upper_index n_perm)) as [up Hu]; [lia|].
  exists lo, up. split.
  - unfold Peaks.difference_CI. cbn zeta. now rewrite Hlo, Hu.
  - exact (sorted_lookup_le _ (sort_asc_sorted _) _ _ _ _ Hle Hlo Hu).
Qed.

(** One comparison: the middle entry stored is the incoming [peak_A]
    minus the peak of feature B, and the outgoing [peak_A] is the peak of
    the last bootstrap resample of feature A. *)
Lemma compare_spec `{NumpyRandom} (results_dict : gmap string matrix)
    (feature_A feature_B : string) (results_A results_B : matrix)
    (n t n_sub n_perm : nat) (peak_A : Z) (pairwise_p : gmap string (R * Z * R))
    (g : rng) :
  has_shape n t results_A -> has_shape n t results_B ->
  (0 < n)%nat -> (0 < n_sub)%nat -> (0 < t <= 70)%nat -> (40 <= n_perm)%nat ->
  feature_A <> feature_B -> results_dict !! feature_B = Some results_B ->
  exists peak_B lower_CI upper_CI peak_A' idx M,
    Bootstrap.peak_latency results_B = Some peak_B
    /\ last (draws n n_sub g n_perm).1 = Some idx
    /\ take_rows results_A idx = Some M
    /\ Bootstrap.peak_latency M = Some peak_A'
    /\ Peaks.compare results_dict n_sub n_perm feature_A results_A feature_B
         (peak_A, pairwise_p, g)
       = Some (peak_A',
               <[Peaks.str_comparison feature_A feature_B
                 := (lower_CI, (peak_A - peak_B)%Z, upper_CI)]> pairwise_p,
               (draws n n_sub g n_perm).2).
Proof.
  intros HA HB Hn Hsub Ht Hperm Hne HB_in.
  destruct (peak_latency_Some results_B t) as [peak_B HpB];
    [destruct HB as [Hl _]; destruct results_B; simpl in Hl; [lia|discriminate]
    | exact (proj2 HB) | exact Ht |].
  destruct (difference_loop results_A results_B n t n_sub HA HB Hn Hsub Ht
              n_perm 0 (replicate n_perm 0%Z) peak_A g)
    as (bt & pA' & Hrun & Hlen & _ & Hlast).
  { rewrite length_replicate. lia. }
  rewrite length_replicate in Hlen.
  destruct (proj2 (last_is_Some (draws n n_sub g n_perm).1)) as [idx Hidx].
  { intros Hnil. pose proof (draws_length n n_sub n_perm g) as Hl.
    rewrite Hnil in Hl. simpl in Hl. lia. }
  destruct (Hlast idx Hidx) as (M & HM & HpA').
  destruct (difference_CI_Some bt n_perm (peak_A - peak_B)%Z Hlen Hperm)
    as (lo & up & Hci & _).
  exists peak_B, lo, up, pA', idx, M.
  split; [exact HpB|]. split; [exact Hidx|]. split; [exact HM|].
  split; [exact HpA'|].
  unfold Peaks.compare. destruct (decide (feature_A = feature_B)); [contradiction|].
  rewrite HB_in. cbn [mbind option_bind]. rewrite HpB.
  cbn [mbind option_bind fst snd]. rewrite Hrun. cbn [mbind option_bind].
  rewrite Hci. reflexivity.
Qed.

(** From the second comparison of a feature on, the stored difference
    of the peaks does not start from the peak of feature A in the data:
    [peak_A] has been overwritten in the loop over [perm], so the middle
    entry is the peak of the last bootstrap resample of the previous
    comparison minus the peak of feature B. *)
Theorem second_comparison_uses_bootstrap_peak `{NumpyRandom}
    (results_dict : gmap string matrix) (feature_A feature_B1 feature_B2 : string)
    (results_A results_B1 results_B2 : matrix) (n t n_sub n_perm : nat)
    (peak_A : Z) (pairwise_p : gmap string (R * Z * R)) (g : rng) :
  has_shape n t results_A -> has_shape n t results_B1 ->
  has_shape n t results_B2 ->
  (0 < n)%nat -> (0 < n_sub)%nat -> (0 < t <= 70)%nat -> (40 <= n_perm)%nat ->
  feature_A <> feature_B1 -> feature_A <> feature_B2 ->
  results_dict !! feature_B1 = Some results_B1 ->
  results_dict !! feature_B2 = Some results_B2 ->
  exists st1 st2 idx M bootstrap_peak peak_B2 lower_CI upper_CI,
    Peaks.compare results_dict n_sub n_perm feature_A results_A feature_B1
      (peak_A, pairwise_p, g) = Some st1
    /\ Peaks.compare results_dict n_sub n_perm feature_A results_A feature_B2
         st1 = Some st2
    /\ last (draws n n_sub g n_perm).1 = Some idx
    /\ take_rows results_A idx = Some M
    /\ Bootstrap.peak_latency M = Some bootstrap_peak
    /\ Bootstrap.peak_latency results_B2 = Some peak_B2
    /\ st2.1.2 !! Peaks.str_comparison feature_A feature_B2
       = Some (lower_CI, (bootstrap_peak - peak_B2)%Z, upper_CI).
Proof.
  intros HA HB1 HB2 Hn Hsub Ht Hperm Hne1 Hne2 Hin1 Hin2.
  destruct (compare_spec results_dict feature_A feature_B1 results_A results_B1
              n t n_sub n_perm peak_A pairwise_p g HA HB1 Hn Hsub Ht Hperm Hne1 Hin1)
    as (pB1 & lo1 & up1 & pA' & idx & M & _ & Hidx & HM & HpA' & Hc1).
  destruct (compare_spec results_dict feature_A feature_B2 results_A results_B2
              n t n_sub n_perm pA'
              (<[Peaks.str_comparison feature_A feature_B1
                 := (lo1, (peak_A - pB1)%Z, up1)]> pairwise_p)
              (draws n n_sub g n_perm).2 HA HB2 Hn Hsub Ht Hperm Hne2 Hin2)
    as (pB2 & lo2 & up2 & pA'' & idx2 & M2 & HpB2 & _ & _ & _ & Hc2).
  eexists _, _, idx, M, pA', pB2, lo2, up2.
  split; [exact Hc1|]. split; [exact Hc2|].
  split; [exact Hidx|]. split; [exact HM|]. split; [exact HpA'|].
  split; [exact HpB2|]. cbn [fst snd]. apply lookup_insert_eq.
Qed.

Lemma second_comparison_uses_bootstrap_peak_witness :
  exists st1 st2 idx M bootstrap_peak peak_B2 lower_CI upper_CI,
    @Peaks.compare counter_rng
      (<["edges"%string := [[2; 1]; [3; 4]]]>
        (<["world_normal"%string := [[0; 1]; [0; 3]]]> ∅))
      2 40 "scene_depth" [[1; 2]; [4; 1]] "edges" ((-400)%Z, ∅, 1%nat) = Some st1
    /\ @Peaks.compare counter_rng
         (<["edges"%string := [[2; 1]; [3; 4]]]>
           (<["world_normal"%string := [[0; 1]; [0; 3]]]> ∅))
         2 40 "scene_depth" [[1; 2]; [4; 1]] "world_normal" st1 = Some st2
    /\ last (@draws counter_rng 2 2 1%nat 40).1 = Some idx
    /\ take_rows [[1; 2]; [4; 1]] idx = Some M
    /\ Bootstrap.peak_latency M = Some bootstrap_peak
    /\ Bootstrap.peak_latency [[0; 1]; [0; 3]] = Some peak_B2
    /\ st2.1.2 !! Peaks.str_comparison "scene_depth" "world_normal"
       = Some (lower_CI, (bootstrap_peak - peak_B2)%Z, upper_CI).
Proof.
  apply (@second_comparison_uses_bootstrap_peak counter_rng
           (<["edges"%string := [[2; 1]; [3; 4]]]>
             (<["world_normal"%string := [[0; 1]; [0; 3]]]> ∅))
           "scene_depth" "edges" "world_normal"
           [[1; 2]; [4; 1]] [[2; 1]; [3; 4]] [[0; 1]; [0; 3]] 2 2 2 40
           (-400)%Z ∅ 1%nat);
    try lia; try discriminate; try reflexivity;
    (split; [reflexivity | repeat constructor]).
Defined.

(** On the data of the example above the peak of feature A is -400 ms,
    while the last of 40 resamples peaks at -380 ms. *)
Example bootstrap_peak_differs_from_data_peak :
  Bootstrap.peak_latency [[1; 2]; [4; 1]] = Some (-400)%Z
  /\ last (@draws counter_rng 2 2 1%nat 40).1 = Some [0; 0]%nat
  /\ take_rows [[1; 2]; [4; 1]] [0; 0]%nat = Some [[1; 2]; [1; 2]]
  /\ Bootstrap.peak_latency [[1; 2]; [1; 2]] = Some (-380)%Z.
Proof.
  split; [|split; [reflexivity|split; [reflexivity|]]].
  - unfold Bootstrap.peak_latency, mean_axis0, sum_axis0, col, Rsum, argmax.
    simpl. destruct (Rlt_dec _ _) as [Hlt|_]; [lra|]. reflexivity.
  - unfold Bootstrap.peak_latency, mean_axis0, sum_axis0, col, Rsum, argmax.
    simpl. destruct (Rlt_dec _ _) as [_|Hge]; [reflexivity|lra].
Qed.

(** ** Which pairs of features are compared *)

Lemma feature_names_NoDup : NoDup Peaks.feature_names.
Proof. apply (bool_decide_unpack _). vm_compute. exact I. Qed.

Section Pairwise.
Context `{NumpyRandom}.
Variables (results_dict : gmap string matrix) (n t n_sub n_perm : nat).
Hypothesis all_features : forall feature, feature ∈ Peaks.feature_names ->
  exists results, results_dict !! feature = Some results
    /\ has_shape n t results.
Hypothesis n_pos : (0 < n)%nat.
Hypothesis n_sub_pos : (0 < n_sub)%nat.
Hypothesis t_bounds : (0 < t <= 70)%nat.
Hypothesis n_perm_40 : (40 <= n_perm)%nat.

(** The loop over [feature2] for feature A at position [i]: one entry
    per earlier feature is added, none is removed. *)
Lemma comparisons_of_feature (i : nat) (feature_A : string) (results_A : matrix)
    (peak_A : Z) (pairwise_p : gmap string (R * Z * R)) (g : rng) :
  Peaks.feature_names !! i = Some feature_A ->
  has_shape n t results_A ->
  exists st,
    for_each (fun feature2 st =>
      feature_B ← Peaks.feature_names !! feature2;
      Peaks.compare results_dict n_sub n_perm feature_A results_A feature_B st)
      (seq 0 (i + 1)) (peak_A, pairwise_p, g) = Some st
    /\ forall key, is_Some (st.1.2 !! key) <->
         is_Some (pairwise_p !! key)
         \/ exists j feature_B, (j < i)%nat
              /\ Peaks.feature_names !! j = Some feature_B
              /\ key = Peaks.str_comparison feature_A feature_B.
Proof.
  intros HA Hshape.
  pose (Q := fun (k : nat) (st : Z * gmap string (R * Z * R) * rng) =>
    forall key, is_Some (st.1.2 !! key) <->
      is_Some (pairwise_p !! key)
      \/ exists j feature_B, (j < k)%nat /\ (j < i)%nat
           /\ Peaks.feature_names !! j = Some feature_B
           /\ key = Peaks.str_comparison feature_A feature_B).
  destruct (for_each_seq_total Q
    (fun feature2 st =>
      feature_B ← Peaks.feature_names !! feature2;
      Peaks.compare results_dict n_sub n_perm feature_A results_A feature_B st)
    (i + 1) 0 (peak_A, pairwise_p, g)) as (st & Hrun & Hst).
  - intros key. cbn [fst snd]. split; [tauto|].
    intros [Hk|(j & B & Hj & _)]; [exact Hk|lia].
  - intros j [[pA P] g0] [_ Hj] HQ. simpl in Hj.
    destruct (lookup_lt_is_Some_2 Peaks.feature_names j) as [B HB].
    { apply lookup_lt_Some in HA. lia. }
    rewrite HB. cbn [mbind option_bind].
    destruct (decide (j = i)) as [->|Hne].
    + assert (B = feature_A) by congruence. subst B.
      exists (pA, P, g0). split.
      * unfold Peaks.compare. destruct (decide (feature_A = feature_A));
          [reflexivity|congruence].
      * intros key. rewrite (HQ key). split;
          (intros [Hk|(j & B & Hj1 & Hj2 & Hrest)]; [left; exact Hk|]);
          right; exists j, B; (split; [lia|]); (split; [lia|]); exact Hrest.
    + assert (HAB : feature_A <> B).
      { intros ->. apply Hne.
        exact (NoDup_lookup _ _ _ _ feature_names_NoDup HB HA). }
      destruct (all_features B (list_elem_of_lookup_2 _ _ _ HB))
        as (results_B & HBin & HBshape).
      destruct (compare_spec results_dict feature_A B results_A results_B
                  n t n_sub n_perm pA P g0 Hshape HBshape n_pos n_sub_pos
                  t_bounds n_perm_40 HAB HBin)
        as (pB & lo & up & pA' & idx & M & _ & _ & _ & _ & Hc).
      eexists. split; [exact Hc|].
      intros key. unfold Q in HQ |- *. cbn [fst snd] in HQ |- *.
      rewrite lookup_insert_is_Some', (HQ key). split.
      * intros [<-|[Hk|(j' & B' & Hj1 & Hj2 & Hrest)]].
        -- right. exists j, B. repeat split; [lia|lia|exact HB].
        -- left. exact Hk.
        -- right. exists j', B'. split; [lia|]. split; [lia|]. exact Hrest.
      * intros [Hk|(j' & B' & Hj1 & Hj2 & HB' & ->)].
        -- right. left. exact Hk.
        -- destruct (decide (j' = j)) as [->|Hne'].
           ++ left. congruence.
           ++ right. right. exists j', B'. repeat split; [lia|lia|exact HB'].
  - exists st. split; [exact Hrun|]. intros key. rewrite (Hst key). split;
      (intros [Hk|(j & B & Hrest)]; [left; exact Hk|]); right; exists j, B.
    + destruct Hrest as (_ & Hj & Hrest). split; [exact Hj|exact Hrest].
    + destruct Hrest as (Hj & Hrest). split; [lia|]. split; [exact Hj|exact Hrest].
Qed.
End Pairwise.

(** STEP 2.9 and 2.10 run to their end when every feature has results of
    one shape and there are at least 40 resamples.  The keys of the
    dictionary are then exactly the names ["A vs. B"] with [B] a feature
    listed before [A]: every pair is compared, in this one direction. *)
Theorem pairwise_compares_every_pair `{NumpyRandom}
    (results_dict : gmap string matrix) (n t n_sub n_perm : nat) (g : rng) :
  (forall feature, feature ∈ Peaks.feature_names ->
     exists results, results_dict !! feature = Some results
       /\ has_shape n t results) ->
  (0 < n)%nat -> (0 < n_sub)%nat -> (0 < t <= 70)%nat -> (40 <= n_perm)%nat ->
  exists pairwise_p g',
    Peaks.pairwise results_dict n_sub n_perm g = Some (pairwise_p, g')
    /\ forall key, is_Some (pairwise_p !! key) <->
         exists i j feature_A feature_B, (j < i)%nat
           /\ Peaks.feature_names !! i = Some feature_A
           /\ Peaks.feature_names !! j = Some feature_B
           /\ key = Peaks.str_comparison feature_A feature_B.
Proof.
  intros Hall Hn Hsub Ht Hperm.
  pose (P := fun (k : nat) (st : gmap string (R * Z * R) * rng) =>
    forall key, is_Some (st.1 !! key) <->
      exists i j feature_A feature_B, (j < i)%nat /\ (i < k)%nat
        /\ Peaks.feature_names !! i = Some feature_A
        /\ Peaks.feature_names !! j = Some feature_B
        /\ key = Peaks.str_comparison feature_A feature_B).
  destruct (for_each_seq_total P
    (fun feature1 st =>
      feature_A ← Peaks.feature_names !! feature1;
      let num_comparisons := (feature1 + 1)%nat in
      results_feature_A ← results_dict !! feature_A;
      peak_A ← Bootstrap.peak_latency results_feature_A;
      '(_, pairwise_p, g) ←
        for_each (fun feature2 st =>
          feature_B ← Peaks.feature_names !! feature2;
          Peaks.compare results_dict n_sub n_perm feature_A results_feature_A
            feature_B st) (seq 0 num_comparisons) (peak_A, st.1, st.2);
      Some (pairwise_p, g))
    (length Peaks.feature_names) 0 (∅, g)) as ([pairwise_p g'] & Hrun & Hst).
  - intros key. cbn [fst]. rewrite lookup_empty. split.
    + intros [? Hx]. discriminate.
    + intros (i & j & A & B & _ & Hi & _). lia.
  - intros i [P0 g0] [_ Hi] HP. simpl in Hi.
    destruct (lookup_lt_is_Some_2 Peaks.feature_names i) as [A HA]; [exact Hi|].
    destruct (Hall A (list_elem_of_lookup_2 _ _ _ HA)) as (RA & HRA & HshapeA).
    destruct (peak_latency_Some RA t) as [pA HpA];
      [destruct HshapeA as [Hl _]; destruct RA; simpl in Hl; [lia|discriminate]
      | exact (proj2 HshapeA) | exact Ht |].
    destruct (comparisons_of_feature results_dict n t n_sub n_perm Hall Hn Hsub
                Ht Hperm i A RA pA P0 g0 HA HshapeA) as ([[pA' P1] g1] & Hloop & Hkeys).
    exists (P1, g1). split.
    + rewrite HA. cbn [mbind option_bind]. rewrite HRA. cbn [mbind option_bind].
      rewrite HpA. cbn [mbind option_bind fst snd]. rewrite Hloop. reflexivity.
    + intros key. unfold P in HP |- *. cbn [fst snd] in HP, Hkeys |- *.
      rewrite (Hkeys key), (HP key). split.
      * intros [(i' & j & A' & B & Hj & Hi' & Hrest)|(j & B & Hj & HB & ->)].
        -- exists i', j, A', B. split; [exact Hj|]. split; [lia|exact Hrest].
        -- exists i, j, A, B. repeat split; [exact Hj|lia|exact HA|exact HB].
      * intros (i' & j & A' & B & Hj & Hi' & HA' & HB & ->).
        destruct (decide (i' = i)) as [->|Hne].
        -- right. exists j, B. assert (A' = A) by congruence. subst A'.
           repeat split; [exact Hj|exact HB].
        -- left. exists i', j, A', B. repeat split; [exact Hj|lia|exact HA'|exact HB].
  - exists pairwise_p, g'. split; [exact Hrun|].
    intros key. rewrite (Hst key). split.
    + intros (i & j & A & B & Hj & _ & Hrest). exists i, j, A, B.
      split; [exact Hj|exact Hrest].
    + intros (i & j & A & B & Hj & HA & Hrest). exists i, j, A, B.
      split; [exact Hj|]. split; [|split; [exact HA|exact Hrest]].
      apply lookup_lt_Some in HA. simpl. exact HA.
Qed.

Lemma pairwise_compares_every_pair_witness :
  exists pairwise_p g',
    @Peaks.pairwise counter_rng
      (gset_to_gmap [[1; 2]; [4; 1]] (list_to_set Peaks.feature_names))
      2 40 0%nat = Some (pairwise_p, g')
    /\ forall key, is_Some (pairwise_p !! key) <->
         exists i j feature_A feature_B, (j < i)%nat
           /\ Peaks.feature_names !! i = Some feature_A
           /\ Peaks.feature_names !! j = Some feature_B
           /\ key = Peaks.str_comparison feature_A feature_B.
Proof.
  apply (@pairwise_compares_every_pair counter_rng
           (gset_to_gmap [[1; 2]; [4; 1]] (list_to_set Peaks.feature_names))
           2 2 2 40 0%nat); try lia.
  intros feature Hf. exists [[1; 2]; [4; 1]]. split.
  - apply lookup_gset_to_gmap_Some. split; [|reflexivity].
    apply elem_of_list_to_set. exact Hf.
  - split; [reflexivity | repeat constructor].
Defined.

(** ** Ranks and p-values of the permutation test *)

Lemma count_less_equal_le (x : R) (v : vec) :
  (PValues.count_less x v + PValues.count_equal x v <= length v)%nat.
Proof.
  induction v as [|y v IH]; simpl; [lia|].
  destruct (Rlt_dec y x) as [Hlt|Hge], (Req_dec_T y x) as [Heq|Hne]; try lia.
  lra.
Qed.

Lemma count_equal_pos (x : R) (v : vec) :
  x ∈ v -> (1 <= PValues.count_equal x v)%nat.
Proof.
  induction v as [|y v IH]; intros Hx.
  - apply elem_of_nil in Hx. contradiction.
  - simpl. apply elem_of_cons in Hx as [->|Hx].
    + destruct (Req_dec_T y y); [lia|congruence].
    + specialize (IH Hx). lia.
Qed.

(** A rank lies between 1 and the number of values. *)
Lemma rank_bounds (x : R) (v : vec) : x ∈ v ->
  1 <= INR (PValues.count_less x v) + (INR (PValues.count_equal x v) + 1) / 2
    <= INR (length v).
Proof.
  intros Hx.
  pose proof (count_less_equal_le x v) as Hle.
  pose proof (count_equal_pos x v Hx) as Hpos.
  apply le_INR in Hle, Hpos. rewrite plus_INR in Hle.
  change (INR 1) with 1 in Hpos.
  pose proof (pos_INR (PValues.count_less x v)). lra.
Qed.

Lemma rankdata_head (x : R) (v : vec) :
  nth 0 (PValues.rankdata (x :: v)) 0
  = INR (PValues.count_less x (x :: v))
    + (INR (PValues.count_equal x (x :: v)) + 1) / 2.
Proof. reflexivity. Qed.

Lemma apply_along_axis0_row0 (f : vec -> vec) (M : matrix) :
  M <> [] ->
  PValues.apply_along_axis0 f M !! 0%nat
  = Some (map (fun j => nth 0 (f (col j M)) 0) (seq 0 (shape1 M))).
Proof.
  intros HM. unfold PValues.apply_along_axis0, shape0.
  destruct M as [|r M]; [congruence|]. cbn [length seq map lookup list_lookup].
  now rewrite map_map.
Qed.

(** The p-value of an entry whose column is not empty. *)
Lemma p_value_bounds (n_perm : nat) (c : vec) :
  length c = n_perm -> (0 < n_perm)%nat ->
  1 / INR n_perm
  <= (INR (n_perm + 1) - nth 0 (PValues.rankdata c) 0) / INR n_perm <= 1.
Proof.
  intros Hlen Hn. destruct c as [|x c]; [simpl in Hlen; lia|].
  rewrite rankdata_head.
  pose proof (rank_bounds x (x :: c) ltac:(apply list_elem_of_here)) as [Hlo Hhi].
  rewrite Hlen in Hhi.
  assert (Hpos : 0 < INR n_perm) by (apply lt_0_INR; exact Hn).
  rewrite plus_INR. change (INR 1) with 1.
  split.
  - apply Rmult_le_reg_r with (INR n_perm); [exact Hpos|].
    unfold Rdiv. rewrite !Rmult_assoc, Rinv_l by lra. lra.
  - apply Rmult_le_reg_r with (INR n_perm); [exact Hpos|].
    unfold Rdiv. rewrite !Rmult_assoc, Rinv_l by lra. lra.
Qed.

Lemma p_values_of_ranked (M : matrix) (n_perm t : nat) :
  has_shape n_perm t M -> (0 < n_perm)%nat ->
  exists p,
    (map (map (fun r => (INR (n_perm + 1) - r) / INR n_perm))
       (PValues.apply_along_axis0 PValues.rankdata M)) !! 0%nat = Some p
    /\ length p = t
    /\ Forall (fun x => 1 / INR n_perm <= x <= 1) p.
Proof.
  intros Hshape Hn.
  assert (HM : M <> []).
  { destruct Hshape as [Hl _]. destruct M; simpl in Hl; [lia|discriminate]. }
  rewrite map_fmap, list_lookup_fmap, (apply_along_axis0_row0 _ M HM).
  rewrite (shape1_of_shape n_perm t M Hshape Hn). cbn [fmap option_fmap option_map].
  eexists. split; [reflexivity|]. split.
  - now rewrite !length_map, length_seq.
  - rewrite map_map. apply Forall_forall. intros x Hx.
    rewrite map_fmap in Hx. apply list_elem_of_fmap in Hx as (j & -> & _).
    apply p_value_bounds; [|exact Hn].
    rewrite length_col. exact (proj1 Hshape).
Qed.

Lemma has_shape_map (f : R -> R) (n t : nat) (M : matrix) :
  has_shape n t M -> has_shape n t (map (map f) M).
Proof.
  intros [Hl Hr]. split; [now rewrite length_map|].
  rewrite map_fmap. apply Forall_fmap. eapply Forall_impl; [exact Hr|].
  intros row Hrow. simpl. now rewrite length_map.
Qed.

Lemma p_values_range (stat_map : matrix) (n_perm t : nat) (tail : string) :
  has_shape n_perm t stat_map -> (0 < n_perm)%nat ->
  tail = "right"%string \/ tail = "both"%string ->
  exists p, PValues.p_values stat_map n_perm tail = Some p
    /\ length p = t
    /\ Forall (fun x => 1 / INR n_perm <= x <= 1) p.
Proof.
  intros Hshape Hn [->| ->]; unfold PValues.p_values; cbn [String.eqb Ascii.eqb Bool.eqb];
    cbn [mbind option_bind].
  - apply p_values_of_ranked; assumption.
  - apply p_values_of_ranked; [apply has_shape_map; exact Hshape | exact Hn].
Qed.

(** ** The statistical map of the permutation test *)

Lemma set_row_spec (M : matrix) (n t r : nat) (v : vec) :
  has_shape n t M -> (r < n)%nat -> length v = t ->
  set_row M r v = Some (<[r := v]> M) /\ has_shape n t (<[r := v]> M).
Proof.
  intros [Hlen Hrows] Hr Hv.
  destruct (lookup_lt_is_Some_2 M r) as [old Hold]; [lia|].
  assert (Hlo : length old = t).
  { rewrite Forall_forall in Hrows. apply Hrows.
    apply (list_elem_of_lookup_2 _ _ _ Hold). }
  split.
  - unfold set_row. rewrite Hold. cbn [mbind option_bind].
    unfold broadcast_to. destruct (decide (length v = length old)); [reflexivity|lia].
  - split; [now rewrite length_insert|].
    apply Forall_insert; assumption.
Qed.

Lemma length_flip (results : matrix) (signs : vec) :
  length signs = length results ->
  length (PermTest.flip results signs) = length results.
Proof. intros Hl. unfold PermTest.flip. rewrite length_zip_with. lia. Qed.

Lemma shape1_flip (results : matrix) (signs : vec) :
  results <> [] -> signs <> [] ->
  shape1 (PermTest.flip results signs) = shape1 results.
Proof.
  intros Hr Hs. destruct results as [|row results]; [congruence|].
  destruct signs as [|s signs]; [congruence|]. simpl. apply length_map.
Qed.

Lemma random_signs_Some `{NumpyRandom} (n : nat) (g : rng) :
  exists signs g', PermTest.random_signs n g = Some (signs, g')
    /\ length signs = n.
Proof.
  destruct (choice_Some [-1; 1] n g) as (s & Hs & Hl & _); [discriminate|].
  exists s, (randint (length [-1; 1]) n g).2. split; assumption.
Qed.

Section NullDistribution.
Context `{NumpyRandom}.
Variables (results_f_vid results_f_img : matrix) (n_sub_vid n_sub_img t : nat).
Hypothesis shape_vid : has_shape n_sub_vid t results_f_vid.
Hypothesis shape_img : has_shape n_sub_img t results_f_img.
Hypothesis vid_pos : (0 < n_sub_vid)%nat.
Hypothesis img_pos : (0 < n_sub_img)%nat.

Lemma length_flipped_mean (results : matrix) (n : nat) (signs : vec) :
  has_shape n t results -> (0 < n)%nat -> length signs = n ->
  length (mean_axis0 (PermTest.flip results signs)) = t.
Proof.
  intros Hshape Hn Hs. rewrite length_mean_axis0, shape1_flip.
  - exact (shape1_of_shape n t results Hshape Hn).
  - destruct Hshape as [Hl _]. destruct results; simpl in Hl; [lia|discriminate].
  - destruct signs; simpl in Hs; [lia|discriminate].
Qed.

Lemma null_step_spec (n_perm permutation : nat) (stat_map : matrix) (g : rng) :
  has_shape n_perm t stat_map -> (permutation < n_perm)%nat ->
  exists t_stat g',
    PermTest.null_step results_f_vid results_f_img n_sub_vid n_sub_img
      permutation (stat_map, g) = Some (<[permutation := t_stat]> stat_map, g')
    /\ has_shape n_perm t (<[permutation := t_stat]> stat_map).
Proof.
  intros Hshape Hperm.
  destruct (random_signs_Some n_sub_vid g) as (sv & g1 & Hsv & Hlv).
  destruct (random_signs_Some n_sub_img g1) as (si & g2 & Hsi & Hli).
  pose (t_stat := zip_with Rminus (mean_axis0 (PermTest.flip results_f_img si))
                                  (mean_axis0 (PermTest.flip results_f_vid sv))).
  assert (Hlt : length t_stat = t).
  { unfold t_stat. rewrite length_zip_with.
    rewrite (length_flipped_mean results_f_img n_sub_img si shape_img img_pos Hli).
    rewrite (length_flipped_mean results_f_vid n_sub_vid sv shape_vid vid_pos Hlv).
    lia. }
  destruct (set_row_spec stat_map n_perm t permutation t_stat Hshape Hperm Hlt)
    as [Hset Hsh].
  exists t_stat, g2. split; [|exact Hsh].
  unfold PermTest.null_step. cbn [fst snd]. rewrite Hsv.
  cbn [mbind option_bind]. rewrite Hsi. cbn [mbind option_bind].
  fold t_stat. rewrite Hset. reflexivity.
Qed.

Lemma null_distribution_spec (n_perm : nat) (g : rng) : (0 < n_perm)%nat ->
  exists stat_map g',
    PermTest.null_distribution results_f_vid results_f_img n_sub_vid n_sub_img
      n_perm t g = Some (stat_map, g')
    /\ has_shape n_perm t stat_map
    /\ stat_map !! 0%nat
       = Some (zip_with Rminus (mean_axis0 results_f_vid)
                               (mean_axis0 results_f_img)).
Proof.
  intros Hn.
  pose (t_stat := zip_with Rminus (mean_axis0 results_f_vid)
                                  (mean_axis0 results_f_img)).
  assert (Hlt : length t_stat = t).
  { unfold t_stat. rewrite length_zip_with, !length_mean_axis0.
    rewrite (shape1_of_shape _ _ _ shape_vid vid_pos).
    rewrite (shape1_of_shape _ _ _ shape_img img_pos). lia. }
  assert (Hz : has_shape n_perm t (zeros n_perm t)).
  { split; [apply length_replicate|]. apply Forall_replicate, length_replicate. }
  destruct (set_row_spec (zeros n_perm t) n_perm t 0 t_stat Hz Hn Hlt) as [Hset Hsh].
  pose (P := fun (_ : nat) (st : matrix * rng) =>
    has_shape n_perm t st.1 /\ st.1 !! 0%nat = Some t_stat).
  destruct (for_each_seq_total P
    (PermTest.null_step results_f_vid results_f_img n_sub_vid n_sub_img)
    (n_perm - 1) 1 (<[0%nat := t_stat]> (zeros n_perm t), g))
    as ([stat_map g'] & Hrun & Hsh' & Hrow0).
  - split; [exact Hsh|]. cbn [fst]. apply list_lookup_insert_eq.
    unfold zeros. rewrite length_replicate. exact Hn.
  - intros i [M g0] Hi [HshM Hrow]. cbn [fst snd] in *.
    destruct (null_step_spec n_perm i M g0 HshM) as (ts & g1 & Hstep & Hsh1); [lia|].
    exists (<[i := ts]> M, g1). split; [exact Hstep|].
    unfold P. cbn [fst]. split; [exact Hsh1|].
    rewrite list_lookup_insert_ne by lia. exact Hrow.
  - exists stat_map, g'. split; [|split; [exact Hsh'|exact Hrow0]].
    unfold PermTest.null_distribution. cbn zeta. fold t_stat.
    rewrite Hset. cbn [mbind option_bind]. exact Hrun.
Qed.
End NullDistribution.

(** STEP 2.3 and 2.4 run to their end for any two groups with at least
    one subject each and give one p-value per timepoint; a p-value is
    never below [1 / n_perm] and never above 1. *)
Theorem permutation_p_values_in_range `{NumpyRandom}
    (results_f_vid results_f_img : matrix)
    (n_sub_vid n_sub_img n_perm t : nat) (tail : string) (g : rng) :
  has_shape n_sub_vid t results_f_vid -> has_shape n_sub_img t results_f_img ->
  (0 < n_sub_vid)%nat -> (0 < n_sub_img)%nat -> (0 < n_perm)%nat ->
  tail = "right"%string \/ tail = "both"%string ->
  exists p_values g',
    PValues.uncorrected results_f_vid results_f_img n_sub_vid n_sub_img
      n_perm t tail g = Some (p_values, g')
    /\ length p_values = t
    /\ Forall (fun p => 1 / INR n_perm <= p <= 1) p_values.
Proof.
  intros Hv Hi Hnv Hni Hn Htail.
  destruct (null_distribution_spec results_f_vid results_f_img n_sub_vid
              n_sub_img t Hv Hi Hnv Hni n_perm g Hn)
    as (stat_map & g' & Hnull & Hshape & _).
  destruct (p_values_range stat_map n_perm t tail Hshape Hn Htail)
    as (p & Hp & Hlen & Hrange).
  exists p, g'. split; [|split; assumption].
  unfold PValues.uncorrected. rewrite Hnull. cbn [mbind option_bind].
  rewrite Hp. reflexivity.
Qed.

Lemma permutation_p_values_in_range_witness :
  exists p_values g',
    @PValues.uncorrected counter_rng [[1; 2]; [3; 5]] [[0; 1]] 2 1 4 2
      "both" 0%nat = Some (p_values, g')
    /\ length p_values = 2%nat
    /\ Forall (fun p => 1 / INR 4 <= p <= 1) p_values.
Proof.
  apply (@permutation_p_values_in_range counter_rng [[1; 2]; [3; 5]] [[0; 1]]
           2 1 4 2 "both" 0%nat); try lia;
    [split; [reflexivity | repeat constructor]
    |split; [reflexivity | repeat constructor]
    |right; reflexivity].
Defined.

(** ** The sign of the permuted rows and the tail of the test *)

Lemma map_Rabs_Ropp (rows : matrix) :
  map (map Rabs) (map (map Ropp) rows) = map (map Rabs) rows.
Proof.
  rewrite map_map. apply map_ext. intros row. rewrite map_map.
  apply map_ext. intros x. apply Rabs_Ropp.
Qed.

(** The two-sided p-values do not depend on the sign of the permuted
    rows: negating every row but the observed one leaves them as they
    are.  The one-sided p-values do depend on it. *)
Theorem two_sided_p_values_ignore_sign :
  (forall (observed : vec) (permuted : matrix) (n_perm : nat),
     PValues.p_values (observed :: map (map Ropp) permuted) n_perm "both"
     = PValues.p_values (observed :: permuted) n_perm "both")
  /\ PValues.p_values [[1]; [2]] 2 "right" = Some [1]
  /\ PValues.p_values [[1]; [-2]] 2 "right" = Some [1 / 2].
Proof.
  split; [|split].
  - intros observed permuted n_perm. unfold PValues.p_values.
    cbn [String.eqb Ascii.eqb Bool.eqb mbind option_bind].
    change (map (map Rabs) (observed :: map (map Ropp) permuted))
      with (map Rabs observed :: map (map Rabs) (map (map Ropp) permuted)).
    now rewrite map_Rabs_Ropp.
  - unfold PValues.p_values, PValues.apply_along_axis0, PValues.rankdata.
    cbn [String.eqb Ascii.eqb Bool.eqb mbind option_bind shape1 shape0 length
         seq map col nth PValues.count_less PValues.count_equal
         lookup list_lookup].
    destruct (Rlt_dec 1 1) as [?|_]; [lra|].
    destruct (Rlt_dec 2 1) as [?|_]; [lra|].
    destruct (Req_dec_T 1 1) as [_|?]; [|congruence].
    destruct (Req_dec_T 2 1) as [?|_]; [lra|].
    do 2 f_equal. simpl. lra.
  - unfold PValues.p_values, PValues.apply_along_axis0, PValues.rankdata.
    cbn [String.eqb Ascii.eqb Bool.eqb mbind option_bind shape1 shape0 length
         seq map col nth PValues.count_less PValues.count_equal
         lookup list_lookup].
    destruct (Rlt_dec 1 1) as [?|_]; [lra|].
    destruct (Rlt_dec (-2) 1) as [_|?]; [|lra].
    destruct (Req_dec_T 1 1) as [_|?]; [|congruence].
    destruct (Req_dec_T (-2) 1) as [?|_]; [lra|].
    do 2 f_equal. simpl. lra.
Qed.

(** ** The smallest p-value *)

Lemma count_all_less (x : R) (v : vec) :
  Forall (fun y => y < x) v ->
  PValues.count_less x v = length v /\ PValues.count_equal x v = 0%nat.
Proof.
  induction 1 as [|y v Hy _ [IH1 IH2]]; [split; reflexivity|].
  simpl. destruct (Rlt_dec y x) as [_|?]; [|contradiction].
  destruct (Req_dec_T y x) as [?|_]; [lra|]. rewrite IH1, IH2. split; reflexivity.
Qed.

(** At a timepoint where the observed statistic is strictly above every
    permuted one, the one-sided p-value is [1 / n_perm], the smallest
    value a p-value can take. *)
Theorem p_value_of_largest_statistic (observed : vec) (permuted : matrix)
    (n_perm t j : nat) :
  has_shape n_perm t (observed :: permuted) -> (j < t)%nat ->
  Forall (fun row => nth j row 0 < nth j observed 0) permuted ->
  exists p_values,
    PValues.p_values (observed :: permuted) n_perm "right" = Some p_values
    /\ p_values !! j = Some (1 / INR n_perm).
Proof.
  intros Hshape Hj Hless.
  assert (Hn : n_perm = S (length permuted)) by (destruct Hshape as [<- _]; reflexivity).
  unfold PValues.p_values. cbn [String.eqb Ascii.eqb Bool.eqb mbind option_bind].
  rewrite map_fmap, list_lookup_fmap, apply_along_axis0_row0 by discriminate.
  cbn [fmap option_fmap option_map]. eexists. split; [reflexivity|].
  rewrite (shape1_of_shape n_perm t _ Hshape ltac:(lia)).
  rewrite map_map, map_fmap, list_lookup_fmap, lookup_seq_lt by exact Hj.
  cbn [fmap option_fmap option_map]. f_equal.
  change (col (0 + j) (observed :: permuted))
    with (nth j observed 0 :: col j permuted).
  rewrite rankdata_head.
  destruct (count_all_less (nth j observed 0) (col j permuted)) as [Hlt Heq].
  { unfold col. rewrite map_fmap. apply Forall_fmap. exact Hless. }
  cbn [PValues.count_less PValues.count_equal].
  destruct (Rlt_dec (nth j observed 0) (nth j observed 0)) as [?|_]; [lra|].
  destruct (Req_dec_T (nth j observed 0) (nth j observed 0)) as [_|?];
    [|congruence].
  rewrite Hlt, Heq, length_col, Hn. cbn [Nat.add].
  change (INR 1) with 1. rewrite !S_INR, plus_INR. change (INR 1) with 1.
  unfold Rdiv. f_equal. lra.
Qed.

Lemma p_value_of_largest_statistic_witness :
  exists p_values,
    PValues.p_values [[3; 0]; [1; 2]; [2; 5]] 3 "right" = Some p_values
    /\ p_values !! 0%nat = Some (1 / INR 3).
Proof.
  apply (p_value_of_largest_statistic [3; 0] [[1; 2]; [2; 5]] 3 2 0).
  - split; [reflexivity | repeat constructor].
  - lia.
  - repeat constructor; simpl; lra.
Defined.

(** * Properties of the annotation script *)

(** ** The one-hot code of the action *)

Lemma recode_lookup (action_column : list Z) (image : nat) (c : Z) :
  action_column !! image = Some c ->
  Annotation.recode action_column !! image
  = Some (Annotation.replace Annotation.actions c).
Proof.
  intros Hc. unfold Annotation.recode. rewrite map_fmap, list_lookup_fmap, Hc.
  reflexivity.
Qed.

Lemma argmax_one_hot (k : nat) : (k < 6)%nat ->
  argmax (<[k := 1]> (replicate 6 0)) = Some k.
Proof.
  intros Hk. do 6 (destruct k as [|k]; [
    cbn [replicate insert list_insert argmax argmax_from];
    repeat (destruct (Rlt_dec _ _) as [?|?]; try lra); reflexivity|]).
  lia.
Qed.

Lemma Rsum_one_hot (k : nat) : (k < 6)%nat ->
  Rsum (<[k := 1]> (replicate 6 0)) = 1.
Proof.
  intros Hk. do 6 (destruct k as [|k]; [unfold Rsum; simpl; lra|]). lia.
Qed.

(** For a video whose action is one of the six listed identities,
    [action] returns a vector of length 6 that has a single 1, at the
    position the dictionary assigns to the identity; the position is
    read back by [np.argmax], and two listed identities with the same
    vector are the same identity. *)
Theorem action_one_hot_round_trip (action_column : list Z) (image : nat) (c : Z) :
  action_column !! image = Some c -> c ∈ Annotation.actions.*1 ->
  exists k,
    (c, Z.of_nat k) ∈ Annotation.actions
    /\ Annotation.action (Annotation.recode action_column) image
       = Some (<[k := 1]> (replicate 6 0))
    /\ argmax (<[k := 1]> (replicate 6 0)) = Some k
    /\ Rsum (<[k := 1]> (replicate 6 0)) = 1
    /\ forall c', (c', Z.of_nat k) ∈ Annotation.actions -> c' = c.
Proof.
  intros Hc Hin.
  assert (Hk : exists k, (k < 6)%nat /\ (c, Z.of_nat k) ∈ Annotation.actions
             /\ Annotation.replace Annotation.actions c = Z.of_nat k
             /\ forall c', (c', Z.of_nat k) ∈ Annotation.actions -> c' = c).
  { apply list_elem_of_In in Hin. simpl in Hin.
    destruct Hin as [<-|[<-|[<-|[<-|[<-|[<-|[]]]]]]];
      [exists 0%nat | exists 1%nat | exists 2%nat
      | exists 3%nat | exists 4%nat | exists 5%nat];
      (split; [lia|]; split; [apply list_elem_of_In; simpl; tauto|];
       split; [reflexivity|]; intros c' Hc'; apply list_elem_of_In in Hc';
       simpl in Hc'; decompose [or] Hc'; try contradiction;
       match goal with E : (_, _) = (_, _) |- _ => injection E; intros; lia end). }
  destruct Hk as (k & Hk6 & Hpair & Hrep & Hinj).
  exists k. split; [exact Hpair|]. split; [|split; [|split]].
  - unfold Annotation.action. rewrite (recode_lookup _ _ _ Hc), Hrep.
    cbn [mbind option_bind]. unfold Annotation.numpy_index.
    rewrite length_replicate. change (length Annotation.actions) with 6%nat.
    destruct (Z.leb_spec 0 (Z.of_nat k)); [|lia].
    destruct (Z.ltb_spec (Z.of_nat k) (Z.of_nat 6)); [|lia].
    cbn [andb mbind option_bind]. now rewrite Nat2Z.id.
  - exact (argmax_one_hot k Hk6).
  - exact (Rsum_one_hot k Hk6).
  - exact Hinj.
Qed.

Lemma action_one_hot_round_trip_witness :
  exists k,
    (18%Z, Z.of_nat k) ∈ Annotation.actions
    /\ Annotation.action (Annotation.recode [1; 18; 30]%Z) 1
       = Some (<[k := 1]> (replicate 6 0))
    /\ argmax (<[k := 1]> (replicate 6 0)) = Some k
    /\ Rsum (<[k := 1]> (replicate 6 0)) = 1
    /\ forall c', (c', Z.of_nat k) ∈ Annotation.actions -> c' = 18%Z.
Proof.
  apply (action_one_hot_round_trip [1; 18; 30]%Z 1 18%Z).
  - reflexivity.
  - apply list_elem_of_In. simpl. tauto.
Defined.

(** ** Action identities outside the dictionary *)

Lemma replace_unlisted (d : list (Z * Z)) (c : Z) :
  c ∉ d.*1 -> Annotation.replace d c = c.
Proof.
  induction d as [|[k v] d IH]; intros Hc; [reflexivity|].
  cbn [fmap list_fmap fst] in Hc. apply not_elem_of_cons in Hc as [Hne Hc].
  simpl. destruct (Z.eqb_spec c k); [contradiction|]. apply IH, Hc.
Qed.

(** An identity that is not a key of the dictionary is not rejected as
    such: [replace] leaves it as it is and [action] uses it as an index.
    From -6 to 5 it yields the very vector of one of the six listed
    identities; anywhere else the assignment raises. *)
Theorem unlisted_action_code (action_column : list Z) (image : nat) (c : Z) :
  action_column !! image = Some c -> c ∉ Annotation.actions.*1 ->
  (Annotation.action (Annotation.recode action_column) image = None
   <-> (c < -6 \/ 6 <= c)%Z)
  /\ ((-6 <= c < 6)%Z ->
      exists c', c' ∈ Annotation.actions.*1
        /\ Annotation.action (Annotation.recode action_column) image
           = Annotation.action (Annotation.recode [c']) 0).
Proof.
  intros Hc Hout.
  assert (Hact : Annotation.action (Annotation.recode action_column) image
                 = k ← Annotation.numpy_index 6 c;
                   Some (<[k := 1]> (replicate 6 0))).
  { unfold Annotation.action.
    rewrite (recode_lookup _ _ _ Hc), (replace_unlisted _ _ Hout).
    reflexivity. }
  rewrite Hact. unfold Annotation.numpy_index. split.
  - destruct (Z.leb_spec 0 c), (Z.ltb_spec c (Z.of_nat 6)),
      (Z.leb_spec (- Z.of_nat 6) c), (Z.ltb_spec c 0);
      cbn [andb mbind option_bind]; split; intros Hx;
      try discriminate; try lia; reflexivity.
  - intros Hrange.
    assert (Hcases : (c = -6 \/ c = -5 \/ c = -4 \/ c = -3 \/ c = -2 \/ c = -1
                      \/ c = 0 \/ c = 1 \/ c = 2 \/ c = 3 \/ c = 4 \/ c = 5)%Z)
      by lia.
    assert (Hin : forall x, In x [1; 2; 9; 18; 19; 30]%Z ->
                    x ∈ Annotation.actions.*1).
    { intros x Hx. apply list_elem_of_In. exact Hx. }
    destruct Hcases as [->|[->|[->|[->|[->|[->|[->|[->|[->|[->|[->| ->]]]]]]]]]]];
      [exists 1%Z | exists 2%Z | exists 9%Z | exists 18%Z | exists 19%Z
      | exists 30%Z | exists 1%Z | exists 2%Z | exists 9%Z | exists 18%Z
      | exists 19%Z | exists 30%Z];
      (split; [apply Hin; simpl; tauto | reflexivity]).
Qed.

Lemma unlisted_action_code_witness :
  (Annotation.action (Annotation.recode [1; 3; 30]%Z) 1 = None
   <-> (3 < -6 \/ 6 <= 3)%Z)
  /\ ((-6 <= 3 < 6)%Z ->
      exists c', c' ∈ Annotation.actions.*1
        /\ Annotation.action (Annotation.recode [1; 3; 30]%Z) 1
           = Annotation.action (Annotation.recode [c']) 0).
Proof.
  apply (unlisted_action_code [1; 3; 30]%Z 1 3%Z).
  - reflexivity.
  - intros Hin. apply list_elem_of_In in Hin. simpl in Hin.
    decompose [or] Hin; try discriminate. contradiction.
Defined.

(** ** The split into training, validation and test videos *)

Lemma elem_of_zip_seq {A : Type} (l : list A) (i : nat) (x : A) :
  forall k n, (i, x) ∈ zip (seq k n) l
    <-> (k <= i < k + n)%nat /\ l !! (i - k)%nat = Some x.
Proof.
  induction l as [|y l IH]; intros k n.
  - destruct n; simpl; rewrite elem_of_nil; split; try tauto;
      intros [_ Hx]; discriminate.
  - destruct n as [|n].
    + simpl. rewrite elem_of_nil. split; [tauto|]. intros [Hk _]. lia.
    + cbn [seq zip zip_with]. rewrite elem_of_cons, (IH (S k) n). split.
      * intros [Heq|[Hk Hx]].
        -- injection Heq as -> ->. split; [lia|]. now rewrite Nat.sub_diag.
        -- split; [lia|]. replace (i - k)%nat with (S (i - S k)) by lia. exact Hx.
      * intros [Hk Hx]. destruct (decide (i = k)) as [->|Hne].
        -- left. rewrite Nat.sub_diag in Hx. simpl in Hx. congruence.
        -- right. split; [lia|].
           replace (i - k)%nat with (S (i - S k)) in Hx by lia. exact Hx.
Qed.

Lemma select_spec (code : Z) (split_data : list Z) (i : nat) :
  length split_data = Annotation.num_videos ->
  i ∈ Annotation.select code split_data <-> split_data !! i = Some code.
Proof.
  intros Hlen. unfold Annotation.select. rewrite map_fmap, list_elem_of_fmap.
  split.
  - intros ([j x] & -> & Hp). apply list_elem_of_filter in Hp as [Hcode Hp].
    apply elem_of_zip_seq in Hp as [_ Hx]. simpl in *.
    rewrite Nat.sub_0_r in Hx. congruence.
  - intros Hx. exists (i, code). split; [reflexivity|].
    apply list_elem_of_filter. split; [reflexivity|].
    apply elem_of_zip_seq. rewrite Nat.sub_0_r. split; [|exact Hx].
    apply lookup_lt_Some in Hx. lia.
Qed.

(** With one split code per video the three index arrays exist; a video
    is a training, validation or test video exactly when its code is 0,
    1 or 2, so no video is in two of them and a video with any other
    code is in none. *)
Theorem split_by_code (split_data : list Z) :
  length split_data = Annotation.num_videos ->
  exists train_data val_data test_data,
    Annotation.split split_data = Some (train_data, val_data, test_data)
    /\ forall video,
         (video ∈ train_data <-> split_data !! video = Some 0%Z)
         /\ (video ∈ val_data <-> split_data !! video = Some 1%Z)
         /\ (video ∈ test_data <-> split_data !! video = Some 2%Z).
Proof.
  intros Hlen. unfold Annotation.split.
  destruct (decide (length split_data = Annotation.num_videos)); [|contradiction].
  eexists _, _, _. split; [reflexivity|].
  intros video. repeat split; try (apply select_spec; exact Hlen).
Qed.

Lemma split_by_code_witness :
  exists train_data val_data test_data,
    Annotation.split (replicate 1440 2%Z) = Some (train_data, val_data, test_data)
    /\ forall video,
         (video ∈ train_data <-> replicate 1440 2%Z !! video = Some 0%Z)
         /\ (video ∈ val_data <-> replicate 1440 2%Z !! video = Some 1%Z)
         /\ (video ∈ test_data <-> replicate 1440 2%Z !! video = Some 2%Z).
Proof.
  apply (split_by_code (replicate 1440 2%Z)). apply length_replicate.
Defined.

(** * The correlation score once more *)

(** ** Correlation and a constant offset *)

Lemma Rsum_map_plus (a : R) (l : vec) :
  Rsum (map (fun v => v + a) l) = Rsum l + INR (length l) * a.
Proof.
  induction l as [|v l IH]; [simpl; lra|].
  change (Rsum (map (fun v => v + a) (v :: l)))
    with (v + a + Rsum (map (fun v => v + a) l)).
  change (Rsum (v :: l)) with (v + Rsum l).
  change (length (v :: l)) with (S (length l)). rewrite IH, S_INR. lra.
Qed.

Lemma nth_zip_with_Rplus (row c : vec) (j : nat) :
  length row = length c ->
  nth j (zip_with Rplus row c) 0 = nth j row 0 + nth j c 0.
Proof.
  revert c j. induction row as [|v row IH]; intros [|w c] [|j] Hl;
    simpl in *; try lia; try lra.
  apply IH. lia.
Qed.

Lemma col_add_offset (c : vec) (x : matrix) (t j : nat) :
  Forall (fun row => length row = t) x -> length c = t ->
  col j (add_offset c x) = map (fun v => v + nth j c 0) (col j x).
Proof.
  intros Hrows Hc. unfold col, add_offset. rewrite !map_map.
  apply map_ext_in. intros row Hrow. apply nth_zip_with_Rplus.
  rewrite Forall_forall in Hrows.
  rewrite (Hrows row); [now rewrite Hc|]. now apply list_elem_of_In.
Qed.

Lemma shape1_add_offset (c : vec) (x : matrix) (n t : nat) :
  has_shape n t x -> (0 < n)%nat -> length c = t ->
  shape1 (add_offset c x) = t.
Proof.
  intros [Hl Hrows] Hn Hc. destruct x as [|row x]; [simpl in Hl; lia|].
  simpl. inversion Hrows; subst. rewrite length_zip_with. lia.
Qed.

Lemma mean_axis0_add_offset (c : vec) (x : matrix) (n t : nat) :
  has_shape n t x -> (0 < n)%nat -> length c = t ->
  mean_axis0 (add_offset c x) = zip_with Rplus (mean_axis0 x) c.
Proof.
  intros Hshape Hn Hc. pose proof Hshape as [Hl Hrows].
  assert (Hpos : INR n <> 0) by (apply not_0_INR; lia).
  apply (nth_ext _ _ 0 0).
  - rewrite length_zip_with, !length_mean_axis0.
    rewrite (shape1_add_offset c x n t Hshape Hn Hc).
    rewrite (shape1_of_shape n t x Hshape Hn). lia.
  - intros j Hj. rewrite length_mean_axis0 in Hj.
    rewrite (shape1_add_offset c x n t Hshape Hn Hc) in Hj.
    rewrite nth_zip_with_Rplus
      by (rewrite length_mean_axis0, (shape1_of_shape n t x Hshape Hn); lia).
    unfold mean_axis0, sum_axis0, shape0.
    rewrite (shape1_add_offset c x n t Hshape Hn Hc).
    rewrite (shape1_of_shape n t x Hshape Hn).
    unfold add_offset at 1. rewrite length_map, Hl, !map_map.
    rewrite !(nth_map_seq _ _ _ Hj).
    rewrite (col_add_offset c x t j Hrows Hc), Rsum_map_plus, length_col, Hl.
    field. exact Hpos.
Qed.

Lemma zip_with_offset_cancel (c : vec) : forall row m : vec,
  length row = length c -> length m = length c ->
  zip_with Rminus (zip_with Rplus row c) (zip_with Rplus m c)
  = zip_with Rminus row m.
Proof.
  induction c as [|w c IH]; intros [|v row] [|u m] Hr Hm; simpl in *;
    try lia; try reflexivity.
  f_equal; [lra|]. apply IH; lia.
Qed.

Lemma center_add_offset (c : vec) (x : matrix) (n t : nat) :
  has_shape n t x -> (0 < n)%nat -> length c = t ->
  center (add_offset c x) = center x.
Proof.
  intros Hshape Hn Hc. unfold center. cbn zeta.
  rewrite (mean_axis0_add_offset c x n t Hshape Hn Hc).
  unfold add_offset. rewrite map_map. apply map_ext_in. intros row Hrow.
  destruct Hshape as [Hl Hrows]. rewrite Forall_forall in Hrows.
  apply zip_with_offset_cancel.
  - rewrite (Hrows row); [now rewrite Hc|]. now apply list_elem_of_In.
  - rewrite length_mean_axis0, Hc.
    apply (shape1_of_shape n t x); [split; [exact Hl|]|exact Hn].
    now apply Forall_forall.
Qed.

(** Adding a constant to every sample of a channel, a different
    constant for each channel if one likes, leaves the correlation as it
    is: the score cannot see an error in the intercept. *)
Theorem correlation_ignores_offset (x y : matrix) (c : vec) (n t : nat) :
  has_shape n t x -> (0 < n)%nat -> length c = t ->
  vectorized_correlation (add_offset c x) y = vectorized_correlation x y.
Proof.
  intros Hshape Hn Hc. unfold vectorized_correlation, std_axis0, var_axis0.
  cbn zeta. rewrite (center_add_offset c x n t Hshape Hn Hc).
  unfold shape0, add_offset. now rewrite length_map.
Qed.

Lemma correlation_ignores_offset_witness :
  vectorized_correlation (add_offset [3; -1] [[0; 1]; [2; 5]]) [[1; 0]; [5; 2]]
  = vectorized_correlation [[0; 1]; [2; 5]] [[1; 0]; [5; 2]].
Proof.
  apply (correlation_ignores_offset [[0; 1]; [2; 5]] [[1; 0]; [5; 2]] [3; -1] 2 2).
  - split; [reflexivity | repeat constructor].
  - lia.
  - reflexivity.
Defined.
